(** * silver-gate: extraction repair, question/solution matching and reverse sync

    A shallow embedding of the JavaScript sources of the repository:
    - [utils/mongoId.js]                      ([MongoId])
    - [fixInvalidEscapeSequences]             ([Repairer], [EscapeCheck])
    - [parseQuestionsFromContent]             ([Extractor])
    - [lessonsService.prepare]                ([Matcher])
    - [BaseReverseSyncer], [LessonReverseSyncer],
      [LessonItemReverseSyncer]               ([ReverseSync], [Pagination],
                                               [SyncCounters])
    - [reverseSyncService], mongoConnection.js ([IO], [Connection])
    - [pollForCompletion], [getResult]        ([LlamaParse])
    - [combineLatexContent]                   ([LatexSources])
    - [extractWithGemini]                     ([Gemini])
    - [lessonsService.create]                 ([LessonCreation])
    - ImportQuestionsModal.jsx, the import
      route, the create-folders route         ([ImportQuestions], [Folders])
    - stores/authStore.js, PDFViewerModal     ([AuthStore], [PdfViewer])

    The definitions come first; the properties follow, one module of facts
    for each module of definitions.

    JavaScript strings are sequences of code units; they are modelled as
    [list ascii] (code units below 256), which is enough for every comparison
    the sources make (all of them are against ASCII characters). *)

From Stdlib Require Import ZArith NArith Ascii String List Lia Bool.
From stdpp Require Import gmap strings list fin_maps.
Import ListNotations.

Set Warnings "-register-all".

Abbreviation str := (list ascii).

(** String literals of the sources, as code-unit lists. *)
Definition chars (s : string) : str := list_ascii_of_string s.

(** The double-quote and backslash characters. *)
Definition dquote : ascii := ascii_of_nat 34.
Definition backslash : ascii := ascii_of_nat 92.

(** [String.prototype.padStart(n, c)] for a one-character pad string. *)
Definition padStart (n : nat) (c : ascii) (s : str) : str :=
  replicate (n - length s) c ++ s.

(** ** utils/mongoId.js *)
Module MongoId.

Open Scope N_scope.

Definition hex_digit (d : N) : ascii :=
  match d with
  | 0 => "0" | 1 => "1" | 2 => "2" | 3 => "3" | 4 => "4" | 5 => "5"
  | 6 => "6" | 7 => "7" | 8 => "8" | 9 => "9" | 10 => "a" | 11 => "b"
  | 12 => "c" | 13 => "d" | 14 => "e" | _ => "f"
  end%char.

Definition is_hex (c : ascii) : bool :=
  bool_decide (c ∈ chars "0123456789abcdef").

(** [Number.prototype.toString(16)] on a non-negative integer: the digits,
    most significant first, no leading zero. *)
Fixpoint toHex (fuel : nat) (n : N) : str :=
  match fuel with
  | O => []
  | S f =>
      if n <? 16 then [hex_digit n]
      else toHex f (n / 16) ++ [hex_digit (n mod 16)]
  end.

Definition toString16 (n : N) : str := toHex (S (N.to_nat (N.log2 n))) n.

(** [toString(16)] on any integer: a negative one prints a sign. *)
Definition toString16Z (z : Z) : str :=
  if (z <? 0)%Z then "-"%char :: toString16 (Z.abs_N z) else toString16 (Z.to_N z).

(** [0xffffff], the modulus the source writes. *)
Definition counter_modulus : N := 0xffffff.

(** One call of [generateMongoId]. [now_ms] is the reading of [Date.now()],
    [draw i] the byte [Math.floor(Math.random() * 256)] of the i-th element of
    [Array.from({ length: 5 }, ...)], [counter] the module-level counter.
    Returns the identifier and the counter left behind. *)
Definition generateMongoId (now_ms : Z) (draw : nat -> Byte.byte) (counter : N)
  : str * N :=
  let timestamp := padStart 8 "0" (toString16Z (now_ms / 1000)) in
  let random :=
    concat (map (fun i => padStart 2 "0" (toString16 (Byte.to_N (draw i))))
                (seq 0 5)) in
  let counter' := (counter + 1) mod counter_modulus in
  let count := padStart 6 "0" (toString16 counter') in
  (timestamp ++ random ++ count, counter').

(** The three components, for stating the layout. *)
Definition timestamp_part (now_ms : Z) : str :=
  padStart 8 "0" (toString16Z (now_ms / 1000)).
Definition random_part (draw : nat -> Byte.byte) : str :=
  concat (map (fun i => padStart 2 "0" (toString16 (Byte.to_N (draw i))))
              (seq 0 5)).
Definition count_part (counter' : N) : str :=
  padStart 6 "0" (toString16 counter').

End MongoId.

(** ** JavaScript values, as [JSON.parse] produces them (plus [undefined]).
    Numbers are restricted to integers. *)
Module JS.

Inductive jsval : Type :=
  | JUndefined
  | JNull
  | JBool (b : bool)
  | JNum (n : Z)
  | JStr (s : str)
  | JArr (items : list jsval)
  | JObj (fields : list (string * jsval)).

(** Outcome of a piece of JavaScript: a value, a thrown exception, or the
    model's fuel ran out (shown below never to happen). *)
Inductive run (A : Type) : Type :=
  | Ret (a : A)
  | Throw
  | OutOfFuel.
Arguments Ret {A} a.
Arguments Throw {A}.
Arguments OutOfFuel {A}.

Definition bind {A B} (m : run A) (k : A -> run B) : run B :=
  match m with
  | Ret a => k a
  | Throw => Throw
  | OutOfFuel => OutOfFuel
  end.

#[global] Instance run_bind : MBind run := fun A B k m => bind m k.
#[global] Instance run_ret : MRet run := fun A a => Ret a.

(** [try { m } catch { h }] *)
Definition try_catch {A} (m : run A) (h : run A) : run A :=
  match m with
  | Throw => h
  | _ => m
  end.

(** ToBoolean *)
Definition truthy (v : jsval) : bool :=
  match v with
  | JUndefined | JNull => false
  | JBool b => b
  | JNum n => negb (n =? 0)%Z
  | JStr s => negb (bool_decide (s = []))
  | JArr _ | JObj _ => true
  end.

(** Decimal digits of an integer, as [String(n)] prints them. *)
Definition digit_char (d : N) : ascii := ascii_of_N (48 + d).

Fixpoint decimal (fuel : nat) (n : N) : str :=
  match fuel with
  | O => []
  | S f =>
      if (n <? 10)%N then [digit_char n]
      else decimal f (n / 10)%N ++ [digit_char (n mod 10)%N]
  end.

Definition numberToString (z : Z) : str :=
  if (z <? 0)%Z then "-"%char :: decimal (S (N.to_nat (N.log2 (Z.abs_N z)))) (Z.abs_N z)
  else decimal (S (N.to_nat (N.log2 (Z.to_N z)))) (Z.to_N z).

Fixpoint join (sep : str) (parts : list str) : str :=
  match parts with
  | [] => []
  | [p] => p
  | p :: rest => p ++ sep ++ join sep rest
  end.

(** [String(v)]: ToString. Array elements that are [null] or [undefined]
    print as the empty string ([Array.prototype.join]). *)
Fixpoint toString (v : jsval) : str :=
  match v with
  | JUndefined => chars "undefined"
  | JNull => chars "null"
  | JBool true => chars "true"
  | JBool false => chars "false"
  | JNum n => numberToString n
  | JStr s => s
  | JArr items =>
      join (chars ",")
        (map (fun x => match x with
                       | JUndefined | JNull => []
                       | _ => toString x
                       end) items)
  | JObj _ => chars "[object Object]"
  end.

(** [a || b] *)
Definition or_else (a b : jsval) : jsval := if truthy a then a else b.

Fixpoint assoc (k : string) (fields : list (string * jsval)) : option jsval :=
  match fields with
  | [] => None
  | (k', v) :: rest => if String.eqb k k' then Some v else assoc k rest
  end.

(** [v.k] for a property name [k] that no prototype defines: throws on
    [null] and [undefined], is [undefined] on the other primitives and on
    arrays. *)
Definition getProp (v : jsval) (k : string) : run jsval :=
  match v with
  | JUndefined | JNull => Throw
  | JObj fields => Ret (default JUndefined (assoc k fields))
  | _ => Ret JUndefined
  end.

(** SameValueZero, the equality of [Set] and [Map] keys. Primitives compare
    by value; an array or object is only equal to itself, and the values
    compared below always come from different positions of a parsed
    structure, hence are different objects. *)
Definition sameValueZero (a b : jsval) : bool :=
  match a, b with
  | JUndefined, JUndefined => true
  | JNull, JNull => true
  | JBool x, JBool y => Bool.eqb x y
  | JNum x, JNum y => (x =? y)%Z
  | JStr x, JStr y => bool_decide (x = y)
  | _, _ => false
  end.

(** [String.prototype.trim] and the regular-expression class [\s], on code
    units below 256. *)
Definition is_space (c : ascii) : bool :=
  bool_decide (nat_of_ascii c ∈ [9; 10; 11; 12; 13; 32; 160]%nat).

Fixpoint trimStart (s : str) : str :=
  match s with
  | c :: rest => if is_space c then trimStart rest else s
  | [] => []
  end.

Definition trim (s : str) : str := rev (trimStart (rev (trimStart s))).

End JS.

(** ** fixInvalidEscapeSequences *)
Module Repairer.
Import JS.

(** The characters of the string literal against which the source tests the
    character after a backslash: double quote, backslash, and [/bfnrtu]. *)
Definition valid_escape_chars : str := dquote :: backslash :: chars "/bfnrtu".

Definition is_valid_escape (c : ascii) : bool :=
  bool_decide (c ∈ valid_escape_chars).

(** Which of the two nested [while] loops control is in. *)
Inductive loop : Type := OuterLoop | StringLoop.

(** The two loops of the source over the index [i] and the accumulated
    [result]; every turn of either loop takes one unit of fuel. *)
Fixpoint scan (fuel : nat) (jsonStr : str) (pc : loop) (i : nat) (result : str)
  : run str :=
  match fuel with
  | O => OutOfFuel
  | S f =>
      match pc with
      | OuterLoop =>
          match jsonStr !! i with
          | None => Ret result
          | Some c =>
              if Ascii.eqb c dquote
              then scan f jsonStr StringLoop (i + 1) (result ++ [dquote])
              else scan f jsonStr OuterLoop (i + 1) (result ++ [c])
          end
      | StringLoop =>
          match jsonStr !! i with
          | None => scan f jsonStr OuterLoop i result
          | Some char =>
              match (if Ascii.eqb char backslash then jsonStr !! (i + 1) else None) with
              | Some nextChar =>
                  if is_valid_escape nextChar
                  then scan f jsonStr StringLoop (i + 2) (result ++ [char; nextChar])
                  else scan f jsonStr StringLoop (i + 2)
                         (result ++ [backslash; backslash; nextChar])
              | None =>
                  if Ascii.eqb char dquote
                  then scan f jsonStr OuterLoop (i + 1) (result ++ [dquote])
                  else scan f jsonStr StringLoop (i + 1) (result ++ [char])
              end
          end
      end
  end.

Definition fixInvalidEscapeSequences (jsonStr : str) : run str :=
  scan (length jsonStr + 2) jsonStr OuterLoop 0 [].

(** The repair as the specification words it: [repaired inString input output]
    relates the rest of the input, read outside ([false]) or inside ([true]) a
    string literal, to what is emitted for it. *)
Inductive repaired : bool -> str -> str -> Prop :=
  | rep_done inString :
      repaired inString [] []
  | rep_outside_copy c rest out :
      c <> dquote ->
      repaired false rest out ->
      repaired false (c :: rest) (c :: out)
  | rep_enter_string rest out :
      repaired true rest out ->
      repaired false (dquote :: rest) (dquote :: out)
  | rep_invalid_escape c rest out :
      is_valid_escape c = false ->
      repaired true rest out ->
      repaired true (backslash :: c :: rest) (backslash :: backslash :: c :: out)
  | rep_valid_escape c rest out :
      is_valid_escape c = true ->
      repaired true rest out ->
      repaired true (backslash :: c :: rest) (backslash :: c :: out)
  | rep_trailing_backslash :
      repaired true [backslash] [backslash]
  | rep_exit_string rest out :
      repaired false rest out ->
      repaired true (dquote :: rest) (dquote :: out)
  | rep_inside_copy c rest out :
      c <> dquote -> c <> backslash ->
      repaired true rest out ->
      repaired true (c :: rest) (c :: out).

(** The loop that reads the input outside or inside a string literal. *)
Definition loop_of (inString : bool) : loop :=
  if inString then StringLoop else OuterLoop.

End Repairer.

(** ** parseQuestionsFromContent *)
Module Extractor.
Import JS.

(** *** Searching the text *)

Fixpoint starts_with (p s : str) : bool :=
  match p, s with
  | [], _ => true
  | a :: p', b :: s' => Ascii.eqb a b && starts_with p' s'
  | _ :: _, [] => false
  end.

(** First position at or after [i] where [p] occurs, [s] being the text from
    position [i] on. *)
Fixpoint indexOf_go (p s : str) (i : nat) : option nat :=
  if starts_with p s then Some i
  else match s with
       | [] => None
       | _ :: s' => indexOf_go p s' (S i)
       end.

(** [s.indexOf(p, from)]; [None] stands for -1. *)
Definition indexOf (s p : str) (from : nat) : option nat :=
  let from' := Nat.min from (length s) in
  indexOf_go p (drop from' s) from'.

(** The text ["questions"] with its quotes. *)
Definition quoted_questions : str := dquote :: chars "questions" ++ [dquote].

Definition pattern1_text : str := chars "{" ++ quoted_questions.
Definition pattern2_text : str := chars "{ " ++ quoted_questions.

Definition strip_prefix (p s : str) : option str :=
  if starts_with p s then Some (drop (length p) s) else None.

(** The regular expression of pattern 3, a brace, the quoted key, a colon and
    an opening bracket with any white space between them, anchored at the
    head of [s]: the length of the match. Each greedy white-space run is
    followed by a character that is not white space, so there is no
    backtracking. *)
Definition questions_regex_at (s : str) : option nat :=
  s1 ← strip_prefix (chars "{") s;
  s2 ← strip_prefix quoted_questions (trimStart s1);
  s3 ← strip_prefix (chars ":") (trimStart s2);
  s4 ← strip_prefix (chars "[") (trimStart s3);
  Some (length s - length s4).

(** [s.match(regex)] for that expression: the text of the leftmost match. *)
Fixpoint questions_regex_match (s : str) : option str :=
  match questions_regex_at s with
  | Some n => Some (take n s)
  | None =>
      match s with
      | [] => None
      | _ :: s' => questions_regex_match s'
      end
  end.

Definition pattern1 (rawContent : str) (searchStart : nat) : option nat :=
  indexOf rawContent pattern1_text searchStart.

Definition pattern2 (rawContent : str) (searchStart : nat) : option nat :=
  indexOf rawContent pattern2_text searchStart.

(** [regexMatch ? searchStart + remainingContent.indexOf(regexMatch[0]) : -1] *)
Definition pattern3 (rawContent : str) (searchStart : nat) : option nat :=
  let remainingContent := drop searchStart rawContent in
  match questions_regex_match remainingContent with
  | Some m =>
      match indexOf remainingContent m 0 with
      | Some k => Some (searchStart + k)
      | None => if Nat.eqb searchStart 0 then None else Some (searchStart - 1)
      end
  | None => None
  end.

(** [Math.min(...validPatterns)] on a non-empty list. *)
Definition list_min (l : list nat) : option nat :=
  match l with
  | [] => None
  | x :: rest => Some (foldr Nat.min x rest)
  end.

(** The candidate start [jsonStart] of one turn of the loop ([None]: -1). *)
Definition find_candidate (rawContent : str) (searchStart : nat) : option nat :=
  let validPatterns :=
    omap id [pattern1 rawContent searchStart;
             pattern2 rawContent searchStart;
             pattern3 rawContent searchStart] in
  list_min validPatterns.

(** The [for] loop that looks for the matching closing brace. [rest] is the
    text from position [i] on; the result is [jsonEnd] ([None]: -1). *)
Fixpoint findJsonEnd (rest : str) (i : nat) (braceCount : Z)
    (inString escapeNext : bool) : option nat :=
  match rest with
  | [] => None
  | char :: rest' =>
      if escapeNext then findJsonEnd rest' (S i) braceCount inString false
      else if Ascii.eqb char backslash
      then findJsonEnd rest' (S i) braceCount inString true
      else if Ascii.eqb char dquote
      then findJsonEnd rest' (S i) braceCount (negb inString) false
      else if negb inString then
        let braceCount1 :=
          if Ascii.eqb char "{" then (braceCount + 1)%Z else braceCount in
        let braceCount2 :=
          if Ascii.eqb char "}" then (braceCount1 - 1)%Z else braceCount1 in
        if (braceCount2 =? 0)%Z then Some (i + 1)
        else findJsonEnd rest' (S i) braceCount2 inString false
      else findJsonEnd rest' (S i) braceCount inString false
  end.

(** [s.substring(a, b)] for [a <= b]. *)
Definition substring (s : str) (a b : nat) : str := take (b - a) (drop a s).

(** *** The markdown fallback: regular expressions of the source, run by the
    engine of the language *)

Inductive regex_id : Type :=
  | QuestionNumbered   (* 1.  or  1)  *)
  | QuestionWord       (* Q1. / Question 1: *)
  | QuestionParen      (* (1) *)
  | ChoiceLower        (* (a) ... (d) *)
  | ChoiceUpper        (* A. / (A) *)
  | ChoiceSplit.       (* the separator given to split *)

Definition questionPatterns : list regex_id :=
  [QuestionNumbered; QuestionWord; QuestionParen].

(** A match: its index, the matched text [match[0]] and the capture groups
    [match[1]], [match[2]], ... ([None]: the group did not take part). *)
Record rmatch : Type := {
  m_index : nat;
  m_text : str;
  m_groups : list (option str)
}.

Definition group (m : rmatch) (k : nat) : option str :=
  match m_groups m !! (k - 1) with
  | Some g => g
  | None => None
  end.

(** [String.prototype.toLowerCase] on code units below 256. *)
Definition toLowerChar (c : ascii) : ascii :=
  let n := nat_of_ascii c in
  if (65 <=? n) && (n <=? 90) then ascii_of_nat (n + 32)
  else if (192 <=? n) && (n <=? 222) && negb (n =? 215) then ascii_of_nat (n + 32)
  else c.

Definition toLowerCase (s : str) : str := map toLowerChar s.

(** The outcome of [parseQuestionsFromContent]: the object with the
    [questions] array, or the object the outer [catch] builds, which has an
    empty [questions] array, the raw content and the error message. *)
Inductive extraction : Type :=
  | Questions (questions : list jsval)
  | ParseError (raw_content : str).

(** The state of the candidate-scanning loop. [parse_log] (the arguments of
    the calls of JSON.parse so far) and [cursor_log] (the values [searchStart]
    has been assigned) are not in the source: they record its run. *)
Record scan_state : Type := {
  allQuestions : list jsval;
  searchStart : nat;
  jsonBlockCount : nat;
  parse_log : list str;
  cursor_log : list nat
}.

Definition scan_init : scan_state :=
  {| allQuestions := []; searchStart := 0; jsonBlockCount := 0;
     parse_log := []; cursor_log := [] |}.

(** The two copies of the service in the sources: the one of the
    routes/lessons.js bundle, which has [fixInvalidEscapeSequences], and the
    one of services/questionExtraction.service.js, which has not. *)
Inductive copy : Type := WithRepairer | WithoutRepairer.

Section Builtins.

(** [JSON.parse]; [None]: it throws a SyntaxError. *)
Variable JSON_parse : str -> option jsval.

(** [regex.exec(s)] of a global expression whose [lastIndex] is the given
    position; [None]: no match from there on. *)
Variable regex_exec : regex_id -> str -> nat -> option rmatch.

(** [JSON.parse(s)] followed by the test on [parsed.questions]: the questions
    to append. *)
Definition try_parse (s : str) : run (list jsval) :=
  match JSON_parse s with
  | None => Throw
  | Some parsed =>
      q ← getProp parsed "questions";
      mret (match q with JArr items => items | _ => [] end)
  end.

(** The [try]/[catch] around one block (routes/lessons.js bundle, the service
    that has the repairer): what is appended to [allQuestions], and the calls
    of JSON.parse made. *)
Definition parse_block (jsonStr : str) : run (list jsval * list str) :=
  match try_parse jsonStr with
  | Ret qs => Ret (qs, [jsonStr])
  | OutOfFuel => OutOfFuel
  | Throw =>
      fixedJsonStr ← Repairer.fixInvalidEscapeSequences jsonStr;
      match try_parse fixedJsonStr with
      | Ret qs => Ret (qs, [jsonStr; fixedJsonStr])
      | Throw => Ret ([], [jsonStr; fixedJsonStr])
      | OutOfFuel => OutOfFuel
      end
  end.

(** The same [try]/[catch] in the other copy of the service
    (services/questionExtraction.service.js), which has no repairer. *)
Definition parse_block_no_repair (jsonStr : str) : run (list jsval * list str) :=
  match try_parse jsonStr with
  | Ret qs => Ret (qs, [jsonStr])
  | OutOfFuel => OutOfFuel
  | Throw => Ret ([], [jsonStr])
  end.

(** One turn of [while (true)]: [None] when the loop breaks. *)
Definition scan_step (block : str -> run (list jsval * list str))
    (rawContent : str) (st : scan_state) : run (option scan_state) :=
  match find_candidate rawContent (searchStart st) with
  | None => Ret None
  | Some jsonStart =>
      match findJsonEnd (drop jsonStart rawContent) jsonStart 0 false false with
      | Some jsonEnd =>
          let jsonStr := substring rawContent jsonStart jsonEnd in
          '(qs, calls) ← block jsonStr;
          Ret (Some {| allQuestions := allQuestions st ++ qs;
                       searchStart := jsonEnd;
                       jsonBlockCount := S (jsonBlockCount st);
                       parse_log := parse_log st ++ calls;
                       cursor_log := cursor_log st ++ [jsonEnd] |})
      | None =>
          Ret (Some {| allQuestions := allQuestions st;
                       searchStart := jsonStart + 1;
                       jsonBlockCount := jsonBlockCount st;
                       parse_log := parse_log st;
                       cursor_log := cursor_log st ++ [jsonStart + 1] |})
      end
  end.

Fixpoint scan_loop (fuel : nat) (block : str -> run (list jsval * list str))
    (rawContent : str) (st : scan_state) : run scan_state :=
  match fuel with
  | O => OutOfFuel
  | S f =>
      next ← scan_step block rawContent st;
      match next with
      | None => Ret st
      | Some st' => scan_loop f block rawContent st'
      end
  end.

(** The whole loop, from [searchStart = 0]. *)
Definition collect (block : str -> run (list jsval * list str))
    (rawContent : str) : run scan_state :=
  scan_loop (S (length rawContent)) block rawContent scan_init.

(** The deduplication loop: [seenLabels] is the Set, in insertion order. *)
Fixpoint dedupe (qs seenLabels uniqueQuestions : list jsval) : run (list jsval) :=
  match qs with
  | [] => Ret uniqueQuestions
  | q :: rest =>
      l ← getProp q "question_label";
      let label := or_else l (JStr []) in
      if existsb (sameValueZero label) seenLabels
      then dedupe rest seenLabels uniqueQuestions
      else dedupe rest (seenLabels ++ [label]) (uniqueQuestions ++ [q])
  end.

(** [while ((m = regex.exec(s)) !== null) { acc = body(m, acc) }] *)
Fixpoint exec_loop {A} (fuel : nat) (re : regex_id) (s : str) (lastIndex : nat)
    (acc : A) (body : rmatch -> A -> run A) : run A :=
  match fuel with
  | O => OutOfFuel
  | S f =>
      match regex_exec re s lastIndex with
      | None => Ret acc
      | Some m =>
          acc' ← body m acc;
          exec_loop f re s (m_index m + length (m_text m)) acc' body
      end
  end.

(** A template-literal hole: [undefined] prints as its name. *)
Definition show (g : option str) : str :=
  match g with Some s => s | None => chars "undefined" end.

(** A method call on a capture group throws when the group is [undefined]. *)
Definition defined (g : option str) : run str :=
  match g with Some s => Ret s | None => Throw end.

Definition lower_choice (m : rmatch) (choices : list str) : run (list str) :=
  text ← defined (group m 2);
  Ret (choices ++ [chars "(" ++ show (group m 1) ++ chars ") " ++ trim text]).

Definition upper_choice (m : rmatch) (choices : list str) : run (list str) :=
  letter ← defined (group m 1);
  text ← defined (group m 2);
  Ret (choices ++ [chars "(" ++ toLowerCase letter ++ chars ") " ++ trim text]).

(** [questionBlock.split(regex)[0]] *)
Definition split_head (questionBlock : str) : str :=
  match regex_exec ChoiceSplit questionBlock 0 with
  | Some m => take (m_index m) questionBlock
  | None => questionBlock
  end.

(** The body of the loop over the matches of one question pattern. *)
Definition question_of_match (m : rmatch) (questions : list jsval)
  : run (list jsval) :=
  let questionLabel := group m 1 in
  let questionBlock :=
    match group m 2 with
    | Some (c :: b) => c :: b
    | _ => m_text m
    end in
  let fuel := S (length questionBlock) in
  choices ← exec_loop fuel ChoiceLower questionBlock 0 [] lower_choice;
  choices ← (match choices with
             | [] => exec_loop fuel ChoiceUpper questionBlock 0 [] upper_choice
             | _ => Ret choices
             end);
  let questionText :=
    match choices with
    | [] => questionBlock
    | _ => trim (split_head questionBlock)
    end in
  match questionText with
  | [] => Ret questions
  | _ =>
      Ret (questions ++
             [JObj [("question_label"%string,
                      match questionLabel with Some l => JStr l | None => JUndefined end);
                    ("text"%string, JStr (trim questionText));
                    ("choices"%string, JArr (map JStr choices))]])
  end.

(** [for (const regex of questionPatterns) { ... if (questions.length > 0) break; }] *)
Fixpoint markdown_patterns (patterns : list regex_id) (rawContent : str)
    (questions : list jsval) : run (list jsval) :=
  match patterns with
  | [] => Ret questions
  | regex :: rest =>
      questions' ← exec_loop (S (length rawContent)) regex rawContent 0 questions
                     question_of_match;
      match questions' with
      | [] => markdown_patterns rest rawContent questions'
      | _ => Ret questions'
      end
  end.

Definition parseMarkdown (rawContent : str) : run (list jsval) :=
  markdown_patterns questionPatterns rawContent [].

(** The body of the outer [try]. *)
Definition parse_body (block : str -> run (list jsval * list str))
    (rawContent : str) : run extraction :=
  st ← collect block rawContent;
  match allQuestions st with
  | _ :: _ =>
      uniqueQuestions ← dedupe (allQuestions st) [] [];
      Ret (Questions uniqueQuestions)
  | [] =>
      questions ← parseMarkdown rawContent;
      Ret (Questions questions)
  end.

(** [parseQuestionsFromContent] of the service that has the repairer. *)
Definition parseQuestionsFromContent (rawContent : str) : run extraction :=
  try_catch (parse_body parse_block rawContent) (Ret (ParseError rawContent)).

(** [parseQuestionsFromContent] of the copy without the repairer. *)
Definition parseQuestionsFromContent_no_repair (rawContent : str) : run extraction :=
  try_catch (parse_body parse_block_no_repair rawContent)
            (Ret (ParseError rawContent)).

(** The [try]/[catch] around one block, and the function, in either copy. *)
Definition block_of (c : copy) : str -> run (list jsval * list str) :=
  match c with
  | WithRepairer => parse_block
  | WithoutRepairer => parse_block_no_repair
  end.

Definition parseQuestionsFromContent_of (c : copy) (rawContent : str) : run extraction :=
  match c with
  | WithRepairer => parseQuestionsFromContent rawContent
  | WithoutRepairer => parseQuestionsFromContent_no_repair rawContent
  end.

End Builtins.

(** *** Notions used to state the properties of the extractor *)

(** Each value of the list is larger than the ones before it. *)
Definition increasing (l : list nat) : Prop :=
  forall i j a b, i < j -> l !! i = Some a -> l !! j = Some b -> a < b.

(** What holds of the state of the scanning loop between two turns. *)
Definition scan_inv (rawContent : str) (st : scan_state) : Prop :=
  searchStart st <= length rawContent /\
  increasing (0 :: cursor_log st) /\
  Forall (fun c => c <= searchStart st) (0 :: cursor_log st) /\
  length (cursor_log st) <= searchStart st /\
  S (length (cursor_log st)) <= Nat.max 1 (length rawContent).

(** A candidate the scanning loop locates: the position of its opening brace
    and, when the matching closing brace is found, the position after it. *)
Record candidate : Type := {
  c_start : nat;
  c_end : option nat
}.

(** Where the cursor goes after a candidate: to the end of the block, or to
    the start plus one when the block has no end. *)
Definition cursor_after (c : candidate) : nat :=
  match c_end c with
  | Some jsonEnd => jsonEnd
  | None => c_start c + 1
  end.

(** The candidates located from [searchStart] on, each search starting where
    the cursor went after the candidate before. *)
Fixpoint candidates_from (fuel : nat) (rawContent : str) (searchStart : nat)
  : list candidate :=
  match fuel with
  | O => []
  | S f =>
      match find_candidate rawContent searchStart with
      | None => []
      | Some jsonStart =>
          let c := {| c_start := jsonStart;
                      c_end := findJsonEnd (drop jsonStart rawContent) jsonStart 0
                                 false false |} in
          c :: candidates_from f rawContent (cursor_after c)
      end
  end.

Definition candidates (rawContent : str) : list candidate :=
  candidates_from (length rawContent) rawContent 0.

(** The text of a candidate that has an end. *)
Definition block_text (rawContent : str) (c : candidate) : option str :=
  (fun jsonEnd => substring rawContent (c_start c) jsonEnd) <$> c_end c.

(** The blocks of the text: the candidates that have an end, in order. *)
Definition blocks (rawContent : str) : list str :=
  omap (block_text rawContent) (candidates rawContent).

(** The questions a block brings, and the calls of JSON.parse made for it. *)
Definition brought (block : str -> run (list jsval * list str)) (jsonStr : str)
  : list jsval :=
  match block jsonStr with
  | Ret (qs, _) => qs
  | _ => []
  end.

Definition parse_calls (block : str -> run (list jsval * list str)) (jsonStr : str)
  : list str :=
  match block jsonStr with
  | Ret (_, calls) => calls
  | _ => []
  end.

(** What holds of every match of the expressions of the fallback: it lies in
    the text at or after [lastIndex] and is not empty (each expression needs
    a digit or a letter). *)
Definition advancing (regex_exec : regex_id -> str -> nat -> option rmatch) : Prop :=
  forall re s lastIndex m,
    regex_exec re s lastIndex = Some m ->
    lastIndex <= m_index m /\ 0 < length (m_text m) /\
    m_index m + length (m_text m) <= length s.

(** [q.question_label] of an element on which the access does not throw. *)
Definition label_of (q : jsval) : jsval :=
  match q with
  | JObj fields => default JUndefined (assoc "question_label" fields)
  | _ => JUndefined
  end.

(** An element of a questions array on which a property access throws. *)
Definition nullish (q : jsval) : bool :=
  match q with
  | JUndefined | JNull => true
  | _ => false
  end.

(** Deduplication as the specification words it, for a given notion of two
    questions having the same label: a question is kept when no question
    before it ([earlier], then the ones met on the way) has the same label;
    the kept ones stay in order. *)
Fixpoint first_seen (same_label : jsval -> jsval -> bool)
    (earlier qs : list jsval) : list jsval :=
  match qs with
  | [] => []
  | q :: rest =>
      if existsb (same_label q) earlier
      then first_seen same_label (earlier ++ [q]) rest
      else q :: first_seen same_label (earlier ++ [q]) rest
  end.

(** The labels coerced to strings are equal (the specification's key). *)
Definition string_coerced_equal (q1 q2 : jsval) : bool :=
  bool_decide (toString (label_of q1) = toString (label_of q2)).

(** The keys the source puts in its Set are the same value: the label itself,
    or the empty string when the label is falsy, compared without coercion. *)
Definition same_set_key (q1 q2 : jsval) : bool :=
  sameValueZero (or_else (label_of q1) (JStr [])) (or_else (label_of q2) (JStr [])).

(** *** Sample inputs *)

(** A JSON.parse given by the table of its results on the texts of a run;
    any other text is taken not to parse. *)
Definition parse_table (table : list (str * jsval)) (s : str) : option jsval :=
  snd <$> List.find (fun e => bool_decide (e.1 = s)) table.

#[global] Instance regex_id_eq_dec : EqDecision regex_id.
Proof. solve_decision. Defined.

#[global] Instance rmatch_eq_dec : EqDecision rmatch.
Proof. solve_decision. Defined.

(** An engine given by the table of the matches it finds in a run: the
    expression, the text, [lastIndex] and the match; any other call finds no
    match. *)
Definition regex_table (table : list (regex_id * str * nat * rmatch))
  : regex_id -> str -> nat -> option rmatch :=
  fun re s lastIndex =>
    snd <$> List.find (fun e => bool_decide (e.1 = (re, s, lastIndex))) table.

(** A text on which none of the regular expressions of the fallback finds a
    match is run with this engine. *)
Definition no_match : regex_id -> str -> nat -> option rmatch :=
  fun _ _ _ => None.

Definition quoted (s : string) : str := dquote :: chars s ++ [dquote].

(** A block whose text holds the invalid escape of a LaTeX command. *)
Definition wedge_block : str :=
  chars "{" ++ quoted "questions" ++ chars ": [{" ++ quoted "question_label"
  ++ chars ":" ++ quoted "1" ++ chars "," ++ quoted "text" ++ chars ":"
  ++ [dquote] ++ chars "a \wedge b" ++ [dquote] ++ chars "}]}".

Definition wedge_block_fixed : str :=
  chars "{" ++ quoted "questions" ++ chars ": [{" ++ quoted "question_label"
  ++ chars ":" ++ quoted "1" ++ chars "," ++ quoted "text" ++ chars ":"
  ++ [dquote] ++ chars "a \\wedge b" ++ [dquote] ++ chars "}]}".

Definition wedge_question : jsval :=
  JObj [("question_label"%string, JStr (chars "1"));
        ("text"%string, JStr (chars "a \wedge b"))].

Definition wedge_raw : str := chars "Noise " ++ wedge_block ++ chars " trailing".

(** JSON.parse rejects [wedge_block] and accepts the repaired text. *)
Definition wedge_parse : str -> option jsval :=
  parse_table [(wedge_block_fixed, JObj [("questions"%string, JArr [wedge_question])])].

(** The end-to-end scenario of the specification. *)
Definition scenario_block : str :=
  chars "{" ++ quoted "questions" ++ chars ": [{" ++ quoted "question_label"
  ++ chars ":" ++ quoted "1" ++ chars "," ++ quoted "text" ++ chars ":"
  ++ quoted "2+2=?" ++ chars "," ++ quoted "choices" ++ chars ":[]}]}".

Definition scenario_question : jsval :=
  JObj [("question_label"%string, JStr (chars "1"));
        ("text"%string, JStr (chars "2+2=?"));
        ("choices"%string, JArr [])].

Definition scenario_raw : str := chars "Noise " ++ scenario_block ++ chars " trailing".

Definition scenario_parse : str -> option jsval :=
  parse_table [(scenario_block, JObj [("questions"%string, JArr [scenario_question])])].

(** A block that parses and holds no question. *)
Definition empty_block : str := chars "{" ++ quoted "questions" ++ chars ": []}".

Definition empty_parse : str -> option jsval :=
  parse_table [(empty_block, JObj [("questions"%string, JArr [])])].

(** Two questions labelled with the number 1 and with the string of the
    digit 1. *)
Definition question_num_1 : jsval :=
  JObj [("question_label"%string, JNum 1); ("text"%string, JStr (chars "first"))].
Definition question_str_1 : jsval :=
  JObj [("question_label"%string, JStr (chars "1")); ("text"%string, JStr (chars "second"))].

(** A block with those two questions, and its parse. *)
Definition num_str_block : str :=
  chars "{" ++ quoted "questions" ++ chars ": [{" ++ quoted "question_label"
  ++ chars ": 1, " ++ quoted "text" ++ chars ": " ++ quoted "first"
  ++ chars "}, {" ++ quoted "question_label" ++ chars ": " ++ quoted "1"
  ++ chars ", " ++ quoted "text" ++ chars ": " ++ quoted "second" ++ chars "}]}".

Definition num_str_parse : str -> option jsval :=
  parse_table
    [(num_str_block, JObj [("questions"%string, JArr [question_num_1; question_str_1])])].

(** The line feed. *)
Definition line_feed : ascii := ascii_of_nat 10.

(** A block that parses and holds no question, then a line with a numbered
    question. The first question expression matches from the line feed to
    the end of the text; no choice expression matches in the question. *)
Definition numbered_line : str := chars "1. What is 2+2?".

Definition block_then_numbered : str := empty_block ++ [line_feed] ++ numbered_line.

Definition numbered_engine : regex_id -> str -> nat -> option rmatch :=
  regex_table
    [(QuestionNumbered, block_then_numbered, 0,
      {| m_index := 17; m_text := line_feed :: numbered_line;
         m_groups := [Some (chars "1"); Some (chars "What is 2+2?")] |})].

Definition numbered_question : jsval :=
  JObj [("question_label"%string, JStr (chars "1"));
        ("text"%string, JStr (chars "What is 2+2?"));
        ("choices"%string, JArr [])].

(** A question with a string label, and its text in a block. *)
Definition labelled (label text : string) : jsval :=
  JObj [("question_label"%string, JStr (chars label)); ("text"%string, JStr (chars text))].

Definition labelled_text (label text : string) : str :=
  chars "{" ++ quoted "question_label" ++ chars ": " ++ quoted label ++ chars ", "
  ++ quoted "text" ++ chars ": " ++ quoted text ++ chars "}".

Definition block_with (questions : list str) : str :=
  chars "{" ++ quoted "questions" ++ chars ": [" ++ join (chars ", ") questions
  ++ chars "]}".

(** Two blocks on two lines; the label 5 is in both. *)
Definition first_block : str :=
  block_with [labelled_text "5" "first"; labelled_text "6" "other"].
Definition second_block : str :=
  block_with [labelled_text "5" "again"; labelled_text "7" "last"].

Definition two_blocks : str := first_block ++ [line_feed] ++ second_block.

Definition two_blocks_parse : str -> option jsval :=
  parse_table
    [(first_block, JObj [("questions"%string,
                          JArr [labelled "5" "first"; labelled "6" "other"])]);
     (second_block, JObj [("questions"%string,
                           JArr [labelled "5" "again"; labelled "7" "last"])])].

(** The block with the invalid escape, then a block that parses. *)
Definition wedge_then_scenario : str :=
  chars "Noise " ++ wedge_block ++ chars " between " ++ scenario_block.

End Extractor.

(** ** lessonsService.prepare: merging questions with solutions *)
Module Matcher.
Import JS.

(** The records of the two extracted sets; a property that is absent is
    [JUndefined]. *)
Record ExtractedQuestion : Type := {
  question_label : jsval;
  text : jsval;
  choices : jsval
}.

Record ExtractedSolution : Type := {
  solution_label : jsval;      (* solution.question_label *)
  answer_key : jsval;
  worked_solution : jsval;
  explanation : jsval
}.

(** A merged item; an optional property is [None] when it was not set. *)
Record LessonItem : Type := {
  item_question_label : jsval;
  item_text : jsval;
  item_choices : jsval;
  has_solution : bool;
  item_answer_key : option jsval;
  item_worked_solution : option jsval;
  item_explanation : option jsval
}.

Record Prepared : Type := {
  items : list LessonItem;
  total_questions : nat;
  total_solutions : nat;
  matched : nat;
  unmatched : nat
}.

(** [solutions.forEach(...)]: the Map from [String(solution.question_label)]
    to the solution; a later [set] on the same key replaces the earlier one. *)
Definition add_solution (solutionsMap : gmap str ExtractedSolution)
    (solution : ExtractedSolution) : gmap str ExtractedSolution :=
  if truthy (solution_label solution)
  then <[toString (solution_label solution) := solution]> solutionsMap
  else solutionsMap.

Definition build_solutionsMap (solutions : list ExtractedSolution)
  : gmap str ExtractedSolution :=
  foldl add_solution ∅ solutions.

(** [if (matchingSolution.f) item.f = matchingSolution.f] *)
Definition copy_if_truthy (v : jsval) : option jsval :=
  if truthy v then Some v else None.

(** The callback of [questions.map]. *)
Definition merge_question (solutionsMap : gmap str ExtractedSolution)
    (question : ExtractedQuestion) : LessonItem :=
  let questionLabel := toString (or_else (question_label question) (JStr [])) in
  let matchingSolution := solutionsMap !! questionLabel in
  {| item_question_label := question_label question;
     item_text := text question;
     item_choices := or_else (choices question) (JArr []);
     has_solution := bool_decide (is_Some matchingSolution);
     item_answer_key := matchingSolution ≫= (fun s => copy_if_truthy (answer_key s));
     item_worked_solution :=
       matchingSolution ≫= (fun s => copy_if_truthy (worked_solution s));
     item_explanation :=
       matchingSolution ≫= (fun s => copy_if_truthy (explanation s)) |}.

(** The matching part of [prepare], on the two arrays. *)
Definition prepare (questions : list ExtractedQuestion)
    (solutions : list ExtractedSolution) : Prepared :=
  let solutionsMap := build_solutionsMap solutions in
  let mergedItems := map (merge_question solutionsMap) questions in
  let matchedCount := length (filter (fun item => has_solution item = true) mergedItems) in
  let unmatchedCount := length mergedItems - matchedCount in
  {| items := mergedItems;
     total_questions := length questions;
     total_solutions := length solutions;
     matched := matchedCount;
     unmatched := unmatchedCount |}.

(** The solution the specification's wording selects for a question: one whose
    label, coerced to a string, equals the question's label coerced to a
    string. *)
Definition labels_coerce_equal (question : ExtractedQuestion)
    (solution : ExtractedSolution) : Prop :=
  toString (solution_label solution) = toString (question_label question).

(** What the code matches on: a solution with a truthy label whose string
    equals the string of the question's label, an absent or falsy question
    label counting as the empty string. *)
Definition matches (question : ExtractedQuestion)
    (solution : ExtractedSolution) : Prop :=
  truthy (solution_label solution) = true /\
  toString (solution_label solution)
    = toString (or_else (question_label question) (JStr [])).

#[global] Instance matches_dec q s : Decision (matches q s).
Proof. unfold matches. apply _. Defined.

(** The last solution of the set that matches the question. *)
Definition last_match (question : ExtractedQuestion)
    (solutions : list ExtractedSolution) : option ExtractedSolution :=
  last (filter (matches question) solutions).

(** Sample records: a question labelled with a number and a solution
    labelled with the string of its digits. *)
Definition numbered_question (n : Z) : ExtractedQuestion :=
  {| question_label := JNum n; text := JStr (chars "2+2=?"); choices := JArr [] |}.

Definition labelled_solution (label : string) (key : string) : ExtractedSolution :=
  {| solution_label := JStr (chars label); answer_key := JStr (chars key);
     worked_solution := JStr []; explanation := JUndefined |}.

End Matcher.

(** ** The reverse sync engine *)
Module ReverseSync.
Import JS.

(** helpers.js *)
Definition BATCH_SIZE : nat := 100.

(** Values of source columns and of document fields. *)
Inductive bson : Type :=
  | BNull
  | BNum (n : Z)
  | BStr (s : string)
  | BObjectId (n : N)
  | BDBRef (collection : string) (id : N)
  | BDate (t : Z)
  | BJson (text : string).

#[global] Instance bson_eq_dec : EqDecision bson.
Proof. solve_decision. Defined.

(** A document to write: its [_id] and its other fields. *)
Record document : Type := {
  _id : N;
  fields : gmap string bson
}.

#[global] Instance document_eq_dec : EqDecision document.
Proof. solve_decision. Defined.

Definition hex_value (c : ascii) : option N :=
  let n := N_of_ascii c in
  if (48 <=? n)%N && (n <=? 57)%N then Some (n - 48)%N
  else if (97 <=? n)%N && (n <=? 102)%N then Some (n - 87)%N
  else if (65 <=? n)%N && (n <=? 70)%N then Some (n - 55)%N
  else None.

Fixpoint parse_hex (s : str) (acc : N) : option N :=
  match s with
  | [] => Some acc
  | c :: rest =>
      match hex_value c with
      | Some d => parse_hex rest (16 * acc + d)%N
      | None => None
      end
  end.

(** [toObjectId]: throws unless the argument is a string of length 24; the
    ObjectId constructor then throws unless the 24 characters are hexadecimal
    digits, and the identifier is the 12 bytes they spell. *)
Definition toObjectId (id : option string) : run N :=
  match id with
  | None => Throw
  | Some s =>
      if Nat.eqb (String.length s) 24 then
        match parse_hex (chars s) 0 with
        | Some n => Ret n
        | None => Throw
        end
      else Throw
  end.

(** [toDBRef] *)
Definition toDBRef (collection : string) (id : option string) : run bson :=
  match id with
  | None | Some EmptyString => Ret BNull
  | Some s => objectId ← toObjectId (Some s); Ret (BDBRef collection objectId)
  end.

(** The counters of the statistics (the start and end times and the duration
    are left out). *)
Record SyncStats : Type := {
  total : nat;
  inserted : nat;
  updated : nat;
  skipped : nat;
  errors : nat;
  matched : nat      (* set by the lesson syncer only; absent counts as 0 *)
}.

Definition createStats : SyncStats :=
  {| total := 0; inserted := 0; updated := 0; skipped := 0; errors := 0;
     matched := 0 |}.

Definition set_total (n : nat) (s : SyncStats) : SyncStats :=
  {| total := n; inserted := inserted s; updated := updated s;
     skipped := skipped s; errors := errors s; matched := matched s |}.

Definition incr_skipped (s : SyncStats) : SyncStats :=
  {| total := total s; inserted := inserted s; updated := updated s;
     skipped := S (skipped s); errors := errors s; matched := matched s |}.

Definition add_errors (n : nat) (s : SyncStats) : SyncStats :=
  {| total := total s; inserted := inserted s; updated := updated s;
     skipped := skipped s; errors := errors s + n; matched := matched s |}.

(** *** The target collection *)

(** The documents by [_id]; whether the collection carries the unique index
    on (order, chapter, type) that the lesson syncer is written against; and
    how many times the clock has been read. *)
Record mongo : Type := {
  docs : gmap N (gmap string bson);
  unique_index : bool;
  clock_reads : nat
}.

(** A field that is absent reads as null, in query filters and in index
    keys. *)
Definition fieldOf (d : gmap string bson) (k : string) : bson :=
  default BNull (d !! k).

Definition unique_key (d : gmap string bson) : bson * bson * bson :=
  (fieldOf d "order", fieldOf d "chapter", fieldOf d "type").

(** The filter of the delete operation built for [doc]. *)
Definition conflicts_with (doc : document) (i : N) (d : gmap string bson) : Prop :=
  i <> _id doc /\ unique_key d = unique_key (fields doc).

#[global] Instance conflicts_with_dec doc i d : Decision (conflicts_with doc i d).
Proof. unfold conflicts_with. apply _. Defined.

(** [deleteMany] with that filter. *)
Definition deleteMany (doc : document) (ds : gmap N (gmap string bson))
  : gmap N (gmap string bson) :=
  filter (fun p => ~ conflicts_with doc p.1 p.2) ds.

(** The counters of a bulk write result, and the number of write errors. *)
Record BulkWriteResult : Type := {
  upsertedCount : nat;
  modifiedCount : nat;
  matchedCount : nat;
  writeErrors : nat
}.

Definition no_writes : BulkWriteResult :=
  {| upsertedCount := 0; modifiedCount := 0; matchedCount := 0; writeErrors := 0 |}.

(** Another document already holds the index key of [new]. *)
Definition duplicate_key (ds : gmap N (gmap string bson)) (id : N)
    (new : gmap string bson) : Prop :=
  map_Exists (fun i d => i <> id /\ unique_key d = unique_key new) ds.

#[global] Instance duplicate_key_dec ds id new : Decision (duplicate_key ds id new).
Proof. unfold duplicate_key. apply _. Defined.

(** [updateOne] with [upsert: true], filter on [_id], [$set] and
    [$setOnInsert]. A write that would break the unique index is refused and
    counted as a write error. *)
Definition updateOne (unique : bool) (id : N) (set setOnInsert : gmap string bson)
    (acc : gmap N (gmap string bson) * BulkWriteResult)
  : gmap N (gmap string bson) * BulkWriteResult :=
  let '(ds, r) := acc in
  match ds !! id with
  | Some old =>
      let new := set ∪ old in
      if bool_decide (new = old) then
        (ds, {| upsertedCount := upsertedCount r; modifiedCount := modifiedCount r;
                matchedCount := S (matchedCount r); writeErrors := writeErrors r |})
      else if unique && bool_decide (duplicate_key ds id new) then
        (ds, {| upsertedCount := upsertedCount r; modifiedCount := modifiedCount r;
                matchedCount := matchedCount r; writeErrors := S (writeErrors r) |})
      else
        (<[id := new]> ds,
         {| upsertedCount := upsertedCount r; modifiedCount := S (modifiedCount r);
            matchedCount := S (matchedCount r); writeErrors := writeErrors r |})
  | None =>
      let new := set ∪ setOnInsert in
      if unique && bool_decide (duplicate_key ds id new) then
        (ds, {| upsertedCount := upsertedCount r; modifiedCount := modifiedCount r;
                matchedCount := matchedCount r; writeErrors := S (writeErrors r) |})
      else
        (<[id := new]> ds,
         {| upsertedCount := S (upsertedCount r); modifiedCount := modifiedCount r;
            matchedCount := matchedCount r; writeErrors := writeErrors r |})
  end.

(** The [try]/[catch] around a bulk write: with [ordered: false] every
    operation is attempted (here in the order of the array) and the call
    throws at the end if any failed; the counters are then not added and the
    whole batch is counted under [errors]. *)
Definition record_result (documents : list document) (r : BulkWriteResult)
    (countMatched : bool) (stats : SyncStats) : SyncStats :=
  if Nat.eqb (writeErrors r) 0 then
    {| total := total stats;
       inserted := inserted stats + upsertedCount r;
       updated := updated stats + modifiedCount r;
       skipped := skipped stats;
       errors := errors stats;
       matched := if countMatched then matched stats + matchedCount r
                  else matched stats |}
  else add_errors (length documents) stats.

(** [BaseReverseSyncer.batchUpsert] *)
Definition base_batchUpsert (documents : list document) (stats : SyncStats)
    (db : mongo) : SyncStats * mongo :=
  match documents with
  | [] => (stats, db)
  | _ =>
      let '(ds, result) :=
        foldl (fun acc doc => updateOne (unique_index db) (_id doc) (fields doc) ∅ acc)
              (docs db, no_writes) documents in
      (record_result documents result false stats,
       {| docs := ds; unique_index := unique_index db; clock_reads := clock_reads db |})
  end.

(** What goes wrong in the store for a reason of its own (a lost connection,
    a time-out) during one call of the lesson syncer's [batchUpsert]: the
    bulk write of the deletes throws, after the operations that the list
    marks were carried out ([None]: it does not throw); [countDocuments]
    throws. (The bulk write of the upserts throws when the unique index
    refuses a write.) *)
Record fault : Type := {
  delete_throws : option (list bool);
  count_throws : bool
}.

Definition no_fault : fault := {| delete_throws := None; count_throws := false |}.

(** The operations of a bulk write that were carried out. *)
Definition carried_out {A} (applied : list bool) (operations : list A) : list A :=
  omap (fun p : bool * A => if p.1 then Some p.2 else None) (zip applied operations).

Section Clock.

(** [clock k] is what the k-th [new Date()] of the process returns, and
    [faults k] what goes wrong in the call of [batchUpsert] that makes that
    reading. *)
Variable clock : nat -> Z.
Variable faults : nat -> fault.

(** [LessonReverseSyncer.batchUpsert]. The first [try] holds the deletes:
    when they throw the method goes on with the upserts. The second holds the
    upserts, the counters and [countDocuments]: when the bulk write throws
    the counters are not added, when [countDocuments] throws they are, and in
    both cases the batch is counted under [errors]. *)
Definition lesson_batchUpsert (documents : list document) (stats : SyncStats)
    (db : mongo) : SyncStats * mongo :=
  match documents with
  | [] => (stats, db)
  | _ =>
      let fault := faults (clock_reads db) in
      let deleteOperations :=
        match delete_throws fault with
        | None => documents
        | Some applied => carried_out applied documents
        end in
      let afterDelete :=
        foldl (fun ds doc => deleteMany doc ds) (docs db) deleteOperations in
      let now := BDate (clock (clock_reads db)) in
      let '(ds, result) :=
        foldl (fun acc doc =>
                 updateOne (unique_index db) (_id doc)
                   (<["updated_at" := now]> (fields doc))
                   {["created_at" := now]} acc)
              (afterDelete, no_writes) documents in
      let counted := record_result documents result true stats in
      (if Nat.eqb (writeErrors result) 0 && count_throws fault
       then add_errors (length documents) counted
       else counted,
       {| docs := ds; unique_index := unique_index db;
          clock_reads := S (clock_reads db) |})
  end.

End Clock.

(** *** BaseReverseSyncer.sync *)

(** What [transformItem] does on a row: returns a document, returns a falsy
    value, or throws. *)
Inductive transformed : Type :=
  | Document (d : document)
  | Falsy
  | Thrown.

(** The per-entity part of a syncer. *)
Class Syncer (Item Ctx : Type) : Type := {
  ref_id : Item -> option string;
  transformItem : Item -> Ctx -> transformed;
  batchUpsert : list document -> SyncStats -> mongo -> SyncStats * mongo
}.

(** [!item.ref_id] *)
Definition lacks_ref_id (r : option string) : bool :=
  match r with
  | None | Some EmptyString => true
  | Some _ => false
  end.

(** The variables of [sync]; [sent] lists the batches handed to [batchUpsert]
    so far (it is not in the source: it records the run). *)
Record sync_state : Type := {
  batch : list document;
  stats : SyncStats;
  db : mongo;
  sent : list (list document)
}.

(** Consecutive batches: a batch is closed as soon as it holds [n]
    documents, and what remains at the end is the last batch. *)
Fixpoint chunks_go {A} (n : nat) (cur : list A) (l : list A) : list (list A) :=
  match l with
  | [] => match cur with [] => [] | _ => [cur] end
  | x :: rest =>
      if n <=? length (cur ++ [x]) then (cur ++ [x]) :: chunks_go n [] rest
      else chunks_go n (cur ++ [x]) rest
  end.

Definition chunks {A} (n : nat) (l : list A) : list (list A) := chunks_go n [] l.

Section Sync.
Context {Item Ctx : Type} `{!Syncer Item Ctx}.

(** [await this.batchUpsert(batch, stats)] *)
Definition call_batchUpsert (st : sync_state) : sync_state :=
  let '(stats', db') := batchUpsert (batch st) (stats st) (db st) in
  {| batch := batch st; stats := stats'; db := db'; sent := sent st ++ [batch st] |}.

Definition set_batch (b : list document) (st : sync_state) : sync_state :=
  {| batch := b; stats := stats st; db := db st; sent := sent st |}.

Definition map_stats (f : SyncStats -> SyncStats) (st : sync_state) : sync_state :=
  {| batch := batch st; stats := f (stats st); db := db st; sent := sent st |}.

(** The body of [for (const item of supabaseData)]. *)
Definition sync_item (context : Ctx) (st : sync_state) (item : Item) : sync_state :=
  if lacks_ref_id (ref_id item) then map_stats incr_skipped st
  else
    match transformItem item context with
    | Thrown => map_stats (add_errors 1) st
    | outcome =>
        let st1 :=
          match outcome with
          | Document document => set_batch (batch st ++ [document]) st
          | _ => map_stats incr_skipped st
          end in
        if BATCH_SIZE <=? length (batch st1)
        then set_batch [] (call_batchUpsert st1)
        else st1
    end.

(** The state when the loop of [sync] starts. *)
Definition sync_start (supabaseData : list Item) (db0 : mongo) : sync_state :=
  {| batch := []; stats := set_total (length supabaseData) createStats;
     db := db0; sent := [] |}.

(** [sync], from the fetched rows and the context the hook has filled. *)
Definition sync (context : Ctx) (supabaseData : list Item) (db0 : mongo) : sync_state :=
  let st0 := sync_start supabaseData db0 in
  match supabaseData with
  | [] => st0
  | _ =>
      let st := foldl (sync_item context) st0 supabaseData in
      match batch st with
      | [] => st
      | _ => call_batchUpsert st
      end
  end.

(** The document of a row, when it has a [ref_id] and its transform returns
    one. *)
Definition document_of (context : Ctx) (item : Item) : option document :=
  if lacks_ref_id (ref_id item) then None
  else match transformItem item context with
       | Document d => Some d
       | _ => None
       end.

(** A row that [sync] skips. *)
Definition is_skipped (context : Ctx) (item : Item) : bool :=
  lacks_ref_id (ref_id item) ||
  match transformItem item context with Falsy => true | _ => false end.

(** A row whose transform throws. *)
Definition is_thrown (context : Ctx) (item : Item) : bool :=
  negb (lacks_ref_id (ref_id item)) &&
  match transformItem item context with Thrown => true | _ => false end.

(** What holds of the loop of [sync] over [all_rows] when [rows] remain to
    be read: the documents of the rows are those sent, those in the current
    batch and those to come; the batches sent are the first chunks; the
    property [R] under study holds of the documents sent, the statistics and
    the collection; the current batch is not full. *)
Definition loop_inv (context : Ctx) (all_rows : list Item)
    (R : list document -> SyncStats -> mongo -> Prop)
    (rows : list Item) (st : sync_state) : Prop :=
  omap (document_of context) all_rows
    = concat (sent st) ++ batch st ++ omap (document_of context) rows /\
  chunks BATCH_SIZE (omap (document_of context) all_rows)
    = sent st ++ chunks_go BATCH_SIZE (batch st) (omap (document_of context) rows) /\
  R (concat (sent st)) (stats st) (db st) /\
  length (batch st) < BATCH_SIZE.

End Sync.

(** *** syncers/lesson.reverse-syncer.js *)
Module Lesson.

Record row : Type := {
  id : string;
  ref_id : option string;
  book_id : string;
  chapter_id : string;
  name : bson;
  question_range : bson;
  display_order : bson;
  common_parent_section_name : bson;
  parent_section_name : bson;
  toc_output_json : bson
}.

Record context : Type := {
  bookRefIds : gmap string string;
  chapterRefIds : gmap string string
}.

(** The loop of the hook over the rows [(id, ref_id)] of a table. *)
Definition load_ref_ids (rows : list (string * option string)) : gmap string string :=
  foldl (fun m r =>
           match r.2 with
           | Some (String c s) => <[r.1 := String c s]> m
           | _ => m
           end) ∅ rows.

Definition preSyncHook (books chapters : list (string * option string)) : context :=
  {| bookRefIds := load_ref_ids books; chapterRefIds := load_ref_ids chapters |}.

(** [refId ? toDBRef(collection, refId) : null] *)
Definition ref_or_null (collection : string) (refId : option string) : run bson :=
  match refId with
  | Some (String c s) => toDBRef collection (Some (String c s))
  | _ => Ret BNull
  end.

Definition transformItem (item : row) (ctx : context) : transformed :=
  let bookRefId := bookRefIds ctx !! book_id item in
  let chapterRefId := chapterRefIds ctx !! chapter_id item in
  match
    (oid ← toObjectId (ref_id item);
     book ← ref_or_null "book" bookRefId;
     chapter ← ref_or_null "chapter" chapterRefId;
     Ret {| _id := oid;
            fields := list_to_map
              [("name", name item);
               ("index", question_range item);
               ("order", display_order item);
               ("common_parent_section_name", common_parent_section_name item);
               ("parent_section_name", parent_section_name item);
               ("toc_output_json", toc_output_json item);
               ("toc_status", BStr "COMPLETED");
               ("type", BStr "EXAMPLE");
               ("book", book);
               ("chapter", chapter)]%string |})
  with
  | Ret d => Document d
  | _ => Thrown
  end.

Definition syncer (clock : nat -> Z) (faults : nat -> fault) : Syncer row context :=
  {| ReverseSync.ref_id := ref_id;
     ReverseSync.transformItem := transformItem;
     batchUpsert := lesson_batchUpsert clock faults |}.

End Lesson.

(** *** syncers/lesson-item.reverse-syncer.js *)
Module LessonItem.

Record row : Type := {
  id : string;
  ref_id : option string;
  lesson_id : string;
  problem_statement : bson;
  index : bson;
  question_label : bson;
  question_type : bson;
  question_solution_item_json : bson
}.

Record context : Type := {
  lessonRefIds : gmap string string
}.

Definition preSyncHook (lessons : list (string * option string)) : context :=
  {| lessonRefIds := Lesson.load_ref_ids lessons |}.

Definition transformItem (item : row) (ctx : context) : transformed :=
  match lessonRefIds ctx !! lesson_id item with
  | Some (String c s) =>
      match
        (oid ← toObjectId (ref_id item);
         exercise ← toDBRef "exercise" (Some (String c s));
         Ret {| _id := oid;
                fields := list_to_map
                  [("exercise", exercise);
                   ("question", problem_statement item);
                   ("index", index item);
                   ("display_order", question_label item);
                   ("question_label", question_label item);
                   ("question_type", question_type item);
                   ("question_solution_item_json",
                    question_solution_item_json item)]%string |})
      with
      | Ret d => Document d
      | _ => Thrown
      end
  | _ => Falsy
  end.

#[global] Instance syncer : Syncer row context :=
  {| ReverseSync.ref_id := ref_id;
     ReverseSync.transformItem := transformItem;
     batchUpsert := base_batchUpsert |}.

End LessonItem.

(** At most one document for each (order, chapter, type). *)
Definition secondary_unique (ds : gmap N (gmap string bson)) : Prop :=
  forall i j di dj,
    ds !! i = Some di -> ds !! j = Some dj ->
    unique_key di = unique_key dj -> i = j.

(** No two documents of a batch with different [_id] share a key. *)
Definition batch_distinct (b : list document) : Prop :=
  forall d1 d2, d1 ∈ b -> d2 ∈ b ->
    unique_key (fields d1) = unique_key (fields d2) -> _id d1 = _id d2.

(** The document sets the three fields of the key (possibly to null). *)
Definition has_key_fields (d : document) : Prop :=
  is_Some (fields d !! "order") /\ is_Some (fields d !! "chapter") /\
  is_Some (fields d !! "type").

(** The collection holds the document: its fields are there under its
    [_id]. *)
Definition holds (ds : gmap N (gmap string bson)) (doc : document) : Prop :=
  exists f, ds !! _id doc = Some f /\ fields doc ∪ f = f.


(** What an upsert leaves under [id] when it is applied. *)
Definition written (ds : gmap N (gmap string bson)) (id : N)
    (set setOnInsert : gmap string bson) : gmap string bson :=
  match ds !! id with
  | Some old => set ∪ old
  | None => set ∪ setOnInsert
  end.


(** *** Sample data *)

Definition sample_lesson (ref : string) (title : string) (order : Z) : Lesson.row :=
  {| Lesson.id := title; Lesson.ref_id := Some ref;
     Lesson.book_id := "book-1"; Lesson.chapter_id := "chapter-1";
     Lesson.name := BStr title; Lesson.question_range := BStr "1-10";
     Lesson.display_order := BNum order;
     Lesson.common_parent_section_name := BNull;
     Lesson.parent_section_name := BNull;
     Lesson.toc_output_json := BNull |}.

Definition sample_lesson_context : Lesson.context :=
  Lesson.preSyncHook [("book-1", Some "bbbbbbbbbbbbbbbbbbbbbbbb")]
                     [("chapter-1", Some "cccccccccccccccccccccccc")]%string.

Definition empty_collection (unique : bool) : mongo :=
  {| docs := ∅; unique_index := unique; clock_reads := 0 |}.

(** A clock that advances by a second between two readings. *)
Definition sample_clock (k : nat) : Z := 1700000000000 + 1000 * Z.of_nat k.

(** A store in which nothing goes wrong; one whose bulk writes of deletes
    throw before any delete is carried out; one whose [countDocuments]
    throws. *)
Definition no_faults : nat -> fault := fun _ => no_fault.

Definition deletes_fail : nat -> fault :=
  fun _ => {| delete_throws := Some []; count_throws := false |}.

Definition counts_fail : nat -> fault :=
  fun _ => {| delete_throws := None; count_throws := true |}.


(** A lesson that was synced into an empty collection, and the collection
    that sync left. The lesson has since been replaced in the source by
    another row of the same order and chapter. *)
Definition replaced_lesson : Lesson.row :=
  sample_lesson "aaaaaaaaaaaaaaaaaaaaaaa0" "Old" 1.

Definition collection_with_replaced_lesson : mongo :=
  db (sync (Syncer0 := Lesson.syncer sample_clock no_faults) sample_lesson_context
        [replaced_lesson] (empty_collection false)).

(** The identifiers of the documents of the sample lessons. *)
Definition replaced_id : N := 0xaaaaaaaaaaaaaaaaaaaaaaa0.
Definition lesson_1_id : N := 0xaaaaaaaaaaaaaaaaaaaaaaa1.
Definition lesson_2_id : N := 0xaaaaaaaaaaaaaaaaaaaaaaa2.

(** The document of a sample lesson. *)
Definition sample_document (item : Lesson.row) : document :=
  match Lesson.transformItem item sample_lesson_context with
  | Document d => d
  | _ => {| _id := 0; fields := ∅ |}
  end.

(** The lesson that replaces it, synced into that collection. *)
Definition replacing_run (faults : nat -> fault) : sync_state :=
  sync (Syncer0 := Lesson.syncer sample_clock faults) sample_lesson_context
    [sample_lesson "aaaaaaaaaaaaaaaaaaaaaaa1" "A" 1] collection_with_replaced_lesson.

(** Two lessons of the same order and chapter, synced in one run into an
    empty collection that does not enforce the index. *)
Definition colliding_lessons : list Lesson.row :=
  [sample_lesson "aaaaaaaaaaaaaaaaaaaaaaa1" "A" 1;
   sample_lesson "aaaaaaaaaaaaaaaaaaaaaaa2" "B" 1].

Definition colliding_run : sync_state :=
  sync (Syncer0 := Lesson.syncer sample_clock no_faults) sample_lesson_context
    colliding_lessons (empty_collection false).


Definition sample_item (ref : option string) (lesson : string) : LessonItem.row :=
  {| LessonItem.id := "item"; LessonItem.ref_id := ref;
     LessonItem.lesson_id := lesson;
     LessonItem.problem_statement := BStr "2+2=?";
     LessonItem.index := BStr "1";
     LessonItem.question_label := BStr "1";
     LessonItem.question_type := BNull;
     LessonItem.question_solution_item_json := BJson "{}" |}.

Definition sample_item_context : LessonItem.context :=
  LessonItem.preSyncHook [("lesson-1", Some "aaaaaaaaaaaaaaaaaaaaaaaa")]%string.


End ReverseSync.

(** ** Where a backslash stands in the text, as the repairer reads it *)
Module EscapeCheck.
Import JS Repairer.

(** The reader is outside a string literal, inside one, or inside one just
    after a backslash. *)
Inductive position : Type := Outside | Inside | Escaped.

(** Every backslash read inside a string literal is followed by one of the
    characters of [valid_escape_chars], or ends the text. *)
Fixpoint escapes_valid (p : position) (s : str) : bool :=
  match s with
  | [] => true
  | c :: rest =>
      match p with
      | Outside =>
          escapes_valid (if Ascii.eqb c dquote then Inside else Outside) rest
      | Inside =>
          if Ascii.eqb c backslash then escapes_valid Escaped rest
          else escapes_valid (if Ascii.eqb c dquote then Outside else Inside) rest
      | Escaped => is_valid_escape c && escapes_valid Inside rest
      end
  end.

Definition position_of (inString : bool) : position :=
  if inString then Inside else Outside.

End EscapeCheck.

(** ** BaseReverseSyncer.fetchSupabaseData *)
Module Pagination.
Import JS.

Definition PAGE_SIZE : nat := 1000.

(** What one request [.range(from, to)] resolves to: the [data] (possibly
    null) with a null [error], or an error. *)
Inductive response (Item : Type) : Type :=
  | Data (data : option (list Item))
  | Error.
Arguments Data {Item} data.
Arguments Error {Item}.

Section Fetch.
Context {Item : Type}.

(** The answer of the service to [.range(from, to)]. *)
Variable range : nat -> nat -> response Item.

(** The [while (hasMore)] loop, entered with [hasMore] true; every turn
    takes one unit of fuel. The second component of the result counts the
    requests made (it is not in the source). *)
Fixpoint fetch_loop (fuel : nat) (page : nat) (allData : list Item)
  : run (list Item * nat) :=
  match fuel with
  | O => OutOfFuel
  | S f =>
      let from := page * PAGE_SIZE in
      let to := from + PAGE_SIZE - 1 in
      match range from to with
      | Error => Throw
      | Data (Some (row :: rows)) =>
          let data := row :: rows in
          if Nat.eqb (length data) PAGE_SIZE
          then fetch_loop f (page + 1) (allData ++ data)
          else Ret (allData ++ data, page + 1)
      | Data _ => Ret (allData, page + 1)
      end
  end.

Definition fetchSupabaseData (fuel : nat) : run (list Item * nat) :=
  fetch_loop fuel 0 [].

End Fetch.

(** A service that serves the pages of an unchanging table in a fixed
    order: the rows at offsets [from] to [to], both included. *)
Definition range_of {Item} (table : list Item) (from to : nat) : response Item :=
  Data (Some (take (to + 1 - from) (drop from table))).

(** A service whose first page is full and whose second request fails. *)
Definition failing_second_page (from to : nat) : response nat :=
  if Nat.eqb from 0 then Data (Some (seq 0 PAGE_SIZE)) else Error.

End Pagination.

(** ** The counters of a run of [sync] *)
Module SyncCounters.
Import JS ReverseSync.

(** What a [batchUpsert] on [b] may do to the counters: it leaves [total]
    and [skipped], does not lower [errors], and adds at most one to
    [inserted], [updated] or [errors] for each document of [b]. *)
Definition counts_batch (b : list document) (s s' : SyncStats) : Prop :=
  total s' = total s /\ skipped s' = skipped s /\ errors s <= errors s' /\
  inserted s' + updated s' + errors s'
  <= inserted s + updated s + errors s + length b.

Section Counted.
Context {Item Ctx : Type} `{!Syncer Item Ctx}.
Variable context : Ctx.

(** What holds of the counters once the rows [pre] have been read. *)
Definition counted (n : nat) (pre : list Item) (st : sync_state) : Prop :=
  total (stats st) = n /\
  skipped (stats st) = length (List.filter (is_skipped context) pre) /\
  length (List.filter (is_thrown context) pre) <= errors (stats st) /\
  inserted (stats st) + updated (stats st) + errors (stats st)
  <= length (List.filter (is_thrown context) pre) + length (concat (sent st)) /\
  concat (sent st) ++ batch st = omap (document_of context) pre.

End Counted.
End SyncCounters.

(** ** Code that changes a state and may throw *)
Module IO.
Import JS.

(** A computation over a state [W]: its outcome and the state it leaves,
    also when it throws. *)
Definition io (W A : Type) : Type := W -> run A * W.

Definition io_ret {W A} (a : A) : io W A := fun w => (Ret a, w).

Definition io_throw {W A} : io W A := fun w => (Throw, w).

Definition io_bind {W A B} (m : io W A) (k : A -> io W B) : io W B :=
  fun w =>
    match m w with
    | (Ret a, w') => k a w'
    | (Throw, w') => (Throw, w')
    | (OutOfFuel, w') => (OutOfFuel, w')
    end.

#[global] Instance io_mbind W : MBind (io W) := fun A B k m => io_bind m k.
#[global] Instance io_mret W : MRet (io W) := fun A a => io_ret a.

(** [try { m } finally { f }]: [f] runs whether [m] returns or throws, and
    an exception of [f] replaces the outcome of [m]. *)
Definition try_finally {W A} (m : io W A) (f : io W unit) : io W A :=
  fun w =>
    match m w with
    | (OutOfFuel, w') => (OutOfFuel, w')
    | (r, w') =>
        match f w' with
        | (Ret _, w'') => (r, w'')
        | (Throw, w'') => (Throw, w'')
        | (OutOfFuel, w'') => (OutOfFuel, w'')
        end
    end.

End IO.

(** ** config/mongoConnection.js and reverse-sync/index.js *)
Module Connection.
Import JS IO ReverseSync.

(** The calls made to mongoose and to the two syncers (they are not in the
    source: they record the run). *)
Inductive call : Type :=
  | MongooseConnect
  | MongooseDisconnect
  | SyncLessons
  | SyncLessonItems.

(** The module-level [isConnected], and the calls so far. *)
Record process : Type := {
  isConnected : bool;
  calls : list call
}.

Definition record_call (c : call) (connected : bool) (p : process) : process :=
  {| isConnected := connected; calls := calls p ++ [c] |}.


Section Outcomes.

(** [config.mongodb.uri] is set. *)
Variable uri_set : bool.

(** [mongoose.connect] and [mongoose.disconnect] resolve (rather than
    reject). *)
Variable connect_ok disconnect_ok : bool.

(** What [sync] of each syncer does when it is called: return its statistics
    or ([None]) throw. *)
Variable lessons_sync lessonItems_sync : option SyncStats.

Definition connectToMongoDB : io process unit :=
  fun p =>
    if isConnected p then (Ret tt, p)
    else if negb uri_set then (Throw, p)
    else if connect_ok then (Ret tt, record_call MongooseConnect true p)
    else (Throw, record_call MongooseConnect false p).

Definition disconnectFromMongoDB : io process unit :=
  fun p =>
    if negb (isConnected p) then (Ret tt, p)
    else if disconnect_ok then (Ret tt, record_call MongooseDisconnect false p)
    else (Throw, record_call MongooseDisconnect true p).

Definition call_syncer (c : call) (outcome : option SyncStats) : io process SyncStats :=
  fun p => (match outcome with Some s => Ret s | None => Throw end,
            record_call c (isConnected p) p).


Definition syncLessons : io process SyncStats :=
  try_finally
    (_ ← connectToMongoDB; call_syncer SyncLessons lessons_sync)
    disconnectFromMongoDB.

Definition syncLessonItems : io process SyncStats :=
  try_finally
    (_ ← connectToMongoDB; call_syncer SyncLessonItems lessonItems_sync)
    disconnectFromMongoDB.

End Outcomes.
End Connection.

(** ** questionExtractionService: waiting for LlamaParse *)
Module LlamaParse.
Import JS.

(** Why a call rejects. *)
Inductive failure : Type :=
  | Rejected                            (* fetch or the reading of the body rejects *)
  | StatusCheckFailed (status : nat)    (* Failed to check job status: status *)
  | ProcessingFailed (message : jsval)  (* statusData.error, or the default text *)
  | TimedOut                            (* LlamaParse extraction timed out *)
  | ResultFailed (status : nat).        (* Failed to get result: status *)

Inductive outcome (A : Type) : Type :=
  | Resolved (a : A)
  | Failed (f : failure).
Arguments Resolved {A} a.
Arguments Failed {A} f.

(** The answer to a request: no answer that can be read, an answer whose
    [ok] is false, or the parsed body. *)
Inductive response : Type :=
  | NoAnswer
  | NotOk (status : nat)
  | Body (json : jsval).

Definition is_text (s : string) (v : jsval) : bool :=
  match v with
  | JStr t => bool_decide (t = chars s)
  | _ => false
  end.

Section Service.

(** The answer to the k-th request for the status of the job, and to the
    request for its result. *)
Variable status_at : nat -> response.
Variable result_response : response.

(** [JSON.stringify] *)
Variable JSON_stringify : jsval -> jsval.

(** [getResult] *)
Definition getResult : outcome jsval :=
  match result_response with
  | NoAnswer => Failed Rejected
  | NotOk status => Failed (ResultFailed status)
  | Body result =>
      match getProp result "markdown", getProp result "text" with
      | Ret markdown, Ret text =>
          Resolved (or_else markdown (or_else text (JSON_stringify result)))
      | _, _ => Failed Rejected
      end
  end.

(** What one answer to a status request decides: [None] when the loop goes
    on to wait and ask again. *)
Definition decided (r : response) : option (outcome jsval) :=
  match r with
  | NoAnswer => Some (Failed Rejected)
  | NotOk status => Some (Failed (StatusCheckFailed status))
  | Body statusData =>
      match getProp statusData "status", getProp statusData "error" with
      | Ret status, Ret error =>
          if is_text "SUCCESS" status then Some getResult
          else if is_text "ERROR" status
          then Some (Failed (ProcessingFailed
                               (or_else error (JStr (chars "LlamaParse processing failed")))))
          else None
      | _, _ => Some (Failed Rejected)
      end
  end.

(** The [for] loop of [pollForCompletion] with [remaining] turns left, at
    [attempt]. The second component of the result counts the status requests
    made (it is not in the source). *)
Fixpoint poll (remaining attempt : nat) : outcome jsval * nat :=
  match remaining with
  | O => (Failed TimedOut, attempt)
  | S r =>
      match decided (status_at attempt) with
      | Some o => (o, S attempt)
      | None => poll r (S attempt)
      end
  end.

Definition pollForCompletion (maxAttempts : nat) : outcome jsval * nat :=
  poll maxAttempts 0.

End Service.

(** A job that is reported as pending twice and then as done. *)
Definition done_at_third (k : nat) : response :=
  Body (JObj [("status"%string,
               JStr (chars (if Nat.ltb k 2 then "PENDING" else "SUCCESS")))]).

Definition markdown_result : response :=
  Body (JObj [("markdown"%string, JStr (chars "1. What is 2+2?"))]).

End LlamaParse.

(** ** questionExtractionService.combineLatexContent *)
Module LatexSources.
Import JS.

(** A row of [scanned_items] as selected: its id and its [latex_doc], null
    or a text. *)
Record scanned_item : Type := {
  item_id : string;
  latex_doc : option str
}.

Definition newline : ascii := ascii_of_nat 10.

(** [new Map(items.map((item) => [item.id, item.latex_doc]))]: a later
    entry with the same id replaces the earlier one. *)
Definition itemMap (items : list scanned_item) : gmap string (option str) :=
  foldl (fun m item => <[item_id item := latex_doc item]> m) ∅ items.

(** The callback of [itemIds.map]. *)
Definition combined_part (m : gmap string (option str)) (index : nat) (id : string)
  : str :=
  let latex := match m !! id with Some (Some doc) => doc | _ => [] end in
  chars "% ========== Document " ++ numberToString (Z.of_nat (index + 1))
  ++ chars " ==========" ++ [newline; newline] ++ latex.

(** [combineLatexContent], from what the query for the items resolves to:
    [None] when it has an error (or no data), which throws. *)
Definition combineLatexContent (fetched : option (list scanned_item))
    (itemIds : list string) : run str :=
  match fetched with
  | None => Throw
  | Some items =>
      Ret (join [newline; newline] (imap (combined_part (itemMap items)) itemIds))
  end.

(** Two scanned pages. *)
Definition page_one : scanned_item :=
  {| item_id := "p1"; latex_doc := Some (chars "1. What is 2+2?") |}.
Definition page_two : scanned_item :=
  {| item_id := "p2"; latex_doc := Some (chars "2. What is 3+3?") |}.

End LatexSources.

(** ** questionExtractionService.extractWithGemini: the chunks sent and the
    cleaning of the answers *)
Module Gemini.
Import JS Extractor.

Definition MAX_CONTENT_LENGTH : N := 900000.

(** [s.length > MAX_CONTENT_LENGTH] *)
Definition too_long (s : str) : bool :=
  (MAX_CONTENT_LENGTH <? N.of_nat (length s))%N.

(** The loop [for (const part of documentParts)] over [chunks] and
    [currentChunk]. *)
Fixpoint pack (documentParts chunks : list str) (currentChunk : str)
  : list str * str :=
  match documentParts with
  | [] => (chunks, currentChunk)
  | part :: rest =>
      if too_long (currentChunk ++ part) && (0 <? length currentChunk)
      then pack rest (chunks ++ [currentChunk]) part
      else pack rest chunks (currentChunk ++ part)
  end.

Section Split.

(** [content.split(regex)] for the expression that matches the header lines
    [% ========== Document N ==========]. *)
Variable split_documents : str -> list str.

(** The chunks that are sent, one request each. *)
Definition content_chunks (content : str) : list str :=
  if too_long content then
    let '(chunks, currentChunk) := pack (split_documents content) [] [] in
    if 0 <? length currentChunk then chunks ++ [currentChunk] else chunks
  else [content].

End Split.

Definition fence : str := chars "```".
Definition json_fence : str := chars "```json".

(** [s.endsWith(p)] *)
Definition ends_with (p s : str) : bool := starts_with (rev p) (rev s).

(** The cleaning of the text of an answer before it is parsed. *)
Definition strip_fences (generatedText : str) : str :=
  let cleanedText := trim generatedText in
  let cleanedText :=
    if starts_with json_fence cleanedText then drop 7 cleanedText
    else if starts_with fence cleanedText then drop 3 cleanedText
    else cleanedText in
  let cleanedText :=
    if ends_with fence cleanedText then take (length cleanedText - 3) cleanedText
    else cleanedText in
  trim cleanedText.

End Gemini.

(** ** lessonsService.create: the lessons and lesson items written *)
Module LessonCreation.
Import JS IO Extractor.

(** A merged item. An absent property is [JUndefined]. The model covers the
    items whose [choices] is an array (the merge makes an absent one the
    empty array); its elements are any values. *)
Record item : Type := {
  question_label : jsval;
  text : jsval;
  choices : list jsval;
  answer_key : jsval;
  worked_solution : jsval;
  explanation : jsval
}.

Definition newline : ascii := ascii_of_nat 10.

(** [String(n)] of an array index or a count. *)
Definition decimal_of (n : nat) : str := numberToString (Z.of_nat n).

(** [array.join(sep)] *)
Definition join_values (sep : str) (l : list jsval) : str :=
  join sep (map (fun x => match x with
                          | JUndefined | JNull => []
                          | _ => toString x
                          end) l).

(** The two separators, as the string literals of the source denote them: a
    LaTeX line break between the text and the choices, a LaTeX space between
    two choices. *)
Definition line_break : str := chars " $\\$ ".
Definition choice_space : str := chars " $\hspace{2em}$".

(** [problemStatement] of [createSingleLesson] and of [updateLessonItem]. *)
Definition problemStatement (it : item) : jsval :=
  let t := or_else (text it) (JStr []) in
  match choices it with
  | [] => t
  | _ => JStr (toString t ++ line_break ++ join_values choice_space (choices it))
  end.

(** [solutionContext] of [createSingleLesson] and of [updateLessonItem]. *)
Definition solutionContext (it : item) : str :=
  let answer :=
    if truthy (answer_key it) then chars "Answer: " ++ toString (answer_key it)
    else [] in
  if truthy (worked_solution it)
  then answer ++ (match answer with [] => [] | _ => [newline; newline] end)
       ++ toString (worked_solution it)
  else answer.

(** *** The labels of the choices *)

(** [[a-zA-Z]] *)
Definition is_letter (c : ascii) : bool :=
  let n := nat_of_ascii c in
  ((65 <=? n) && (n <=? 90)) || ((97 <=? n) && (n <=? 122)).

(** The five expressions of [extractChoiceLabel] and [cleanChoiceText], in
    their order: what stands before and after the letter. All are anchored at
    the start and end with any white space. *)
Definition label_patterns : list (str * str) :=
  [(chars "$(", chars ")$"); (chars "(", chars ")"); (chars "$", chars "$");
   ([], chars "."); ([], chars ")")].

(** The match of one expression at the head of [s], up to the white space:
    the letter, and the text after the label. *)
Definition match_label (p : str * str) (s : str) : option (ascii * str) :=
  match strip_prefix p.1 s with
  | Some (c :: s2) =>
      if is_letter c
      then match strip_prefix p.2 s2 with
           | Some s3 => Some (c, s3)
           | None => None
           end
      else None
  | _ => None
  end.

(** A label: a letter of a choice, or the one-character string
    [String.fromCharCode(code)]. *)
Inductive choice_label : Type :=
  | Letter (c : ascii)
  | CodeUnit (code : N).

(** [extractChoiceLabel] *)
Fixpoint first_label (patterns : list (str * str)) (choiceText : str)
  : option ascii :=
  match patterns with
  | [] => None
  | p :: rest =>
      match match_label p choiceText with
      | Some (c, _) => Some (toLowerChar c)
      | None => first_label rest choiceText
      end
  end.

Definition extractChoiceLabel (choiceText : str) (fallbackIndex : nat) : choice_label :=
  match first_label label_patterns choiceText with
  | Some c => Letter c
  | None => CodeUnit ((97 + N.of_nat fallbackIndex) mod 65536)
  end.

(** One [replace] of [cleanChoiceText]. *)
Definition strip_label (s : str) (p : str * str) : str :=
  match match_label p s with
  | Some (_, rest) => trimStart rest
  | None => s
  end.

(** [cleanChoiceText] *)
Definition cleanChoiceText (choiceText : str) : str :=
  trim (foldl strip_label choiceText label_patterns).

(** *** toc_output_json *)

Record toc_choice : Type := {
  choice_id : str;
  choice_question : str;
  choice_question_label : choice_label
}.

(** An entry of [toc_question_items]; [toc_choices] is [None] when the entry
    has [sub_questions: []] instead of [choices]. *)
Record toc_item : Type := {
  toc_id : str;
  toc_question : jsval;
  toc_question_label : str;
  toc_choices : option (list toc_choice)
}.

(** The callback of [item.choices.map]; a choice that is not a string has
    no [replace] method, and the call throws. *)
Definition toc_choice_of (questionId : str) (choiceIndex : nat) (choice : jsval)
  : run toc_choice :=
  match choice with
  | JStr choiceText =>
      Ret {| choice_id := questionId ++ chars "." ++ decimal_of (choiceIndex + 1);
             choice_question := cleanChoiceText choiceText;
             choice_question_label := extractChoiceLabel choiceText choiceIndex |}
  | _ => Throw
  end.

(** [array.map(f)] for a callback that may throw. *)
Fixpoint map_run {A B} (f : nat -> A -> run B) (index : nat) (l : list A)
  : run (list B) :=
  match l with
  | [] => Ret []
  | x :: rest =>
      y ← f index x;
      ys ← map_run f (S index) rest;
      Ret (y :: ys)
  end.

(** The callback of [lessonItems.map] that builds [tocQuestionItems]. *)
Definition toc_item_of (index : nat) (it : item) : run toc_item :=
  let questionId := decimal_of (index + 1) in
  choices' ← (match choices it with
              | [] => Ret None
              | cs => cs' ← map_run (toc_choice_of questionId) 0 cs; Ret (Some cs')
              end);
  Ret {| toc_id := questionId;
         toc_question := or_else (text it) (JStr []);
         toc_question_label := toString (or_else (question_label it) (JStr questionId));
         toc_choices := choices' |}.

Definition tocQuestionItems (lessonItems : list item) : run (list toc_item) :=
  map_run toc_item_of 0 lessonItems.

(** *** The two tables *)

(** The columns of a lesson that [create] copies from its arguments and
    from the question set. *)
Record lesson_source : Type := {
  common_parent_section_name : jsval;
  book_id : string;
  chapter_id : string;
  question_set_id : string;
  solution_set_id : string
}.

Record lesson_row : Type := {
  lesson_name : str;
  lesson_columns : lesson_source;
  toc_question_items : list toc_item
}.

Record item_row : Type := {
  lesson_id : nat;
  row_question_label : jsval;
  problem_statement : jsval;
  solution_context : str;
  question_solution_item_json : item;
  position : nat;
  ref_id : str
}.

(** The tables [lessons] and [lesson_items] (the id of a lesson is its rank
    in the table), the counter of utils/mongoId.js and the number of calls of
    [generateMongoId] so far. *)
Record world : Type := {
  lessons : list lesson_row;
  lesson_items : list item_row;
  counter : N;
  id_calls : nat
}.

(** What [create] resolves to: the lessons with these ids, fetched again
    with [findById]. *)
Inductive created : Type :=
  | OneLesson (id : nat)
  | Lessons (ids : list nat).

Section Create.

(** What the k-th call of [generateMongoId] reads from the clock and draws. *)
Variable clock : nat -> Z.
Variable draws : nat -> nat -> Byte.byte.

(** Whether the database accepts an insert, given the table. *)
Variable accepts_lesson : list lesson_row -> lesson_row -> bool.
Variable accepts_items : list item_row -> list item_row -> bool.

Definition generateMongoId : io world str :=
  fun w =>
    let '(id, counter') :=
      MongoId.generateMongoId (clock (id_calls w)) (draws (id_calls w)) (counter w) in
    (Ret id, {| lessons := lessons w; lesson_items := lesson_items w;
                counter := counter'; id_calls := S (id_calls w) |}).

(** [supabase.from('lessons').insert(row).select().single()]: the id of the
    new lesson. *)
Definition insert_lesson (row : lesson_row) : io world nat :=
  fun w =>
    if accepts_lesson (lessons w) row
    then (Ret (length (lessons w)),
          {| lessons := lessons w ++ [row]; lesson_items := lesson_items w;
             counter := counter w; id_calls := id_calls w |})
    else (Throw, w).

(** [supabase.from('lesson_items').insert(rows)] *)
Definition insert_items (rows : list item_row) : io world unit :=
  fun w =>
    if accepts_items (lesson_items w) rows
    then (Ret tt,
          {| lessons := lessons w; lesson_items := lesson_items w ++ rows;
             counter := counter w; id_calls := id_calls w |})
    else (Throw, w).

(** [lessonItems.map((item, index) => ...)] that builds
    [lessonItemRecords]. *)
Fixpoint lessonItemRecords (lessonId index : nat) (lessonItems : list item)
  : io world (list item_row) :=
  match lessonItems with
  | [] => mret []
  | it :: rest =>
      ref ← generateMongoId;
      records ← lessonItemRecords lessonId (S index) rest;
      mret ({| lesson_id := lessonId;
               row_question_label := question_label it;
               problem_statement := problemStatement it;
               solution_context := solutionContext it;
               question_solution_item_json := it;
               position := index;
               ref_id := ref |} :: records)
  end.

Variable columns : lesson_source.

Definition createSingleLesson (lessonName : str) (lessonItems : list item)
  : io world nat :=
  tocQuestionItems' ← (fun w => (tocQuestionItems lessonItems, w));
  lessonId ← insert_lesson {| lesson_name := lessonName; lesson_columns := columns;
                              toc_question_items := tocQuestionItems' |};
  lessonItemRecords' ← lessonItemRecords lessonId 0 lessonItems;
  _ ← (match lessonItemRecords' with
       | [] => mret tt
       | _ => insert_items lessonItemRecords'
       end);
  mret lessonId.

(** The name of the lesson made of the items from [i] on. *)
Definition lessonNameWithRange (name : str) (i count totalItems : nat) : str :=
  name ++ chars " " ++ decimal_of (i + 1) ++ chars "-"
  ++ decimal_of (Nat.min (i + count) totalItems).

(** [for (let i = 0; i < totalItems; i += lesson_item_count)]; every turn
    takes one unit of fuel. *)
Fixpoint chunk_loop (fuel : nat) (name : str) (count : nat) (mergedItems : list item)
    (i : nat) (createdLessonIds : list nat) : io world (list nat) :=
  match fuel with
  | O => fun w => (OutOfFuel, w)
  | S f =>
      if i <? length mergedItems then
        let chunkItems := take count (drop i mergedItems) in
        lessonId ← createSingleLesson
                     (lessonNameWithRange name i count (length mergedItems)) chunkItems;
        chunk_loop f name count mergedItems (i + count) (createdLessonIds ++ [lessonId])
      else mret createdLessonIds
  end.

(** [create], from [mergedItems] on. [lesson_item_count] is absent or an
    integer. *)
Definition create (name : str) (lesson_item_count : option Z)
    (mergedItems : list item) : io world created :=
  match lesson_item_count with
  | Some count =>
      if (0 <? count)%Z
      then ids ← chunk_loop (S (length mergedItems)) name (Z.to_nat count)
                   mergedItems 0 [];
           mret (Lessons ids)
      else lessonId ← createSingleLesson name mergedItems; mret (OneLesson lessonId)
  | None => lessonId ← createSingleLesson name mergedItems; mret (OneLesson lessonId)
  end.

End Create.

(** *** Notions used to state the properties of [create] *)

Section Ids.
Variable clock : nat -> Z.
Variable draws : nat -> nat -> Byte.byte.

(** The identifier that the j-th call of [generateMongoId] after the state
    [w] returns. *)
Definition id_after (w : world) (j : nat) : str :=
  MongoId.timestamp_part (clock (id_calls w + j))
  ++ MongoId.random_part (draws (id_calls w + j))
  ++ MongoId.count_part ((counter w + N.of_nat j + 1) mod MongoId.counter_modulus)%N.

(** From [w] to [w'], at most [budget] identifiers were generated, and the
    rows added to [lesson_items] carry some of them, in the order of their
    generation. *)
Definition advances (budget : nat) (w w' : world) : Prop :=
  exists j new,
    j <= budget /\
    id_calls w' = id_calls w + j /\
    (counter w' mod MongoId.counter_modulus
     = (counter w + N.of_nat j) mod MongoId.counter_modulus)%N /\
    lesson_items w' = lesson_items w ++ new /\
    sublist (map ref_id new) (map (id_after w) (seq 0 j)).
End Ids.

(** The number of lessons made of [n] items, [count] at a time. *)
Definition chunk_count (n count : nat) : nat := (n + count - 1) / count.

Definition is_string (v : jsval) : bool :=
  match v with JStr _ => true | _ => false end.

(** What identifies a row for the merge: its lesson, its position and the
    item it stores. *)
Definition placed (r : item_row) : nat * nat * item :=
  (lesson_id r, position r, question_solution_item_json r).

(** A database that accepts every insert. *)
Definition accepting {A B} : A -> B -> bool := fun _ _ => true.

(** *** Sample data *)

Definition sample_item (label : string) (cs : list string) : item :=
  {| question_label := JStr (chars label); text := JStr (chars "2+2=?");
     choices := map (fun c => JStr (chars c)) cs;
     answer_key := JUndefined; worked_solution := JUndefined;
     explanation := JUndefined |}.

Definition three_items : list item :=
  [sample_item "1" ["(a) 3"; "(b) 4"]%string; sample_item "2" []; sample_item "3" []].

Definition empty_world : world :=
  {| lessons := []; lesson_items := []; counter := 41; id_calls := 0 |}.

Definition sample_columns : lesson_source :=
  {| common_parent_section_name := JUndefined; book_id := "book-1";
     chapter_id := "chapter-1"; question_set_id := "qs-1"; solution_set_id := "ss-1" |}.

(** A clock that advances by a millisecond between two calls, and draws
    that are all the same byte. *)
Definition sample_clock (k : nat) : Z := 1700000000000 + Z.of_nat k.
Definition sample_draws (k j : nat) : Byte.byte := Byte.x3c.

End LessonCreation.

(** ** Importing questions: ImportQuestionsModal.jsx and the import route *)
Module ImportQuestions.
Import JS Repairer.

(** What [validateJson] leaves in the state of the dialog: nothing to
    validate, an error message, or [isValidJson] with [parsedCount]. *)
Inductive validation : Type :=
  | Blank
  | Invalid
  | Valid (parsedCount : nat).

(** The answers of the import route: a 400 with its message, or the call of
    the service with the parsed questions (whose result it sends back). *)
Inductive bad_request : Type :=
  | QuestionsRequired       (* questions field is required *)
  | InvalidJson             (* Invalid JSON format for questions *)
  | NoQuestionsArray.       (* questions must have a questions array property *)

Inductive import_response : Type :=
  | BadRequest (error : bad_request)
  | CallsService (questions : jsval).

Section Parse.

(** [JSON.parse]; [None]: it throws a SyntaxError. *)
Variable JSON_parse : str -> option jsval.

(** [try { JSON.parse(text) } catch { JSON.parse(fixInvalidEscapeSequences(text)) }],
    in [validateJson] and in [handleSubmit]; the component has its own copy
    of the repairer, with the same text. *)
Definition parse_with_repair (text : str) : run jsval :=
  match JSON_parse text with
  | Some parsed => Ret parsed
  | None =>
      fixedText ← fixInvalidEscapeSequences text;
      match JSON_parse fixedText with
      | Some parsed => Ret parsed
      | None => Throw
      end
  end.

(** [validateJson]; the access to [parsed.questions] is outside its [try]. *)
Definition validateJson (text : str) : run validation :=
  match trim text with
  | [] => Ret Blank
  | _ =>
      match parse_with_repair text with
      | Throw => Ret Invalid
      | OutOfFuel => OutOfFuel
      | Ret parsed =>
          questions ← getProp parsed "questions";
          match questions, parsed with
          | JArr qs, _ => Ret (Valid (length qs))
          | _, JArr items => Ret (Valid (length items))
          | _, _ => Ret Invalid
          end
      end
  end.

(** [handleSubmit]: the [questions] of the object handed to [onImport], if
    it is called. *)
Definition handleSubmit (state : validation) (jsonInput : str) : run (option jsval) :=
  match state with
  | Valid _ =>
      match parse_with_repair jsonInput with
      | Ret (JArr items) => Ret (Some (JObj [("questions"%string, JArr items)]))
      | Ret questions => Ret (Some questions)
      | Throw => Ret None
      | OutOfFuel => OutOfFuel
      end
  | _ => Ret None
  end.

(** The handler of [POST /import], on [req.body.questions]. It throws (and
    the request fails) when the parsed value is null. *)
Definition import_route (questions : jsval) : run import_response :=
  if negb (truthy questions) then Ret (BadRequest QuestionsRequired)
  else
    match (match questions with JStr s => JSON_parse s | _ => Some questions end) with
    | None => Ret (BadRequest InvalidJson)
    | Some parsedQuestions =>
        qs ← getProp parsedQuestions "questions";
        match qs with
        | JArr _ => Ret (CallsService parsedQuestions)
        | _ => Ret (BadRequest NoQuestionsArray)
        end
    end.

End Parse.

(** A text that is an array of one question, and its parse. *)
Definition array_text : str :=
  chars "[{" ++ Extractor.quoted "text" ++ chars ":" ++ Extractor.quoted "2+2=?"
  ++ chars "}]".

Definition array_parse : str -> option jsval :=
  Extractor.parse_table
    [(array_text, JArr [JObj [("text"%string, JStr (chars "2+2=?"))]]);
     (chars "null", JNull)].

End ImportQuestions.

(** ** The folder of a lesson (routes/lessons.js, create-folders) *)
Module Folders.
Import JS.

(** The characters of the class that the route replaces. *)
Definition forbidden : str := chars "<>:" ++ [dquote] ++ chars "/\|?*".

(** [lesson.name.replace(regex, '_').trim()] *)
Definition sanitizedLessonName (name : str) : str :=
  trim (map (fun c => if bool_decide (c ∈ forbidden) then "_"%char else c) name).

End Folders.

(** ** stores/authStore.js: [initialize] and its retries *)
Module AuthStore.
Import JS.

Section Store.
Context {User Token : Type}.

Record state : Type := {
  user : option User;
  token : option Token;
  isInitialized : bool;
  isInitializing : bool;
  initializationAttempts : nat
}.

(** What [api.get('/auth/me')] does: it resolves with the user, or rejects
    with an [ApiError] whose [statusCode] is the status of the answer, or
    null when there was no answer. *)
Inductive answer : Type :=
  | Resolves (data : User)
  | Rejects (statusCode : option nat).

(** [error.isAuthError || error.statusCode === 401 || error.statusCode === 403] *)
Definition isAuthError (statusCode : option nat) : bool :=
  match statusCode with
  | Some s => Nat.eqb s 401 || Nat.eqb s 403
  | None => false
  end.

(** [Math.min(1000 * Math.pow(2, retryCount), 5000)] *)
Definition delay (retryCount : nat) : nat := Nat.min (1000 * 2 ^ retryCount) 5000.

(** The answer to the k-th request. *)
Variable answers : nat -> answer.

(** [initialize(retryCount)] followed by the calls its timers make, nothing
    else touching the store in between. [requests] counts the requests made
    and [delays] lists the delays of the timers set (they are not in the
    source). Every call takes one unit of fuel. *)
Fixpoint initialize (fuel : nat) (retryCount : nat) (requests : nat)
    (delays : list nat) (st : state) : run (state * nat * list nat) :=
  match fuel with
  | O => OutOfFuel
  | S f =>
      if isInitializing st then Ret (st, requests, delays)
      else if isInitialized st && Nat.eqb retryCount 0 then Ret (st, requests, delays)
      else
        match token st with
        | None =>
            Ret ({| user := user st; token := token st; isInitialized := true;
                    isInitializing := false;
                    initializationAttempts := initializationAttempts st |},
                 requests, delays)
        | Some _ =>
            match answers requests with
            | Resolves data =>
                Ret ({| user := Some data; token := token st; isInitialized := true;
                        isInitializing := false; initializationAttempts := 0 |},
                     S requests, delays)
            | Rejects statusCode =>
                if isAuthError statusCode then
                  Ret ({| user := None; token := None; isInitialized := true;
                          isInitializing := false; initializationAttempts := 0 |},
                       S requests, delays)
                else if retryCount <? 3 then
                  initialize f (retryCount + 1) (S requests)
                    (delays ++ [delay retryCount])
                    {| user := user st; token := token st;
                       isInitialized := isInitialized st; isInitializing := false;
                       initializationAttempts := retryCount + 1 |}
                else
                  Ret ({| user := user st; token := token st; isInitialized := true;
                          isInitializing := false; initializationAttempts := 0 |},
                       S requests, delays)
            end
        end
  end.

(** Some request among the first [n] was rejected with a 401 or a 403. *)
Definition refused (n : nat) : Prop :=
  exists k status, k < n /\ answers k = Rejects status /\ isAuthError status = true.

End Store.

Arguments state : clear implicits.
Arguments answer : clear implicits.

(** A service that cannot be reached. *)
Definition unreachable : nat -> answer nat := fun _ => Rejects None.

(** The store of a user who logged in during an earlier visit. *)
Definition returning_user : state nat string :=
  {| user := Some 7; token := Some "t"%string; isInitialized := false;
     isInitializing := false; initializationAttempts := 0 |}.

End AuthStore.

(** ** PDFViewerModal: the page shown and the zoom *)
Module PdfViewer.

(** The state of the viewer. The scale is counted in quarters: every value
    it takes is a multiple of 0.25 between 0.5 and 3, which floating-point
    numbers hold exactly. *)
Record view : Type := {
  numPages : option nat;
  pageNumber : Z;
  scale : Z
}.

Inductive event : Type :=
  | LoadSuccess (numPages : nat)
  | LoadError
  | GoToPrevPage
  | GoToNextPage
  | ZoomIn
  | ZoomOut
  | Close.

Definition initial : view := {| numPages := None; pageNumber := 1; scale := 4 |}.

(** [numPages || 1] *)
Definition pages_or_one (n : option nat) : Z :=
  match n with
  | None | Some O => 1
  | Some n => Z.of_nat n
  end.

Definition handle (v : view) (e : event) : view :=
  match e with
  | LoadSuccess n => {| numPages := Some n; pageNumber := 1; scale := scale v |}
  | LoadError => v
  | GoToPrevPage =>
      {| numPages := numPages v; pageNumber := Z.max (pageNumber v - 1) 1;
         scale := scale v |}
  | GoToNextPage =>
      {| numPages := numPages v;
         pageNumber := Z.min (pageNumber v + 1) (pages_or_one (numPages v));
         scale := scale v |}
  | ZoomIn =>
      {| numPages := numPages v; pageNumber := pageNumber v;
         scale := Z.min (scale v + 1) 12 |}
  | ZoomOut =>
      {| numPages := numPages v; pageNumber := pageNumber v;
         scale := Z.max (scale v - 1) 2 |}
  | Close => initial
  end.

(** The page is one of the document and the scale is between 0.5 and 3. *)
Definition in_range (v : view) : Prop :=
  (1 <= pageNumber v <= pages_or_one (numPages v))%Z /\ (2 <= scale v <= 12)%Z.

End PdfViewer.

(** * Properties *)

Lemma padStart_length n c s : length s <= n -> length (padStart n c s) = n.
Proof.
  intros H. unfold padStart. rewrite length_app, length_replicate. lia.
Qed.

Module MongoIdFacts.
Import JS MongoId.
Open Scope N_scope.

Lemma hex_digit_is_hex d : is_hex (hex_digit d) = true.
Proof.
  destruct d as [|p]; [reflexivity|].
  do 4 (try destruct p as [p|p|]; try reflexivity).
Qed.

Lemma hex_value_digit d : d < 16 -> ReverseSync.hex_value (hex_digit d) = Some d.
Proof.
  intros H.
  assert (Hc : d = 0 \/ d = 1 \/ d = 2 \/ d = 3 \/ d = 4 \/ d = 5 \/ d = 6 \/ d = 7 \/
          d = 8 \/ d = 9 \/ d = 10 \/ d = 11 \/ d = 12 \/ d = 13 \/ d = 14 \/ d = 15) by lia.
  repeat (destruct Hc as [-> | Hc]; [reflexivity|]). subst. reflexivity.
Qed.

Lemma parse_hex_app a b acc :
  ReverseSync.parse_hex (a ++ b) acc
  = ReverseSync.parse_hex a acc ≫= ReverseSync.parse_hex b.
Proof.
  revert acc. induction a as [|c a IH]; intros acc; simpl; [reflexivity|].
  destruct (ReverseSync.hex_value c); [apply IH | reflexivity].
Qed.

Lemma toHex_S fuel n :
  toHex (S fuel) n
  = if n <? 16 then [hex_digit n] else toHex fuel (n / 16) ++ [hex_digit (n mod 16)].
Proof. reflexivity. Qed.

Lemma toHex_spec fuel : forall n k,
  n < 16 * 2 ^ N.of_nat fuel -> n < 16 ^ N.of_nat k -> (0 < k)%nat ->
  (0 < length (toHex (S fuel) n) <= k)%nat /\
  Forall (fun c => is_hex c = true) (toHex (S fuel) n) /\
  forall acc, ReverseSync.parse_hex (toHex (S fuel) n) acc
              = Some (acc * 16 ^ N.of_nat (length (toHex (S fuel) n)) + n).
Proof.
  induction fuel as [|f IH]; intros n k Hf Hk Hpos.
  - simpl in Hf. rewrite toHex_S.
    destruct (N.ltb_spec n 16); [|lia].
    split; [simpl; lia|]. split.
    + constructor; [apply hex_digit_is_hex | constructor].
    + intros acc. simpl. rewrite hex_value_digit by lia. f_equal. lia.
  - rewrite (toHex_S (S f)).
    destruct (N.ltb_spec n 16) as [Hlt|Hge].
    + split; [simpl; lia|]. split.
      * constructor; [apply hex_digit_is_hex | constructor].
      * intros acc. simpl. rewrite hex_value_digit by lia. f_equal. lia.
    + destruct k as [|k]; [lia|]. destruct k as [|k].
      { simpl in Hk. lia. }
      assert (Hq : n / 16 < 16 * 2 ^ N.of_nat f).
      { apply N.Div0.div_lt_upper_bound.
        rewrite Nat2N.inj_succ, N.pow_succ_r' in Hf.
        generalize dependent (2 ^ N.of_nat f). intros; lia. }
      assert (Hq' : n / 16 < 16 ^ N.of_nat (S k)).
      { apply N.Div0.div_lt_upper_bound.
        rewrite (Nat2N.inj_succ (S k)), N.pow_succ_r' in Hk. exact Hk. }
      destruct (IH (n / 16) (S k) Hq Hq' ltac:(lia)) as (Hlen & Hhex & Hval).
      split; [rewrite length_app; change (length [hex_digit (n mod 16)]) with 1%nat; lia|].
      split.
      * apply Forall_app. split; [exact Hhex|].
        constructor; [apply hex_digit_is_hex | constructor].
      * intros acc. rewrite parse_hex_app, Hval. simpl.
        rewrite hex_value_digit by (apply N.mod_lt; lia).
        f_equal. rewrite length_app. simpl length.
        rewrite Nat2N.inj_add. simpl N.of_nat. rewrite N.pow_add_r.
        pose proof (N.div_mod n 16 ltac:(lia)). 
        change (16 ^ 1) with 16. lia.
Qed.

Lemma toString16_spec n k :
  n < 16 ^ N.of_nat k -> (0 < k)%nat ->
  (length (toString16 n) <= k)%nat /\
  Forall (fun c => is_hex c = true) (toString16 n) /\
  ReverseSync.parse_hex (toString16 n) 0 = Some n.
Proof.
  intros Hk Hpos. unfold toString16.
  assert (Hf : n < 16 * 2 ^ N.of_nat (N.to_nat (N.log2 n))).
  { rewrite N2Nat.id. destruct (N.eq_dec n 0) as [->|Hn]; [reflexivity|].
    pose proof (N.log2_spec n ltac:(lia)) as [_ H].
    rewrite N.pow_succ_r' in H. lia. }
  destruct (toHex_spec _ n k Hf Hk Hpos) as (Hlen & Hhex & Hval).
  split; [lia|]. split; [exact Hhex|]. rewrite Hval. f_equal.
Qed.

Lemma parse_hex_zeros k : ReverseSync.parse_hex (replicate k "0"%char) 0 = Some 0.
Proof. induction k as [|k IH]; [reflexivity | exact IH]. Qed.

Lemma padded_hex n k :
  n < 16 ^ N.of_nat k -> (0 < k)%nat ->
  length (padStart k "0" (toString16 n)) = k /\
  Forall (fun c => is_hex c = true) (padStart k "0" (toString16 n)) /\
  ReverseSync.parse_hex (padStart k "0" (toString16 n)) 0 = Some n.
Proof.
  intros Hk Hpos. destruct (toString16_spec n k Hk Hpos) as (Hlen & Hhex & Hval).
  split; [apply padStart_length; exact Hlen|]. split.
  - unfold padStart. apply Forall_app. split; [|exact Hhex].
    apply Forall_forall. intros c Hc. apply elem_of_replicate in Hc as [-> _].
    reflexivity.
  - unfold padStart. rewrite parse_hex_app, parse_hex_zeros. exact Hval.
Qed.

Lemma byte_bound b : Byte.to_N b < 16 ^ N.of_nat 2.
Proof. pose proof (Byte.to_N_bounded b). change (16 ^ N.of_nat 2) with 256. lia. Qed.

(** C9, as the code has it: every call made while the clock's seconds fit 32
    bits returns 24 hexadecimal characters, 8 for the seconds, 10 for the five
    random bytes and 6 for the counter, and leaves the counter incremented
    modulo [0xffffff] (2^24 - 1, not 2^24). *)
Theorem generateMongoId_layout (now_ms : Z) (draw : nat -> Byte.byte) (counter : N) :
  (0 <= now_ms / 1000 < 2 ^ 32)%Z ->
  let counter' := (counter + 1) mod 0xffffff in
  generateMongoId now_ms draw counter
    = (timestamp_part now_ms ++ random_part draw ++ count_part counter', counter') /\
  length (timestamp_part now_ms) = 8%nat /\
  ReverseSync.parse_hex (timestamp_part now_ms) 0 = Some (Z.to_N (now_ms / 1000)) /\
  length (random_part draw) = 10%nat /\
  length (count_part counter') = 6%nat /\
  ReverseSync.parse_hex (count_part counter') 0 = Some counter' /\
  length (fst (generateMongoId now_ms draw counter)) = 24%nat /\
  Forall (fun c => is_hex c = true) (fst (generateMongoId now_ms draw counter)) /\
  counter' < 0xffffff.
Proof.
  intros Hts counter'.
  assert (Hc : counter' < 16 ^ N.of_nat 6).
  { subst counter'. pose proof (N.mod_lt (counter + 1) 0xffffff ltac:(lia)).
    change (16 ^ N.of_nat 6) with 16777216. lia. }
  assert (Ht : Z.to_N (now_ms / 1000) < 16 ^ N.of_nat 8).
  { change (16 ^ N.of_nat 8) with 4294967296. change (2 ^ 32)%Z with 4294967296%Z in Hts. lia. }
  destruct (padded_hex _ 6 Hc ltac:(lia)) as (Hcl & Hch & Hcv).
  destruct (padded_hex _ 8 Ht ltac:(lia)) as (Htl & Hth & Htv).
  assert (Hts_eq : timestamp_part now_ms = padStart 8 "0" (toString16 (Z.to_N (now_ms / 1000)))).
  { unfold timestamp_part, toString16Z.
    destruct (Z.ltb_spec (now_ms / 1000) 0); [lia | reflexivity]. }
  assert (Hr : length (random_part draw) = 10%nat /\
               Forall (fun c => is_hex c = true) (random_part draw)).
  { unfold random_part. cbn [concat map seq].
    destruct (padded_hex _ 2 (byte_bound (draw 0%nat)) ltac:(lia)) as (L0 & H0 & _).
    destruct (padded_hex _ 2 (byte_bound (draw 1%nat)) ltac:(lia)) as (L1 & H1 & _).
    destruct (padded_hex _ 2 (byte_bound (draw 2%nat)) ltac:(lia)) as (L2 & H2 & _).
    destruct (padded_hex _ 2 (byte_bound (draw 3%nat)) ltac:(lia)) as (L3 & H3 & _).
    destruct (padded_hex _ 2 (byte_bound (draw 4%nat)) ltac:(lia)) as (L4 & H4 & _).
    split.
    - rewrite !length_app, L0, L1, L2, L3, L4. reflexivity.
    - apply Forall_app; split; [exact H0|]. apply Forall_app; split; [exact H1|].
      apply Forall_app; split; [exact H2|]. apply Forall_app; split; [exact H3|].
      apply Forall_app; split; [exact H4|]. constructor. }
  destruct Hr as [Hrl Hrh].
  assert (Hid : generateMongoId now_ms draw counter
    = (timestamp_part now_ms ++ random_part draw ++ count_part counter', counter')) by reflexivity.
  split; [exact Hid|]. rewrite Hid. cbn [fst].
  split; [rewrite Hts_eq; exact Htl|].
  split; [rewrite Hts_eq; exact Htv|].
  split; [exact Hrl|].
  split; [exact Hcl|].
  split; [exact Hcv|].
  split; [rewrite !length_app, Hrl, Hts_eq, Htl; unfold count_part; rewrite Hcl; reflexivity|].
  split.
  - apply Forall_app; split; [rewrite Hts_eq; exact Hth|].
    apply Forall_app; split; [exact Hrh | exact Hch].
  - subst counter'. apply N.mod_lt. lia.
Qed.

Lemma generateMongoId_layout_witness :
  length (fst (generateMongoId 1700000000123 (fun _ => Byte.x3c) 41)) = 24%nat.
Proof.
  apply (generateMongoId_layout 1700000000123 (fun _ => Byte.x3c) 41).
  vm_compute. split; [intros H; discriminate H | reflexivity].
Defined.

(** At the counter value [0xfffffe] the next value is 0, whereas one more
    modulo 2^24 is [0xffffff]. *)
Lemma counter_wraps_before_2_24 :
  snd (generateMongoId 1700000000123 (fun _ => Byte.x3c) 0xfffffe)
    <> (0xfffffe + 1) mod 2 ^ 24.
Proof. vm_compute. discriminate. Qed.
End MongoIdFacts.

Lemma drop_cons_inv {A} (s : list A) i c rest :
  drop i s = c :: rest -> s !! i = Some c /\ drop (S i) s = rest.
Proof.
  revert i. induction s as [|x s IH]; intros i H.
  - rewrite drop_nil in H. discriminate.
  - destruct i as [|i]; simpl in *.
    + inversion H; subst. split; [reflexivity | apply drop_0].
    + apply IH. exact H.
Qed.

Lemma drop_nil_inv {A} (s : list A) i : drop i s = [] -> s !! i = None.
Proof.
  intros H. apply lookup_ge_None. 
  assert (length (drop i s) = 0) by (rewrite H; reflexivity).
  rewrite length_drop in *. lia.
Qed.

Module RepairerFacts.
Import JS Repairer.

Lemma eqb_dquote_backslash : Ascii.eqb backslash dquote = false.
Proof. reflexivity. Qed.

Lemma scan_repaired inString rest out :
  repaired inString rest out ->
  forall s i fuel result,
    drop i s = rest -> length rest + 2 <= fuel ->
    scan fuel s (loop_of inString) i result = Ret (result ++ out).
Proof.
  induction 1 as [b | c rest out Hc _ IH | rest out _ IH | c rest out Hv _ IH
                 | c rest out Hv _ IH | | rest out _ IH | c rest out Hc Hb _ IH];
    intros s i fuel result Hdrop Hfuel.
  - apply drop_nil_inv in Hdrop.
    destruct fuel as [|[|f]]; simpl in Hfuel; try lia.
    destruct b; simpl; rewrite ?Hdrop; simpl; rewrite ?Hdrop; by rewrite app_nil_r.
  - apply drop_cons_inv in Hdrop as [Hi Hd].
    destruct fuel as [|f]; [lia|]. simpl in *. rewrite Hi.
    apply Ascii.eqb_neq in Hc. rewrite Hc.
    rewrite Nat.add_1_r, (IH s (S i) f (result ++ [c]) Hd ltac:(lia)).
    by rewrite <- app_assoc.
  - apply drop_cons_inv in Hdrop as [Hi Hd].
    destruct fuel as [|f]; [lia|]. simpl in *. rewrite Hi, Ascii.eqb_refl.
    rewrite Nat.add_1_r, (IH s (S i) f (result ++ [dquote]) Hd ltac:(lia)).
    by rewrite <- app_assoc.
  - apply drop_cons_inv in Hdrop as [Hi Hd].
    apply drop_cons_inv in Hd as [Hi' Hd].
    destruct fuel as [|f]; [simpl in Hfuel; lia|]. simpl in *.
    rewrite Hi, Ascii.eqb_refl, Nat.add_1_r, Hi', Hv.
    replace (i + 2) with (S (S i)) by lia.
    rewrite (IH s (S (S i)) f _ Hd ltac:(lia)).
    by rewrite <- app_assoc.
  - apply drop_cons_inv in Hdrop as [Hi Hd].
    apply drop_cons_inv in Hd as [Hi' Hd].
    destruct fuel as [|f]; [simpl in Hfuel; lia|]. simpl in *.
    rewrite Hi, Ascii.eqb_refl, Nat.add_1_r, Hi', Hv.
    replace (i + 2) with (S (S i)) by lia.
    rewrite (IH s (S (S i)) f _ Hd ltac:(lia)).
    by rewrite <- app_assoc.
  - apply drop_cons_inv in Hdrop as [Hi Hd]. apply drop_nil_inv in Hd.
    destruct fuel as [|[|[|f]]]; simpl in Hfuel; try lia.
    simpl. rewrite Hi, Ascii.eqb_refl, !Nat.add_1_r, Hd, eqb_dquote_backslash.
    simpl. rewrite ?Hd. simpl. by rewrite ?Hd.
  - apply drop_cons_inv in Hdrop as [Hi Hd].
    destruct fuel as [|f]; [lia|]. simpl in *.
    rewrite Hi. change (Ascii.eqb dquote backslash) with false. cbn iota.
    rewrite Ascii.eqb_refl.
    rewrite Nat.add_1_r, (IH s (S i) f _ Hd ltac:(lia)).
    by rewrite <- app_assoc.
  - apply drop_cons_inv in Hdrop as [Hi Hd].
    destruct fuel as [|f]; [lia|]. simpl in *. rewrite Hi.
    apply Ascii.eqb_neq in Hc, Hb. rewrite Hb, Hc.
    rewrite Nat.add_1_r, (IH s (S i) f _ Hd ltac:(lia)).
    by rewrite <- app_assoc.
Qed.

Lemma repaired_total n : forall rest inString,
  length rest <= n -> exists out, repaired inString rest out.
Proof.
  induction n as [|n IH]; intros rest b Hlen.
  - destruct rest; [|simpl in Hlen; lia]. eexists. constructor.
  - destruct rest as [|c rest]; [eexists; constructor|]. simpl in Hlen.
    destruct b.
    + destruct (decide (c = dquote)) as [->|Hq].
      { destruct (IH rest false ltac:(lia)) as [o Ho]. eexists. by apply rep_exit_string. }
      destruct (decide (c = backslash)) as [->|Hb].
      * destruct rest as [|c' rest].
        { eexists. apply rep_trailing_backslash. }
        simpl in Hlen. destruct (IH rest true ltac:(lia)) as [o Ho].
        destruct (is_valid_escape c') eqn:Hv; eexists.
        -- by apply rep_valid_escape.
        -- by apply rep_invalid_escape.
      * destruct (IH rest true ltac:(lia)) as [o Ho]. eexists. by apply rep_inside_copy.
    + destruct (decide (c = dquote)) as [->|Hq];
        [destruct (IH rest true ltac:(lia)) as [o Ho]
        |destruct (IH rest false ltac:(lia)) as [o Ho]];
        eexists; [by apply rep_enter_string | by apply rep_outside_copy].
Qed.

Example wedge_repaired :
  fixInvalidEscapeSequences Extractor.wedge_block = Ret Extractor.wedge_block_fixed.
Proof. vm_compute. reflexivity. Qed.

Lemma fixInvalidEscapeSequences_returns (jsonStr : str) :
  exists out, fixInvalidEscapeSequences jsonStr = Ret out /\ repaired false jsonStr out.
Proof.
  destruct (repaired_total (length jsonStr) jsonStr false ltac:(lia)) as [out Hout].
  exists out. split; [|exact Hout]. unfold fixInvalidEscapeSequences.
  apply (scan_repaired false jsonStr out Hout jsonStr 0 _ []); [apply drop_0 | lia].
Qed.

(** C4: on every input the repairer returns, and what it returns is the
    input repaired as the specification describes: characters outside string
    literals copied, a double quote entering or leaving a literal, inside a
    literal a backslash kept with the next character when that is one of the
    nine valid escapes and doubled otherwise, a backslash that ends the input
    copied as it is. *)
Theorem fixInvalidEscapeSequences_repairs (jsonStr : str) :
  exists out,
    fixInvalidEscapeSequences jsonStr = Ret out /\
    repaired false jsonStr out /\
    (forall out', repaired false jsonStr out' -> out' = out).
Proof.
  destruct (repaired_total (length jsonStr) jsonStr false ltac:(lia)) as [out Hout].
  assert (Hrun : forall o, repaired false jsonStr o -> fixInvalidEscapeSequences jsonStr = Ret o).
  { intros o Ho. unfold fixInvalidEscapeSequences.
    apply (scan_repaired false jsonStr o Ho jsonStr 0 _ []); [apply drop_0 | lia]. }
  exists out. split; [by apply Hrun|]. split; [exact Hout|].
  intros out' Hout'. apply Hrun in Hout, Hout'. congruence.
Qed.
End RepairerFacts.

Module ExtractorFacts.
Import JS Extractor.

Lemma starts_with_prefix p : forall s,
  starts_with p s = true -> take (length p) s = p /\ length p <= length s.
Proof.
  induction p as [|a p IH]; intros s H.
  - split; [by rewrite take_0 | simpl; lia].
  - destruct s as [|b s]; [discriminate|]. simpl in H.
    apply andb_true_iff in H as [Hab Hp]. apply Ascii.eqb_eq in Hab. subst b.
    destruct (IH s Hp) as [Ht Hl]. simpl. rewrite Ht. split; [reflexivity | lia].
Qed.

Lemma starts_with_take s : forall n, starts_with (take n s) s = true.
Proof.
  induction s as [|c s IH]; intros [|n]; simpl; try reflexivity.
  by rewrite Ascii.eqb_refl, IH.
Qed.

Lemma indexOf_go_found p : forall s i j,
  indexOf_go p s i = Some j ->
  i <= j /\ j - i + length p <= length s /\ starts_with p (drop (j - i) s) = true.
Proof.
  induction s as [|c s IH]; intros i j H; simpl in H.
  - destruct (starts_with p []) eqn:Hp; [|discriminate]. inversion H; subst.
    apply starts_with_prefix in Hp as Hp'. destruct Hp' as [_ Hl].
    rewrite Nat.sub_diag. split; [lia|]. split; [simpl in *; lia | exact Hp].
  - destruct (starts_with p (c :: s)) eqn:Hp.
    + inversion H; subst. apply starts_with_prefix in Hp as Hp'. destruct Hp' as [_ Hl].
      rewrite Nat.sub_diag. split; [lia|]. split; [lia | exact Hp].
    + apply IH in H as (Hij & Hlen & Hst).
      split; [lia|]. replace (j - i) with (S (j - S i)) by lia.
      split; [simpl; lia | exact Hst].
Qed.

Lemma indexOf_go_complete p : forall s i k,
  starts_with p (drop k s) = true -> k <= length s ->
  exists j, indexOf_go p s i = Some j /\ j <= i + k.
Proof.
  induction s as [|c s IH]; intros i k Hst Hk; simpl.
  - simpl in Hk. assert (k = 0) by lia. subst. simpl in Hst. rewrite Hst.
    exists i. split; [reflexivity | lia].
  - destruct (starts_with p (c :: s)) eqn:Hp.
    + exists i. split; [reflexivity | lia].
    + destruct k as [|k]; [simpl in Hst; congruence|]. simpl in Hst, Hk.
      destruct (IH (S i) k Hst ltac:(lia)) as (j & Hj & Hle).
      exists j. split; [exact Hj | lia].
Qed.

Lemma indexOf_found s p from j :
  from <= length s -> indexOf s p from = Some j ->
  from <= j /\ j + length p <= length s.
Proof.
  intros Hfrom H. unfold indexOf in H. rewrite Nat.min_l in H by exact Hfrom.
  apply indexOf_go_found in H as (Hij & Hlen & _).
  rewrite length_drop in Hlen. split; lia.
Qed.

Lemma trimStart_length s : length (trimStart s) <= length s.
Proof.
  induction s as [|c s IH]; simpl; [lia|]. destruct (is_space c); simpl; lia.
Qed.

Lemma strip_prefix_length p s t :
  strip_prefix p s = Some t -> length t + length p = length s.
Proof.
  unfold strip_prefix. destruct (starts_with p s) eqn:Hp; [|discriminate].
  intros H. inversion H; subst. apply starts_with_prefix in Hp as [_ Hl].
  rewrite length_drop. lia.
Qed.

Lemma questions_regex_at_length s n :
  questions_regex_at s = Some n -> 2 <= n <= length s.
Proof.
  unfold questions_regex_at. intros H.
  destruct (strip_prefix (chars "{") s) as [s1|] eqn:H1; [|discriminate].
  cbn [mbind option_bind] in H.
  destruct (strip_prefix quoted_questions (trimStart s1)) as [s2|] eqn:H2; [|discriminate].
  cbn [mbind option_bind] in H.
  destruct (strip_prefix (chars ":") (trimStart s2)) as [s3|] eqn:H3; [|discriminate].
  cbn [mbind option_bind] in H.
  destruct (strip_prefix (chars "[") (trimStart s3)) as [s4|] eqn:H4; [|discriminate].
  cbn [mbind option_bind] in H. inversion H; subst.
  apply strip_prefix_length in H1, H2, H3, H4.
  pose proof (trimStart_length s1). pose proof (trimStart_length s2).
  pose proof (trimStart_length s3).
  change (length (chars "{")) with 1 in H1. change (length quoted_questions) with 11 in H2.
  change (length (chars ":")) with 1 in H3. change (length (chars "[")) with 1 in H4.
  lia.
Qed.

Lemma questions_regex_match_found : forall s m,
  questions_regex_match s = Some m ->
  exists k, k <= length s /\ starts_with m (drop k s) = true /\ 2 <= length m.
Proof.
  induction s as [|c s IH]; intros m H; simpl in H.
  - destruct (questions_regex_at []) as [n|] eqn:Hn; [|discriminate].
    apply questions_regex_at_length in Hn. simpl in Hn. lia.
  - destruct (questions_regex_at (c :: s)) as [n|] eqn:Hn.
    + inversion H; subst. apply questions_regex_at_length in Hn.
      exists 0. split; [lia|]. split; [apply starts_with_take|].
      rewrite length_take. lia.
    + destruct (IH m H) as (k & Hk & Hst & Hm).
      exists (S k). split; [simpl; lia|]. split; [exact Hst | exact Hm].
Qed.

Lemma list_min_elem l m : list_min l = Some m -> m ∈ l.
Proof.
  destruct l as [|x l]; [discriminate|]. simpl. intros H. inversion H; subst. clear H.
  induction l as [|y l IH]; simpl.
  - apply list_elem_of_here.
  - destruct (Nat.min_spec y (foldr Nat.min x l)) as [[_ ->]|[_ ->]].
    + apply list_elem_of_further, list_elem_of_here.
    + apply elem_of_cons in IH as [Heq|IH].
      * rewrite Heq. apply list_elem_of_here.
      * apply list_elem_of_further, list_elem_of_further, IH.
Qed.

Lemma pattern3_found raw ss j :
  ss <= length raw -> pattern3 raw ss = Some j -> ss <= j /\ j + 2 <= length raw.
Proof.
  intros Hss. unfold pattern3.
  destruct (questions_regex_match (drop ss raw)) as [m|] eqn:Hm; [|discriminate].
  destruct (questions_regex_match_found _ _ Hm) as (k & Hk & Hst & Hlen).
  destruct (indexOf_go_complete m (drop ss raw) 0 k Hst Hk) as (j' & Hj' & _).
  unfold indexOf. rewrite Nat.min_0_l, drop_0, Hj'. intros H. inversion H; subst.
  apply indexOf_go_found in Hj' as (_ & Hb & _). rewrite length_drop in Hb. lia.
Qed.

Lemma find_candidate_found raw ss j :
  ss <= length raw -> find_candidate raw ss = Some j ->
  ss <= j /\ j + 2 <= length raw.
Proof.
  intros Hss H. unfold find_candidate in H. apply list_min_elem in H.
  apply list_elem_of_omap in H as (o & Ho & Hj). simpl in Hj. subst o.
  repeat (apply elem_of_cons in Ho as [Ho|Ho]).
  - symmetry in Ho. apply indexOf_found in Ho as [? Hl]; [|exact Hss].
    change (length pattern1_text) with 12 in Hl. lia.
  - symmetry in Ho. apply indexOf_found in Ho as [? Hl]; [|exact Hss].
    change (length pattern2_text) with 13 in Hl. lia.
  - symmetry in Ho. by apply pattern3_found.
  - by apply elem_of_nil in Ho.
Qed.

Lemma findJsonEnd_bounds rest : forall i braceCount inString escapeNext e,
  findJsonEnd rest i braceCount inString escapeNext = Some e ->
  i + 1 <= e <= i + length rest.
Proof.
  induction rest as [|c rest IH]; intros i bc ins esc e H; simpl in H; [discriminate|].
  repeat case_match; simplify_eq; try (apply IH in H); simpl; lia.
Qed.

Lemma increasing_snoc l x :
  increasing l -> Forall (fun a => a < x) l -> increasing (l ++ [x]).
Proof.
  intros Hl Hx i j a b Hij Ha Hb.
  destruct (decide (j < length l)) as [Hj|Hj].
  - rewrite lookup_app_l in Ha, Hb by lia. exact (Hl i j a b Hij Ha Hb).
  - assert (j = length l).
    { apply lookup_lt_Some in Hb. rewrite length_app in Hb. simpl in Hb. lia. }
    subst j. rewrite lookup_app_l in Ha by lia.
    rewrite lookup_app_r, Nat.sub_diag in Hb by lia. simpl in Hb. inversion Hb; subst.
    rewrite Forall_forall in Hx. apply Hx. eapply list_elem_of_lookup_2; eauto.
Qed.

Section Scanning.
Variable block : str -> run (list jsval * list str).
Hypothesis block_returns : forall s, exists r, block s = Ret r.
Variable rawContent : str.

Lemma scan_inv_init : scan_inv rawContent scan_init.
Proof.
  unfold scan_inv, scan_init; simpl. split; [lia|]. split.
  - intros i j a b Hij Ha Hb. apply lookup_lt_Some in Hb. simpl in Hb. lia.
  - split; [repeat constructor|]. lia.
Qed.

Lemma scan_step_advances st :
  scan_inv rawContent st ->
  exists next, scan_step block rawContent st = Ret next /\
    match next with
    | None => find_candidate rawContent (searchStart st) = None
    | Some st' => searchStart st < searchStart st' /\ scan_inv rawContent st'
    end.
Proof.
  intros (Hss & Hinc & Hall & Hlen & Hcount). unfold scan_step.
  destruct (find_candidate rawContent (searchStart st)) as [jsonStart|] eqn:Hc;
    [|eexists; split; reflexivity].
  apply find_candidate_found in Hc as [Hle Hroom]; [|exact Hss].
  assert (Hnew : forall c' st',
    searchStart st' = c' -> cursor_log st' = cursor_log st ++ [c'] ->
    searchStart st < c' -> c' <= length rawContent ->
    searchStart st < searchStart st' /\ scan_inv rawContent st').
  { intros c' st' Hs Hlog Hlt Hb. rewrite Hs. split; [exact Hlt|].
    unfold scan_inv. rewrite Hs, Hlog. split; [exact Hb|]. split.
    - apply (increasing_snoc (0 :: cursor_log st) c' Hinc).
      eapply Forall_impl; [exact Hall|]. simpl. intros; lia.
    - split.
      + apply (Forall_app _ (0 :: cursor_log st) [c']). split.
        * eapply Forall_impl; [exact Hall|]. simpl. intros; lia.
        * constructor; [lia | constructor].
      + rewrite length_app. simpl. lia. }
  destruct (findJsonEnd (drop jsonStart rawContent) jsonStart 0 false false)
    as [jsonEnd|] eqn:He.
  - apply findJsonEnd_bounds in He. rewrite length_drop in He.
    destruct (block_returns (substring rawContent jsonStart jsonEnd)) as [[qs calls] Hb].
    rewrite Hb. eexists. split; [reflexivity|].
    apply (Hnew jsonEnd); simpl; try reflexivity; lia.
  - eexists. split; [reflexivity|].
    apply (Hnew (jsonStart + 1)); simpl; try reflexivity; lia.
Qed.

Lemma scan_loop_returns fuel : forall st,
  scan_inv rawContent st -> length rawContent - searchStart st < fuel ->
  exists st', scan_loop fuel block rawContent st = Ret st' /\ scan_inv rawContent st' /\
              find_candidate rawContent (searchStart st') = None.
Proof.
  induction fuel as [|fuel IH]; intros st Hinv Hfuel; [lia|].
  destruct (scan_step_advances st Hinv) as (next & Hstep & Hnext).
  simpl. rewrite Hstep. simpl. destruct next as [st'|].
  - destruct Hnext as [Hlt Hinv']. apply IH; [exact Hinv'|].
    destruct Hinv' as [Hb _]. lia.
  - exists st. auto.
Qed.

Lemma collect_returns :
  exists st, collect block rawContent = Ret st /\ scan_inv rawContent st /\
             find_candidate rawContent (searchStart st) = None.
Proof.
  unfold collect. apply scan_loop_returns; [apply scan_inv_init|].
  simpl. lia.
Qed.

Lemma scan_loop_more_fuel fuel : forall k st final,
  scan_loop fuel block rawContent st = Ret final ->
  scan_loop (fuel + k) block rawContent st = Ret final.
Proof.
  induction fuel as [|fuel IH]; intros k st final H; [discriminate|].
  cbn [Nat.add scan_loop] in *.
  destruct (scan_step block rawContent st) as [[st'|]| |]; simpl in *;
    try discriminate; [by apply IH | exact H].
Qed.

(** The loop takes one turn for each candidate of the text and one more that
    finds none; the cursor goes where [cursor_after] says, and each candidate
    that has an end brings what [block] makes of its text. *)
Lemma scan_loop_trace fuel : forall st m,
  scan_inv rawContent st ->
  length rawContent - searchStart st <= m ->
  let cs := candidates_from m rawContent (searchStart st) in
  if fuel <=? length cs then scan_loop fuel block rawContent st = OutOfFuel
  else exists final,
    scan_loop fuel block rawContent st = Ret final /\
    allQuestions final
      = allQuestions st ++ concat (map (brought block) (omap (block_text rawContent) cs)) /\
    parse_log final
      = parse_log st ++ concat (map (parse_calls block) (omap (block_text rawContent) cs)) /\
    cursor_log final = cursor_log st ++ map cursor_after cs /\
    jsonBlockCount final = jsonBlockCount st + length (omap (block_text rawContent) cs) /\
    scan_inv rawContent final.
Proof.
  induction fuel as [|fuel IH]; intros st m Hinv Hm; [reflexivity|].
  destruct (scan_step_advances st Hinv) as (next & Hstep & Hnext).
  cbn [scan_loop]. rewrite Hstep. cbn [mbind run_bind bind].
  unfold scan_step in Hstep.
  destruct (find_candidate rawContent (searchStart st)) as [jsonStart|] eqn:Hc.
  - pose proof Hc as Hfound. apply find_candidate_found in Hfound as [Hle Hroom];
      [|by destruct Hinv].
    destruct m as [|m]; [lia|]. cbn [candidates_from]. rewrite Hc.
    set (c := {| c_start := jsonStart;
                 c_end := findJsonEnd (drop jsonStart rawContent) jsonStart 0 false false |}).
    cbn zeta. cbn [length]. change (S fuel <=? S ?n) with (fuel <=? n).
    assert (Hgo : forall st' qs calls n,
      next = Some st' -> searchStart st' = cursor_after c ->
      allQuestions st' = allQuestions st ++ qs ->
      parse_log st' = parse_log st ++ calls ->
      cursor_log st' = cursor_log st ++ [cursor_after c] ->
      jsonBlockCount st' = jsonBlockCount st + n ->
      concat (map (brought block) (omap (block_text rawContent) [c])) = qs ->
      concat (map (parse_calls block) (omap (block_text rawContent) [c])) = calls ->
      length (omap (block_text rawContent) [c]) = n ->
      let cs := candidates_from m rawContent (cursor_after c) in
      if fuel <=? length cs then scan_loop fuel block rawContent st' = OutOfFuel
      else exists final,
        scan_loop fuel block rawContent st' = Ret final /\
        allQuestions final
          = allQuestions st
            ++ concat (map (brought block) (omap (block_text rawContent) (c :: cs))) /\
        parse_log final
          = parse_log st
            ++ concat (map (parse_calls block) (omap (block_text rawContent) (c :: cs))) /\
        cursor_log final = cursor_log st ++ map cursor_after (c :: cs) /\
        jsonBlockCount final
          = jsonBlockCount st + length (omap (block_text rawContent) (c :: cs)) /\
        scan_inv rawContent final).
    { intros st' qs calls n -> Hs Hq Hp Hl Hn Hqs Hcalls Hlen.
      destruct Hnext as [Hlt Hinv']. specialize (IH st' m Hinv').
      rewrite Hs in IH, Hlt. specialize (IH ltac:(lia)). cbn zeta in *.
      destruct (fuel <=? length (candidates_from m rawContent (cursor_after c)));
        [exact IH|].
      destruct IH as (final & Hrun & Hfq & Hfp & Hfl & Hfn & Hfinv).
      exists final. split; [exact Hrun|].
      change (c :: ?l) with ([c] ++ l).
      rewrite !omap_app, !map_app, !concat_app, !length_app, Hqs, Hcalls, Hlen.
      rewrite Hfq, Hq, Hfp, Hp, Hfl, Hl, Hfn, Hn, <- !app_assoc.
      split; [reflexivity|]. split; [reflexivity|]. split; [reflexivity|].
      split; [lia | exact Hfinv]. }
    destruct (findJsonEnd (drop jsonStart rawContent) jsonStart 0 false false)
      as [jsonEnd|] eqn:He.
    + destruct (block_returns (substring rawContent jsonStart jsonEnd)) as [[qs calls] Hb].
      rewrite Hb in Hstep. cbn [mbind run_bind bind] in Hstep.
      injection Hstep as <-.
      eapply (Hgo _ qs calls 1); try reflexivity;
        first [ cbn; lia
              | cbn; unfold block_text, brought, parse_calls; cbn; rewrite Hb;
                by rewrite app_nil_r ].
    + injection Hstep as <-.
      eapply (Hgo _ [] [] 0); try reflexivity; cbn; by rewrite ?app_nil_r, ?Nat.add_0_r.
  - injection Hstep as <-.
    assert (Hcs : candidates_from m rawContent (searchStart st) = []).
    { destruct m; [reflexivity|]. cbn. by rewrite Hc. }
    rewrite Hcs. cbn. exists st. rewrite !app_nil_r, Nat.add_0_r.
    do 5 (split; [reflexivity|]). exact Hinv.
Qed.

End Scanning.

(** The run of the whole loop, for a [block] that returns. *)
Lemma collect_trace block rawContent :
  (forall s, exists r, block s = Ret r) ->
  exists st,
    collect block rawContent = Ret st /\
    (forall fuel, scan_loop fuel block rawContent scan_init
                  = if fuel <=? length (candidates rawContent) then OutOfFuel else Ret st) /\
    allQuestions st = concat (map (brought block) (blocks rawContent)) /\
    parse_log st = concat (map (parse_calls block) (blocks rawContent)) /\
    cursor_log st = map cursor_after (candidates rawContent) /\
    jsonBlockCount st = length (blocks rawContent) /\
    scan_inv rawContent st.
Proof.
  intros Hblock.
  pose proof (fun fuel => scan_loop_trace block Hblock rawContent fuel scan_init
                            (length rawContent) (scan_inv_init rawContent)
                            ltac:(simpl; lia)) as Htrace.
  cbn zeta in Htrace. change (searchStart scan_init) with 0 in Htrace.
  fold (candidates rawContent) in Htrace. fold (blocks rawContent) in Htrace.
  destruct (collect_returns block Hblock rawContent) as (st & Hrun & _).
  pose proof (Htrace (S (length rawContent))) as Hfull.
  unfold collect in Hrun.
  destruct (S (length rawContent) <=? length (candidates rawContent)) eqn:Hlen;
    [congruence|].
  destruct Hfull as (final & Hfinal & Hq & Hp & Hl & Hn & Hinv).
  assert (final = st) as -> by congruence.
  exists st. split; [exact Hrun|].
  split; [|split; [exact Hq|split; [exact Hp|split; [exact Hl|split; [exact Hn|exact Hinv]]]]].
  intros fuel. specialize (Htrace fuel).
  destruct (fuel <=? length (candidates rawContent)) eqn:Hfuel; [exact Htrace|].
  destruct Htrace as (final & Hf & _).
  apply Nat.leb_gt in Hfuel, Hlen.
  destruct (decide (fuel <= S (length rawContent))) as [Hle|Hgt].
  - pose proof (scan_loop_more_fuel block rawContent fuel (S (length rawContent) - fuel)
                  scan_init final Hf) as Hmore.
    replace (fuel + (S (length rawContent) - fuel)) with (S (length rawContent)) in Hmore
      by lia.
    congruence.
  - pose proof (scan_loop_more_fuel block rawContent (S (length rawContent))
                  (fuel - S (length rawContent)) scan_init st Hrun) as Hmore.
    replace (S (length rawContent) + (fuel - S (length rawContent))) with fuel in Hmore
      by lia.
    exact Hmore.
Qed.
Lemma try_parse_cases JSON_parse s :
  try_parse JSON_parse s = Throw \/ exists qs, try_parse JSON_parse s = Ret qs.
Proof.
  unfold try_parse. destruct (JSON_parse s) as [parsed|]; [|by left].
  destruct parsed; simpl; eauto.
Qed.

Lemma try_parse_syntax_error JSON_parse s :
  JSON_parse s = None -> try_parse JSON_parse s = Throw.
Proof. unfold try_parse. by intros ->. Qed.

Lemma parse_block_returns JSON_parse s :
  exists r, parse_block JSON_parse s = Ret r.
Proof.
  unfold parse_block.
  destruct (try_parse_cases JSON_parse s) as [->|[qs ->]]; [|eauto].
  destruct (RepairerFacts.fixInvalidEscapeSequences_returns s) as (fixed & -> & _).
  simpl. destruct (try_parse_cases JSON_parse fixed) as [->|[qs ->]]; eauto.
Qed.

Lemma parse_block_no_repair_returns JSON_parse s :
  exists r, parse_block_no_repair JSON_parse s = Ret r.
Proof.
  unfold parse_block_no_repair.
  destruct (try_parse_cases JSON_parse s) as [->|[qs ->]]; eauto.
Qed.

Lemma block_of_returns JSON_parse c s :
  exists r, block_of JSON_parse c s = Ret r.
Proof. destruct c; [apply parse_block_returns | apply parse_block_no_repair_returns]. Qed.

(** C10, as the code has it: on every input, in both copies, the
    candidate-scanning loop ends. It takes one turn for each candidate of the
    text and one more, which finds none: with fuel for fewer turns the model
    runs out, with fuel for that many it returns, and the fuel of [collect]
    is enough. Every turn but the last moves the cursor to the end of the
    block it located, whether its text parses or not, or to the start of the
    candidate plus one when there is no closing brace; the values the cursor
    takes are strictly increasing from 0 and at most the length of the input.
    The number of turns is at most the length of a non-empty input, and one
    on the empty input. *)
Theorem candidate_scan_terminates (JSON_parse : str -> option jsval) (c : copy)
    (rawContent : str) :
  exists st,
    collect (block_of JSON_parse c) rawContent = Ret st /\
    (forall fuel,
       scan_loop fuel (block_of JSON_parse c) rawContent scan_init
       = if fuel <=? length (candidates rawContent) then OutOfFuel else Ret st) /\
    cursor_log st = map cursor_after (candidates rawContent) /\
    increasing (0 :: cursor_log st) /\
    Forall (fun cursor => cursor <= length rawContent) (cursor_log st) /\
    S (length (candidates rawContent)) <= Nat.max 1 (length rawContent).
Proof.
  destruct (collect_trace (block_of JSON_parse c) rawContent (block_of_returns JSON_parse c))
    as (st & Hrun & Hfuel & _ & _ & Hlog & _ & (Hss & Hinc & Hall & Hlen & Hcount)).
  exists st. split; [exact Hrun|]. split; [exact Hfuel|]. split; [exact Hlog|].
  split; [exact Hinc|]. split.
  - apply Forall_cons in Hall as [_ Hall].
    eapply Forall_impl; [exact Hall|]. simpl. intros; lia.
  - rewrite Hlog, length_map in Hcount. exact Hcount.
Qed.

(** The empty text has no candidate and takes one turn, which is more than
    its length. *)
Lemma empty_text_takes_one_turn :
  candidates [] = [] /\
  scan_loop 0 (parse_block empty_parse) [] scan_init = OutOfFuel /\
  scan_loop 1 (parse_block empty_parse) [] scan_init = Ret scan_init /\
  ~ S (length (candidates [])) <= length ([] : str).
Proof.
  split; [reflexivity|]. split; [reflexivity|]. split; [reflexivity|].
  simpl. lia.
Qed.

(** *** The function returns *)

Lemma dedupe_not_out_of_fuel qs : forall seenLabels uniqueQuestions,
  dedupe qs seenLabels uniqueQuestions <> OutOfFuel.
Proof.
  induction qs as [|q qs IH]; intros seen uniq; simpl; [discriminate|].
  destruct (getProp q "question_label") as [l| |] eqn:Hl; simpl; try discriminate.
  - destruct (existsb _ seen); apply IH.
  - destruct q; simpl in Hl; discriminate.
Qed.

Section Engine.
Variable regex_exec : regex_id -> str -> nat -> option rmatch.
Hypothesis engine_advancing : advancing regex_exec.

Lemma exec_loop_from {A} re s (body : rmatch -> A -> run A) :
  (forall m acc, body m acc <> OutOfFuel) ->
  forall fuel lastIndex acc,
    length s - lastIndex < fuel ->
    exec_loop regex_exec fuel re s lastIndex acc body <> OutOfFuel.
Proof.
  intros Hbody. induction fuel as [|fuel IH]; intros lastIndex acc Hfuel; [lia|].
  cbn [exec_loop]. destruct (regex_exec re s lastIndex) as [m|] eqn:Hm; [|discriminate].
  destruct (engine_advancing re s lastIndex m Hm) as (Hat & Hlen & Hin).
  specialize (Hbody m acc). destruct (body m acc) as [acc'| |]; simpl;
    [|discriminate|done].
  apply IH. lia.
Qed.

Lemma exec_loop_not_out_of_fuel {A} re s (acc : A) (body : rmatch -> A -> run A) :
  (forall m acc, body m acc <> OutOfFuel) ->
  exec_loop regex_exec (S (length s)) re s 0 acc body <> OutOfFuel.
Proof. intros Hbody. apply exec_loop_from; [exact Hbody | lia]. Qed.

Lemma lower_choice_not_out_of_fuel m choices : lower_choice m choices <> OutOfFuel.
Proof. unfold lower_choice. destruct (group m 2); simpl; discriminate. Qed.

Lemma upper_choice_not_out_of_fuel m choices : upper_choice m choices <> OutOfFuel.
Proof.
  unfold upper_choice. destruct (group m 1); simpl; [|discriminate].
  destruct (group m 2); simpl; discriminate.
Qed.

Lemma question_of_match_not_out_of_fuel m questions :
  question_of_match regex_exec m questions <> OutOfFuel.
Proof.
  unfold question_of_match.
  set (questionBlock := match group m 2 with Some (c :: b) => c :: b | _ => m_text m end).
  pose proof (exec_loop_not_out_of_fuel ChoiceLower questionBlock [] lower_choice
                lower_choice_not_out_of_fuel) as Hlower.
  destruct (exec_loop regex_exec (S (length questionBlock)) ChoiceLower questionBlock 0 []
              lower_choice) as [choices| |]; cbn [mbind run_bind bind];
    [|discriminate|done].
  destruct choices as [|ch choices]; cbn [mbind run_bind bind].
  - pose proof (exec_loop_not_out_of_fuel ChoiceUpper questionBlock [] upper_choice
                  upper_choice_not_out_of_fuel) as Hupper.
    destruct (exec_loop regex_exec (S (length questionBlock)) ChoiceUpper questionBlock 0 []
                upper_choice) as [choices| |]; cbn [mbind run_bind bind];
      [|discriminate|done].
    destruct choices; [destruct questionBlock|destruct (trim _)]; discriminate.
  - destruct (trim _); discriminate.
Qed.

Lemma markdown_patterns_not_out_of_fuel patterns rawContent : forall questions,
  markdown_patterns regex_exec patterns rawContent questions <> OutOfFuel.
Proof.
  induction patterns as [|regex patterns IH]; intros questions; [discriminate|].
  cbn [markdown_patterns].
  pose proof (exec_loop_not_out_of_fuel regex rawContent questions
                (question_of_match regex_exec) question_of_match_not_out_of_fuel) as Hloop.
  destruct (exec_loop regex_exec (S (length rawContent)) regex rawContent 0 questions
              (question_of_match regex_exec)) as [questions'| |];
    cbn [mbind run_bind bind]; [|discriminate|done].
  destruct questions'; [apply IH | discriminate].
Qed.

(** With such an engine the function returns an object on every text, in
    both copies. *)
Lemma parseQuestionsFromContent_returns JSON_parse c rawContent :
  exists result,
    parseQuestionsFromContent_of JSON_parse regex_exec c rawContent = Ret result.
Proof.
  assert (H : parse_body regex_exec (block_of JSON_parse c) rawContent <> OutOfFuel).
  { unfold parse_body.
    destruct (collect_returns _ (block_of_returns JSON_parse c) rawContent)
      as (st & -> & _).
    cbn [mbind run_bind bind]. destruct (allQuestions st) as [|q qs].
    - pose proof (markdown_patterns_not_out_of_fuel questionPatterns rawContent [])
        as Hm.
      unfold parseMarkdown.
      destruct (markdown_patterns regex_exec questionPatterns rawContent []);
        cbn [mbind run_bind bind]; [discriminate|discriminate|done].
    - pose proof (dedupe_not_out_of_fuel (q :: qs) [] []) as Hd.
      destruct (dedupe (q :: qs) [] []); cbn [mbind run_bind bind];
        [discriminate|discriminate|done]. }
  destruct c; cbn [parseQuestionsFromContent_of block_of] in *;
    unfold parseQuestionsFromContent, parseQuestionsFromContent_no_repair, try_catch;
    destruct (parse_body _ _ _); eauto; done.
Qed.

End Engine.

Lemma parseQuestionsFromContent_of_unfold JSON_parse regex_exec c rawContent :
  parseQuestionsFromContent_of JSON_parse regex_exec c rawContent
  = try_catch (parse_body regex_exec (block_of JSON_parse c) rawContent)
              (Ret (ParseError rawContent)).
Proof. by destruct c. Qed.

Lemma try_parse_not_out_of_fuel JSON_parse s : try_parse JSON_parse s <> OutOfFuel.
Proof. destruct (try_parse_cases JSON_parse s) as [->|[qs ->]]; discriminate. Qed.

(** C6, as the code has it. When the text of a located block does not parse
    (JSON.parse throws, or reading [questions] of its result does), the copy
    that has the repairer calls JSON.parse once more, on the repaired text,
    and appends what that gives, nothing when it fails too; the copy without
    the repairer makes no second call and appends nothing. In both the cursor
    then is the end of the block; when no closing brace is found the cursor
    is the candidate start plus one and nothing is parsed. The loop goes on
    over the rest of the text: what is accumulated at the end is, in order,
    what each block of the text brings, and the result of the function is
    made from that alone (its outer [catch] is reached from the
    deduplication or from the fallback only). With an engine whose matches
    are not empty the function returns an object on every text. *)
Theorem malformed_block_retried_then_skipped
    (JSON_parse : str -> option jsval)
    (regex_exec : regex_id -> str -> nat -> option rmatch)
    (rawContent : str) (st : scan_state) (jsonStart : nat) :
  find_candidate rawContent (searchStart st) = Some jsonStart ->
  (forall jsonEnd,
     findJsonEnd (drop jsonStart rawContent) jsonStart 0 false false = Some jsonEnd ->
     try_parse JSON_parse (substring rawContent jsonStart jsonEnd) = Throw ->
     (exists fixedJsonStr st',
        Repairer.fixInvalidEscapeSequences (substring rawContent jsonStart jsonEnd)
          = Ret fixedJsonStr /\
        scan_step (parse_block JSON_parse) rawContent st = Ret (Some st') /\
        searchStart st' = jsonEnd /\
        parse_log st'
          = parse_log st ++ [substring rawContent jsonStart jsonEnd; fixedJsonStr] /\
        (try_parse JSON_parse fixedJsonStr = Throw -> allQuestions st' = allQuestions st) /\
        (forall qs, try_parse JSON_parse fixedJsonStr = Ret qs ->
                    allQuestions st' = allQuestions st ++ qs)) /\
     (exists st',
        scan_step (parse_block_no_repair JSON_parse) rawContent st = Ret (Some st') /\
        searchStart st' = jsonEnd /\
        parse_log st' = parse_log st ++ [substring rawContent jsonStart jsonEnd] /\
        allQuestions st' = allQuestions st)) /\
  (findJsonEnd (drop jsonStart rawContent) jsonStart 0 false false = None ->
   forall c,
     exists st',
       scan_step (block_of JSON_parse c) rawContent st = Ret (Some st') /\
       searchStart st' = jsonStart + 1 /\
       allQuestions st' = allQuestions st /\
       parse_log st' = parse_log st) /\
  (forall c,
     exists final,
       collect (block_of JSON_parse c) rawContent = Ret final /\
       allQuestions final
         = concat (map (brought (block_of JSON_parse c)) (blocks rawContent)) /\
       cursor_log final = map cursor_after (candidates rawContent) /\
       parseQuestionsFromContent_of JSON_parse regex_exec c rawContent
       = try_catch
           match allQuestions final with
           | _ :: _ => uniqueQuestions ← dedupe (allQuestions final) [] [];
                       Ret (Questions uniqueQuestions)
           | [] => questions ← parseMarkdown regex_exec rawContent;
                   Ret (Questions questions)
           end
           (Ret (ParseError rawContent))) /\
  (advancing regex_exec ->
   forall c, exists result,
     parseQuestionsFromContent_of JSON_parse regex_exec c rawContent = Ret result).
Proof.
  intros Hcand. split; [|split; [|split]].
  - intros jsonEnd Hend Hfail. split.
    + destruct (RepairerFacts.fixInvalidEscapeSequences_returns
                  (substring rawContent jsonStart jsonEnd)) as (fixed & Hfix & _).
      unfold scan_step. rewrite Hcand, Hend. unfold parse_block.
      rewrite Hfail, Hfix. simpl.
      destruct (try_parse_cases JSON_parse fixed) as [Hf|[qs Hf]]; rewrite Hf; simpl;
        eexists fixed, _; (split; [reflexivity|]); (split; [reflexivity|]); simpl;
        (split; [reflexivity|]); (split; [reflexivity|]); split.
      * intros _. apply app_nil_r.
      * intros qs Hqs. congruence.
      * intros Hthrow. congruence.
      * intros qs' Hqs. congruence.
    + unfold scan_step. rewrite Hcand, Hend. unfold parse_block_no_repair.
      rewrite Hfail. simpl. eexists. split; [reflexivity|]. simpl.
      split; [reflexivity|]. split; [reflexivity | apply app_nil_r].
  - intros Hend c. unfold scan_step. rewrite Hcand, Hend.
    eexists. split; [reflexivity|]. simpl. auto.
  - intros c.
    destruct (collect_trace (block_of JSON_parse c) rawContent (block_of_returns JSON_parse c))
      as (final & Hrun & _ & Hq & _ & Hl & _).
    exists final. split; [exact Hrun|]. split; [exact Hq|]. split; [exact Hl|].
    rewrite parseQuestionsFromContent_of_unfold. unfold parse_body. by rewrite Hrun.
  - intros Hadv c. by apply parseQuestionsFromContent_returns.
Qed.

Lemma malformed_block_retried_then_skipped_witness :
  (exists st',
     scan_step (parse_block scenario_parse) wedge_then_scenario scan_init
       = Ret (Some st') /\
     parse_log st' = [wedge_block; wedge_block_fixed] /\
     allQuestions st' = [] /\
     searchStart st' = 65) /\
  (exists final,
     collect (parse_block scenario_parse) wedge_then_scenario = Ret final /\
     allQuestions final = [scenario_question]).
Proof.
  destruct (malformed_block_retried_then_skipped scenario_parse no_match
              wedge_then_scenario scan_init 6 ltac:(reflexivity))
    as (Hblock & _ & Hall & _).
  split.
  - destruct (Hblock 65 ltac:(reflexivity) ltac:(reflexivity))
      as ((fixed & st' & Hfix & Hstep & Hcur & Hlog & Hnone & _) & _).
    assert (fixed = wedge_block_fixed) as ->.
    { change (substring wedge_then_scenario 6 65) with wedge_block in Hfix.
      assert (Hc : Repairer.fixInvalidEscapeSequences wedge_block = Ret wedge_block_fixed)
        by (vm_compute; reflexivity).
      congruence. }
    exists st'. split; [exact Hstep|]. split; [exact Hlog|]. split; [|exact Hcur].
    apply Hnone. reflexivity.
  - destruct (Hall WithRepairer) as (final & Hrun & Hq & _ & _).
    exists final. split; [exact Hrun|]. rewrite Hq. vm_compute. reflexivity.
Defined.

(** The copy without the repairer on the block with the invalid escape, under
    a JSON.parse that accepts the repaired text: one call, no second one, and
    the question is lost, which the other copy recovers. *)
Lemma malformed_block_not_retried_without_repairer :
  try_parse wedge_parse wedge_block = Throw /\
  Repairer.fixInvalidEscapeSequences wedge_block = Ret wedge_block_fixed /\
  try_parse wedge_parse wedge_block_fixed = Ret [wedge_question] /\
  (exists st,
     collect (parse_block_no_repair wedge_parse) wedge_raw = Ret st /\
     parse_log st = [wedge_block] /\
     allQuestions st = []) /\
  parseQuestionsFromContent_no_repair wedge_parse no_match wedge_raw
    = Ret (Questions []) /\
  parseQuestionsFromContent wedge_parse no_match wedge_raw
    = Ret (Questions [wedge_question]).
Proof.
  split; [vm_compute; reflexivity|]. split; [vm_compute; reflexivity|].
  split; [vm_compute; reflexivity|]. split.
  - eexists. split; [vm_compute; reflexivity|]. split; reflexivity.
  - split; vm_compute; reflexivity.
Qed.

(** The end-to-end scenario: one block between prose, one question. *)
Example scenario_extracted :
  parseQuestionsFromContent scenario_parse no_match scenario_raw
    = Ret (Questions [scenario_question]).
Proof. vm_compute. reflexivity. Qed.

Lemma sameValueZero_eq a b : sameValueZero a b = true -> a = b.
Proof.
  destruct a, b; simpl; try discriminate; try reflexivity; intros H.
  - apply Bool.eqb_prop in H. by subst.
  - apply Z.eqb_eq in H. by subst.
  - apply bool_decide_eq_true in H. by subst.
Qed.

Lemma getProp_label q :
  nullish q = false -> getProp q "question_label" = Ret (label_of q).
Proof. destruct q; simpl; try discriminate; reflexivity. Qed.

Lemma existsb_snoc {A} (f : A -> bool) l x :
  existsb f (l ++ [x]) = existsb f l || f x.
Proof. rewrite existsb_app. simpl. by rewrite orb_false_r. Qed.

(** The Set of the source holds the keys of the questions kept so far; a
    question is in it exactly when an earlier question has the same key. *)
Lemma dedupe_first_seen qs : forall seenLabels earlier uniqueQuestions,
  Forall (fun q => nullish q = false) qs ->
  (forall k, existsb (sameValueZero k) seenLabels
             = existsb (fun e => sameValueZero k (or_else (label_of e) (JStr []))) earlier) ->
  dedupe qs seenLabels uniqueQuestions
    = Ret (uniqueQuestions ++ first_seen same_set_key earlier qs).
Proof.
  induction qs as [|q qs IH]; intros seen earlier uniq Hq Hseen; simpl.
  - by rewrite app_nil_r.
  - apply Forall_cons in Hq as [Hq Hqs]. rewrite (getProp_label q Hq). simpl.
    unfold same_set_key at 1. fold (same_set_key). rewrite (Hseen _).
    destruct (existsb _ earlier) eqn:Hdup.
    + apply IH; [exact Hqs|]. intros k. rewrite existsb_snoc, <- Hseen.
      destruct (sameValueZero k (or_else (label_of q) (JStr []))) eqn:Hk;
        [|by rewrite orb_false_r].
      apply sameValueZero_eq in Hk. subst k. rewrite orb_true_r, Hseen. exact Hdup.
    + rewrite (IH (seen ++ [or_else (label_of q) (JStr [])]) (earlier ++ [q])
                 (uniq ++ [q]) Hqs).
      * by rewrite <- app_assoc.
      * intros k. rewrite !existsb_snoc, Hseen. reflexivity.
Qed.

Lemma dedupe_throws qs : forall seenLabels uniqueQuestions,
  Exists (fun q => nullish q = true) qs ->
  dedupe qs seenLabels uniqueQuestions = Throw.
Proof.
  induction qs as [|q qs IH]; intros seen uniq Hex; [by apply Exists_nil in Hex|].
  simpl. destruct (nullish q) eqn:Hq.
  - destruct q; try discriminate; reflexivity.
  - apply Exists_cons in Hex as [Hex|Hex]; [congruence|].
    rewrite (getProp_label q Hq). simpl. destruct (existsb _ seen); by apply IH.
Qed.

Lemma parse_body_unfold block regex_exec rawContent st :
  collect block rawContent = Ret st ->
  parse_body regex_exec block rawContent
  = match allQuestions st with
    | _ :: _ => uniqueQuestions ← dedupe (allQuestions st) [] [];
                Ret (Questions uniqueQuestions)
    | [] => questions ← parseMarkdown regex_exec rawContent;
            Ret (Questions questions)
    end.
Proof. intros H. unfold parse_body. rewrite H. reflexivity. Qed.

(** C5, as the code has it, in both copies: what is accumulated is what the
    blocks of the text bring, in order; when it is not empty, the result is
    the accumulated array with, for each key, only the first question that
    has it, in order; the key is the label itself, or the empty string for a
    falsy label, compared as the Set compares (no coercion to string). When
    all labels are strings this is the comparison of the strings. An element
    that is null makes the function return its error object. *)
Theorem dedupe_keeps_first_of_each_key
    (JSON_parse : str -> option jsval)
    (regex_exec : regex_id -> str -> nat -> option rmatch)
    (c : copy) (rawContent : str) (st : scan_state) :
  collect (block_of JSON_parse c) rawContent = Ret st ->
  allQuestions st <> [] ->
  allQuestions st = concat (map (brought (block_of JSON_parse c)) (blocks rawContent)) /\
  (Forall (fun q => nullish q = false) (allQuestions st) ->
     parseQuestionsFromContent_of JSON_parse regex_exec c rawContent
       = Ret (Questions (first_seen same_set_key [] (allQuestions st)))) /\
  (Exists (fun q => nullish q = true) (allQuestions st) ->
     parseQuestionsFromContent_of JSON_parse regex_exec c rawContent
       = Ret (ParseError rawContent)) /\
  (forall q1 q2 s1 s2,
     label_of q1 = JStr s1 -> label_of q2 = JStr s2 ->
     same_set_key q1 q2 = string_coerced_equal q1 q2).
Proof.
  intros Hrun Hne. split.
  { destruct (collect_trace (block_of JSON_parse c) rawContent
                (block_of_returns JSON_parse c)) as (st' & Hrun' & _ & Hq & _).
    assert (st' = st) as -> by congruence. exact Hq. }
  rewrite parseQuestionsFromContent_of_unfold, (parse_body_unfold _ _ _ _ Hrun).
  destruct (allQuestions st) as [|q qs] eqn:Hall; [done|].
  split; [|split].
  - intros Hok. rewrite (dedupe_first_seen (q :: qs) [] [] [] Hok); [reflexivity|].
    intros k. reflexivity.
  - intros Hex. by rewrite (dedupe_throws (q :: qs) [] [] Hex).
  - intros q1 q2 s1 s2 H1 H2. unfold same_set_key, string_coerced_equal.
    rewrite H1, H2. simpl. unfold or_else. simpl.
    destruct s1, s2; simpl; reflexivity.
Qed.

Lemma dedupe_keeps_first_of_each_key_witness :
  parseQuestionsFromContent two_blocks_parse no_match two_blocks
    = Ret (Questions [labelled "5" "first"; labelled "6" "other"; labelled "7" "last"]) /\
  parseQuestionsFromContent_no_repair two_blocks_parse no_match two_blocks
    = Ret (Questions [labelled "5" "first"; labelled "6" "other"; labelled "7" "last"]).
Proof.
  assert (Hrun : forall c, exists st,
            collect (block_of two_blocks_parse c) two_blocks = Ret st /\
            allQuestions st = [labelled "5" "first"; labelled "6" "other";
                               labelled "5" "again"; labelled "7" "last"]).
  { intros c. destruct c; eexists; (split; [vm_compute; reflexivity | reflexivity]). }
  split.
  - destruct (Hrun WithRepairer) as (st & Hst & Hall).
    destruct (dedupe_keeps_first_of_each_key two_blocks_parse no_match WithRepairer
                two_blocks st Hst ltac:(rewrite Hall; discriminate)) as (_ & Hok & _).
    cbn [parseQuestionsFromContent_of] in Hok.
    rewrite Hok; rewrite Hall; [reflexivity|]. repeat constructor.
  - destruct (Hrun WithoutRepairer) as (st & Hst & Hall).
    destruct (dedupe_keeps_first_of_each_key two_blocks_parse no_match WithoutRepairer
                two_blocks st Hst ltac:(rewrite Hall; discriminate)) as (_ & Hok & _).
    cbn [parseQuestionsFromContent_of] in Hok.
    rewrite Hok; rewrite Hall; [reflexivity|]. repeat constructor.
Defined.

(** Two questions labelled 1 and "1" have equal string-coerced labels, and
    the extractor keeps both. *)
Lemma number_and_string_labels_both_kept :
  string_coerced_equal question_num_1 question_str_1 = true /\
  first_seen string_coerced_equal [] [question_num_1; question_str_1] = [question_num_1] /\
  parseQuestionsFromContent num_str_parse no_match num_str_block
    = Ret (Questions [question_num_1; question_str_1]) /\
  parseQuestionsFromContent_no_repair num_str_parse no_match num_str_block
    = Ret (Questions [question_num_1; question_str_1]).
Proof. split; [|split; [|split]]; vm_compute; reflexivity. Qed.

Lemma exec_loop_no_match {A} regex_exec fuel re s (acc : A) body :
  regex_exec re s 0 = None ->
  exec_loop regex_exec (S fuel) re s 0 acc body = Ret acc.
Proof. intros H. simpl. by rewrite H. Qed.

Lemma concat_nil_Forall {A} (ls : list (list A)) :
  concat ls = [] <-> Forall (fun l => l = []) ls.
Proof.
  induction ls as [|l ls IH]; simpl; [by split|].
  split.
  - intros H. apply app_eq_nil in H as [-> H]. constructor; [reflexivity | by apply IH].
  - intros H. apply Forall_cons in H as [-> H]. by apply IH.
Qed.

Lemma brought_parse_block JSON_parse s :
  brought (parse_block JSON_parse) s
  = match try_parse JSON_parse s with
    | Ret qs => qs
    | _ =>
        match Repairer.fixInvalidEscapeSequences s with
        | Ret fixedJsonStr =>
            match try_parse JSON_parse fixedJsonStr with
            | Ret qs => qs
            | _ => []
            end
        | _ => []
        end
    end.
Proof.
  unfold brought, parse_block.
  destruct (try_parse_cases JSON_parse s) as [->|[qs ->]]; [|reflexivity].
  destruct (Repairer.fixInvalidEscapeSequences s) as [fixed| |]; [|reflexivity..].
  cbn [mbind run_bind bind]. by destruct (try_parse JSON_parse fixed).
Qed.

(** C7, as the code has it: the extractor returns the markdown fallback's
    result exactly when no question was accumulated, that is when every block
    of the text brings none: when the text has no block, and also when each
    of its blocks fails to parse even after repair, or parses to a value with
    no [questions] array or with an empty one; when some block brings a
    question it returns the deduplicated accumulated questions; and when
    nothing was accumulated and no question pattern matches the text, the
    result is the object with an empty questions array. *)
Theorem fallback_when_nothing_accumulated
    (JSON_parse : str -> option jsval)
    (regex_exec : regex_id -> str -> nat -> option rmatch)
    (rawContent : str) :
  let brought := brought (parse_block JSON_parse) in
  exists st,
    collect (parse_block JSON_parse) rawContent = Ret st /\
    allQuestions st = concat (map brought (blocks rawContent)) /\
    jsonBlockCount st = length (blocks rawContent) /\
    (Forall (fun s => brought s = []) (blocks rawContent) ->
       parseQuestionsFromContent JSON_parse regex_exec rawContent
         = try_catch (questions ← parseMarkdown regex_exec rawContent;
                      Ret (Questions questions))
                     (Ret (ParseError rawContent))) /\
    (Exists (fun s => brought s <> []) (blocks rawContent) ->
       parseQuestionsFromContent JSON_parse regex_exec rawContent
         = try_catch (uniqueQuestions ← dedupe (allQuestions st) [] [];
                      Ret (Questions uniqueQuestions))
                     (Ret (ParseError rawContent))) /\
    (forall s,
       try_parse JSON_parse s = Throw ->
       (forall fixedJsonStr,
          Repairer.fixInvalidEscapeSequences s = Ret fixedJsonStr ->
          try_parse JSON_parse fixedJsonStr = Throw) ->
       brought s = []) /\
    (forall s parsed q,
       JSON_parse s = Some parsed ->
       getProp parsed "questions" = Ret q ->
       (forall x items, q <> JArr (x :: items)) ->
       brought s = []) /\
    (Forall (fun s => brought s = []) (blocks rawContent) ->
     (forall regex, regex ∈ questionPatterns -> regex_exec regex rawContent 0 = None) ->
     parseQuestionsFromContent JSON_parse regex_exec rawContent = Ret (Questions [])).
Proof.
  intros brought.
  destruct (collect_trace (parse_block JSON_parse) rawContent (parse_block_returns JSON_parse))
    as (st & Hrun & _ & Hq & _ & _ & Hn & _).
  fold brought in Hq.
  exists st. split; [exact Hrun|]. split; [exact Hq|]. split; [exact Hn|].
  assert (Hnone : Forall (fun s => brought s = []) (blocks rawContent) ->
                  allQuestions st = []).
  { intros Hall. rewrite Hq. apply concat_nil_Forall, Forall_fmap.
    eapply Forall_impl; [exact Hall|]. done. }
  assert (Hsome : Exists (fun s => brought s <> []) (blocks rawContent) ->
                  allQuestions st <> []).
  { intros Hex Hnil. rewrite Hq in Hnil. apply concat_nil_Forall, Forall_fmap in Hnil.
    apply Exists_exists in Hex as (s & Hs & Hne). rewrite Forall_forall in Hnil.
    by apply Hne, Hnil. }
  unfold parseQuestionsFromContent. rewrite (parse_body_unfold _ _ _ _ Hrun).
  split; [|split; [|split; [|split]]].
  - intros Hall. by rewrite (Hnone Hall).
  - intros Hex. apply Hsome in Hex. by destruct (allQuestions st).
  - intros s Hthrow Hfixed. unfold brought. rewrite brought_parse_block, Hthrow.
    destruct (Repairer.fixInvalidEscapeSequences s) as [fixed| |]; [|reflexivity..].
    by rewrite (Hfixed fixed eq_refl).
  - intros s parsed q Hparsed Hprop Harr. unfold brought.
    rewrite brought_parse_block. unfold try_parse. rewrite Hparsed, Hprop.
    cbn [mbind run_bind bind mret run_ret].
    destruct q as [| | | | |items|]; try reflexivity.
    destruct items as [|x items]; [reflexivity|]. by destruct (Harr x items).
  - intros Hall Hno. rewrite (Hnone Hall). unfold parseMarkdown, questionPatterns.
    cbn [markdown_patterns].
    repeat (rewrite exec_loop_no_match by (apply Hno; set_solver);
            cbn [mbind run_bind bind markdown_patterns]).
    reflexivity.
Qed.

Lemma fallback_when_nothing_accumulated_witness :
  blocks wedge_raw = [wedge_block] /\
  parseQuestionsFromContent (fun _ => None) no_match wedge_raw = Ret (Questions []).
Proof.
  split; [vm_compute; reflexivity|].
  destruct (fallback_when_nothing_accumulated (fun _ => None) no_match wedge_raw)
    as (st & _ & _ & _ & _ & _ & Hfail & _ & Hempty).
  apply Hempty; [|reflexivity].
  assert (Hblocks : blocks wedge_raw = [wedge_block]) by (vm_compute; reflexivity).
  rewrite Hblocks. constructor; [|constructor].
  apply Hfail; [reflexivity | intros fixedJsonStr _; reflexivity].
Defined.

(** A block is found and parsed, it holds no question, and a numbered
    question follows it: the merged, deduplicated result of the blocks is
    empty, and the function returns the question the fallback reads. *)
Lemma fallback_although_a_block_was_found :
  blocks block_then_numbered = [empty_block] /\
  try_parse empty_parse empty_block = Ret [] /\
  (exists st,
     collect (parse_block empty_parse) block_then_numbered = Ret st /\
     jsonBlockCount st = 1 /\
     allQuestions st = [] /\
     dedupe (allQuestions st) [] [] = Ret []) /\
  parseMarkdown numbered_engine block_then_numbered = Ret [numbered_question] /\
  parseQuestionsFromContent empty_parse numbered_engine block_then_numbered
    = Ret (Questions [numbered_question]).
Proof.
  split; [vm_compute; reflexivity|]. split; [vm_compute; reflexivity|]. split.
  - eexists. split; [vm_compute; reflexivity|]. repeat split; reflexivity.
  - split; vm_compute; reflexivity.
Qed.

End ExtractorFacts.

Module MatcherFacts.
Import JS Matcher.

Lemma last_snoc_filter {A} (P : A -> Prop) `{!forall x, Decision (P x)} (x : A) l :
  last (filter P (x :: l))
  = match last (filter P l) with
    | Some y => Some y
    | None => if decide (P x) then Some x else None
    end.
Proof.
  rewrite filter_cons. destruct (decide (P x)) as [HP|HP]; [|by destruct (last _)].
  destruct (filter P l) as [|y l']; [reflexivity|]. rewrite last_cons.
  by destruct (last (y :: l')).
Qed.

(** The Map holds, under each key, the last solution with a truthy label
    whose string is that key. *)
Lemma solutionsMap_lookup solutions : forall (m : gmap str ExtractedSolution) key,
  foldl add_solution m solutions !! key
  = match last (filter (fun s => truthy (solution_label s) = true /\
                                 toString (solution_label s) = key) solutions) with
    | Some s => Some s
    | None => m !! key
    end.
Proof.
  induction solutions as [|s solutions IH]; intros m key; [reflexivity|].
  cbn [foldl]. rewrite IH, last_snoc_filter.
  destruct (last (filter _ solutions)); [reflexivity|].
  unfold add_solution. destruct (decide _) as [[Ht Hk]|Hn].
  - rewrite Ht, Hk. apply lookup_insert_eq.
  - destruct (truthy (solution_label s)) eqn:Ht; [|reflexivity].
    apply lookup_insert_ne. intros Hk. apply Hn. by split.
Qed.

Lemma merge_question_lookup solutions question :
  build_solutionsMap solutions
    !! toString (or_else (question_label question) (JStr []))
  = last_match question solutions.
Proof.
  unfold build_solutionsMap, last_match. rewrite solutionsMap_lookup, lookup_empty.
  unfold matches. by destruct (last _).
Qed.

Lemma last_filter_Some {A} (P : A -> Prop) `{!forall x, Decision (P x)} l :
  is_Some (last (filter P l)) <-> exists x, x ∈ l /\ P x.
Proof.
  split.
  - intros [x Hx]. exists x. apply last_Some in Hx as [l' Hx].
    assert (Hin : x ∈ filter P l) by (rewrite Hx; set_solver).
    by apply list_elem_of_filter in Hin as [? ?].
  - intros (x & Hin & HP).
    assert (Hf : x ∈ filter P l) by (apply list_elem_of_filter; done).
    destruct (filter P l) as [|y l'] eqn:E; [by apply elem_of_nil in Hf|].
    rewrite last_cons. destruct (last l'); eauto.
Qed.

Lemma filter_complement_length {A} (f : A -> bool) l :
  length (filter (fun x => f x = true) l) + length (filter (fun x => f x = false) l)
  = length l.
Proof.
  induction l as [|x l IH]; [reflexivity|]. rewrite !filter_cons.
  destruct (f x) eqn:Hf; repeat case_decide; try congruence; simpl; lia.
Qed.

(** C3, as the code has it: the item of a question has a solution exactly
    when some solution has a truthy label whose string equals the string of
    the question's label (an absent or falsy question label counts as the
    empty string); the optional fields come from the last such solution and
    are set exactly when truthy there; matched and unmatched count the items
    with and without a solution. *)
Theorem prepare_matches_on_coerced_labels
    (questions : list ExtractedQuestion) (solutions : list ExtractedSolution) :
  length (items (prepare questions solutions)) = length questions /\
  (forall i question,
     questions !! i = Some question ->
     exists item,
       items (prepare questions solutions) !! i = Some item /\
       item_question_label item = question_label question /\
       item_text item = text question /\
       (has_solution item = true <->
          exists solution, solution ∈ solutions /\ matches question solution) /\
       item_answer_key item
         = last_match question solutions ≫= (fun s => copy_if_truthy (answer_key s)) /\
       item_worked_solution item
         = last_match question solutions ≫= (fun s => copy_if_truthy (worked_solution s)) /\
       item_explanation item
         = last_match question solutions ≫= (fun s => copy_if_truthy (explanation s))) /\
  matched (prepare questions solutions)
    = length (filter (fun item => has_solution item = true)
                     (items (prepare questions solutions))) /\
  unmatched (prepare questions solutions)
    = length (filter (fun item => has_solution item = false)
                     (items (prepare questions solutions))).
Proof.
  split; [apply length_map|]. split; [|split; [reflexivity|]].
  - intros i question Hi. exists (merge_question (build_solutionsMap solutions) question).
    split; [cbn [prepare items]; by rewrite list_lookup_fmap, Hi|].
    unfold merge_question. cbn. rewrite merge_question_lookup.
    split; [reflexivity|]. split; [reflexivity|]. split; [|done].
    rewrite bool_decide_eq_true. apply last_filter_Some.
  - cbn [prepare matched unmatched items].
    pose proof (filter_complement_length has_solution
                  (map (merge_question (build_solutionsMap solutions)) questions)).
    lia.
Qed.

(** The matcher scenario of the specification: questions 1 and 2, one
    solution for 2. *)
Example prepare_scenario :
  let r := prepare [numbered_question 1; numbered_question 2]
                   [labelled_solution "2" "B"] in
  map has_solution (items r) = [false; true] /\
  map item_answer_key (items r) = [None; Some (JStr (chars "B"))] /\
  matched r = 1 /\ unmatched r = 1.
Proof. vm_compute. by repeat split. Qed.

Lemma prepare_matches_on_coerced_labels_witness :
  exists item,
    items (prepare [numbered_question 1] [labelled_solution "1" "B"]) !! 0 = Some item /\
    has_solution item = true /\
    item_answer_key item = Some (JStr (chars "B")) /\
    item_worked_solution item = None.
Proof.
  destruct (prepare_matches_on_coerced_labels
              [numbered_question 1] [labelled_solution "1" "B"]) as (_ & Hitems & _).
  destruct (Hitems 0 (numbered_question 1) ltac:(reflexivity))
    as (item & Hi & _ & _ & Hhas & Hkey & Hworked & _).
  exists item. split; [exact Hi|]. split; [|split; [exact Hkey | exact Hworked]].
  apply Hhas. exists (labelled_solution "1" "B").
  split; [apply list_elem_of_here | split; reflexivity].
Defined.

(** A question labelled with the number 0 and a solution labelled with the
    string of the digit 0: the labels coerced to strings are equal, and the
    item has no solution. *)
Lemma zero_label_not_matched :
  labels_coerce_equal (numbered_question 0) (labelled_solution "0" "B") /\
  items (prepare [numbered_question 0] [labelled_solution "0" "B"])
    = [ {| item_question_label := JNum 0; item_text := JStr (chars "2+2=?");
           item_choices := JArr []; has_solution := false;
           item_answer_key := None; item_worked_solution := None;
           item_explanation := None |} ].
Proof. split; vm_compute; reflexivity. Qed.

End MatcherFacts.

Module ReverseSyncFacts.
Import JS ReverseSync.



Section Engine.
Context {Item Ctx : Type} `{!Syncer Item Ctx}.
Variable context : Ctx.
Variable all_rows : list Item.

(** A property [R] of the documents written so far, the statistics and the
    collection that every call of [batchUpsert] on a batch of the run
    carries forward, and that the skip and error counters do not disturb. *)
Variable R : list document -> SyncStats -> mongo -> Prop.

Hypothesis R_upsert : forall done b rest s d,
  omap (document_of context) all_rows = done ++ b ++ rest ->
  b ∈ chunks BATCH_SIZE (omap (document_of context) all_rows) ->
  R done s d ->
  R (done ++ b) (batchUpsert b s d).1 (batchUpsert b s d).2.
Hypothesis R_skip : forall done s d, R done s d -> R done (incr_skipped s) d.
Hypothesis R_error : forall done s d, R done s d -> R done (add_errors 1 s) d.

Local Abbreviation loop_inv := (ReverseSync.loop_inv context all_rows R).

Lemma sync_item_inv item rows st :
  loop_inv (item :: rows) st -> loop_inv rows (sync_item context st item).
Proof.
  intros (Hall & Hchunks & HR & Hlen). unfold sync_item.
  assert (Hleb : (BATCH_SIZE <=? length (batch st)) = false)
    by (apply Nat.leb_gt; exact Hlen).
  cbn [omap list_omap] in Hall, Hchunks.
  destruct (lacks_ref_id (ref_id item)) eqn:Href.
  { assert (Hdoc : document_of context item = None)
      by (unfold document_of; by rewrite Href).
    rewrite Hdoc in Hall, Hchunks.
    split; [exact Hall|]. split; [exact Hchunks|]. split; [|exact Hlen].
    apply R_skip, HR. }
  destruct (transformItem item context) as [d| |] eqn:Htr.
  - assert (Hdoc : document_of context item = Some d)
      by (unfold document_of; by rewrite Href, Htr).
    rewrite Hdoc in Hall, Hchunks.
    cbn [chunks_go] in Hchunks. cbn [set_batch batch].
    destruct (Nat.leb_spec BATCH_SIZE (length (batch st ++ [d]))) as [Hfull|Hroom].
    + unfold call_batchUpsert. cbn [batch stats db sent set_batch].
      destruct (batchUpsert (batch st ++ [d]) (stats st) (db st)) as [stats' db'] eqn:Hup.
      unfold ReverseSync.loop_inv. cbn [batch stats db sent set_batch].
      rewrite concat_app. cbn [concat]. rewrite app_nil_r.
      split; [rewrite Hall, <- !app_assoc; reflexivity|].
      split; [rewrite Hchunks, <- app_assoc; reflexivity|].
      split; [|unfold BATCH_SIZE; simpl; lia].
      pose proof (R_upsert (concat (sent st)) (batch st ++ [d])
                    (omap (document_of context) rows) (stats st) (db st)) as Hstep.
      rewrite Hup in Hstep. apply Hstep; [|rewrite Hchunks; set_solver|exact HR].
      rewrite Hall, <- !app_assoc. reflexivity.
    + unfold ReverseSync.loop_inv. cbn [batch stats db sent set_batch].
      split; [rewrite Hall, <- !app_assoc; reflexivity|].
      split; [exact Hchunks|]. split; [exact HR | exact Hroom].
  - assert (Hdoc : document_of context item = None)
      by (unfold document_of; by rewrite Href, Htr).
    rewrite Hdoc in Hall, Hchunks.
    cbn [map_stats batch]. rewrite Hleb.
    split; [exact Hall|]. split; [exact Hchunks|]. split; [|exact Hlen].
    apply R_skip, HR.
  - assert (Hdoc : document_of context item = None)
      by (unfold document_of; by rewrite Href, Htr).
    rewrite Hdoc in Hall, Hchunks.
    split; [exact Hall|]. split; [exact Hchunks|]. split; [|exact Hlen].
    apply R_error, HR.
Qed.

Lemma foldl_sync_inv pre : forall rest st,
  loop_inv (pre ++ rest) st -> loop_inv rest (foldl (sync_item context) st pre).
Proof.
  induction pre as [|item pre IH]; intros rest st Hinv; [exact Hinv|].
  simpl. apply IH, sync_item_inv, Hinv.
Qed.

Lemma sync_start_inv db0 :
  R [] (set_total (length all_rows) createStats) db0 ->
  loop_inv all_rows (sync_start all_rows db0).
Proof.
  intros HR. split; [reflexivity|]. split; [reflexivity|].
  split; [exact HR | unfold BATCH_SIZE; simpl; lia].
Qed.

Lemma sync_inv db0 :
  R [] (set_total (length all_rows) createStats) db0 ->
  R (omap (document_of context) all_rows)
    (stats (sync context all_rows db0)) (db (sync context all_rows db0)) /\
  sent (sync context all_rows db0)
    = chunks BATCH_SIZE (omap (document_of context) all_rows).
Proof.
  intros HR.
  pose proof (foldl_sync_inv all_rows [] (sync_start all_rows db0)) as Hinv.
  rewrite app_nil_r in Hinv. specialize (Hinv (sync_start_inv db0 HR)).
  destruct Hinv as (Hall & Hchunks & HRf & Hlen).
  cbn [omap list_omap chunks_go] in Hall, Hchunks. rewrite app_nil_r in Hall.
  assert (Hsync : sync context all_rows db0
                  = match batch (foldl (sync_item context) (sync_start all_rows db0) all_rows) with
                    | [] => foldl (sync_item context) (sync_start all_rows db0) all_rows
                    | _ => call_batchUpsert
                             (foldl (sync_item context) (sync_start all_rows db0) all_rows)
                    end).
  { unfold sync. destruct all_rows; reflexivity. }
  rewrite Hsync. clear Hsync.
  set (st := foldl (sync_item context) (sync_start all_rows db0) all_rows) in *.
  destruct (batch st) as [|d b] eqn:Hb.
  - rewrite app_nil_r in Hall, Hchunks.
    split; [rewrite Hall; exact HRf | by rewrite Hchunks].
  - unfold call_batchUpsert. rewrite Hb.
    destruct (batchUpsert (d :: b) (stats st) (db st)) as [stats' db'] eqn:Hup.
    cbn [stats db sent]. split; [|by rewrite Hchunks].
    pose proof (R_upsert (concat (sent st)) (d :: b) [] (stats st) (db st)) as Hstep.
    rewrite Hup in Hstep. rewrite Hall at 1. apply Hstep; [|rewrite Hchunks; set_solver|exact HRf].
    rewrite Hall at 1. by rewrite app_nil_r.
Qed.

End Engine.



(** *** The collection under deletes and upserts *)

Lemma deleteMany_lookup doc (ds : gmap N (gmap string bson)) i d :
  deleteMany doc ds !! i = Some d <-> ds !! i = Some d /\ ~ conflicts_with doc i d.
Proof. unfold deleteMany. by rewrite map_lookup_filter_Some. Qed.

Lemma deletes_lookup b : forall (ds : gmap N (gmap string bson)) i d,
  foldl (fun ds doc => deleteMany doc ds) ds b !! i = Some d
  <-> ds !! i = Some d /\ forall doc, doc ∈ b -> ~ conflicts_with doc i d.
Proof.
  induction b as [|doc b IH]; intros ds i d; simpl.
  - split; [intros H; split; [exact H | intros ? Hin; by apply elem_of_nil in Hin] | tauto].
  - rewrite IH, deleteMany_lookup. split.
    + intros [[Hd Hdoc] Hb]. split; [exact Hd|]. intros doc' Hin.
      apply elem_of_cons in Hin as [->|Hin]; [exact Hdoc | by apply Hb].
    + intros [Hd Hall]. split; [split; [exact Hd|]|].
      * apply Hall, list_elem_of_here.
      * intros doc' Hin. by apply Hall, list_elem_of_further.
Qed.

Lemma unique_key_union (set old : gmap string bson) :
  is_Some (set !! "order") -> is_Some (set !! "chapter") -> is_Some (set !! "type") ->
  unique_key (set ∪ old) = unique_key set.
Proof.
  intros [o Ho] [c Hc] [t Ht]. unfold unique_key, fieldOf.
  by rewrite (lookup_union_Some_l _ _ _ _ Ho), (lookup_union_Some_l _ _ _ _ Hc),
             (lookup_union_Some_l _ _ _ _ Ht), Ho, Hc, Ht.
Qed.

Lemma unique_key_stamp now (f : gmap string bson) :
  unique_key (<["updated_at" := now]> f) = unique_key f.
Proof. unfold unique_key, fieldOf. by rewrite !lookup_insert_ne. Qed.


(** An upsert either is applied, and then no other document holds the key
    when the index is enforced and the document changes, or is refused. *)
Lemma updateOne_spec unique id set setOnInsert ds r :
  let new := written ds id set setOnInsert in
  let res := updateOne unique id set setOnInsert (ds, r) in
  (res.1 = <[id := new]> ds /\ writeErrors res.2 = writeErrors r /\
   (unique = true -> ds !! id = Some new \/ ~ duplicate_key ds id new)) \/
  (res.1 = ds /\ writeErrors res.2 = S (writeErrors r) /\ unique = true).
Proof.
  unfold written, updateOne. destruct (ds !! id) as [old|] eqn:Hold.
  - case_bool_decide as Hsame.
    + left. rewrite Hsame. split; [by rewrite insert_id|]. split; [reflexivity|].
      intros _. by left.
    + destruct unique; simpl.
      * case_bool_decide as Hdup; [right; by repeat split|].
        left. split; [reflexivity|]. split; [reflexivity|]. intros _. by right.
      * left. split; [reflexivity|]. split; [reflexivity|]. discriminate.
  - destruct unique; simpl.
    + case_bool_decide as Hdup; [right; by repeat split|].
      left. split; [reflexivity|]. split; [reflexivity|]. intros _. by right.
    + left. split; [reflexivity|]. split; [reflexivity|]. discriminate.
Qed.

Lemma secondary_unique_insert ds id new :
  secondary_unique ds ->
  (ds !! id = Some new \/ ~ duplicate_key ds id new) ->
  secondary_unique (<[id := new]> ds).
Proof.
  intros Hu [Hsame|Hdup]; [by rewrite insert_id|].
  intros i j di dj Hi Hj Hk.
  destruct (decide (i = j)) as [|Hij]; [done|]. exfalso.
  destruct (decide (id = i)) as [->|Hi'].
  - rewrite lookup_insert_eq in Hi. rewrite lookup_insert_ne in Hj by done.
    assert (di = new) as -> by congruence. apply Hdup.
    unfold duplicate_key, map_Exists.
    exists j, dj. split; [exact Hj|]. split; [intros ->; by apply Hij | exact (eq_sym Hk)].
  - rewrite lookup_insert_ne in Hi by done.
    destruct (decide (id = j)) as [->|Hj'].
    + rewrite lookup_insert_eq in Hj. assert (dj = new) as -> by congruence.
      apply Hdup. unfold duplicate_key, map_Exists.
      exists i, di. split; [exact Hi|]. split; [intros ->; by apply Hi' | exact Hk].
    + rewrite lookup_insert_ne in Hj by done. apply Hij. eapply Hu; eauto.
Qed.

Lemma upserts_enforced (gset : document -> gmap string bson) soi b :
  forall ds r,
    secondary_unique ds ->
    secondary_unique
      (foldl (fun acc doc => updateOne true (_id doc) (gset doc) soi acc) (ds, r) b).1.
Proof.
  induction b as [|doc b IH]; intros ds r Hu; [exact Hu|].
  cbn [foldl].
  pose proof (updateOne_spec true (_id doc) (gset doc) soi ds r) as Hspec.
  destruct (updateOne true (_id doc) (gset doc) soi (ds, r)) as [ds' r'].
  apply IH. cbn [fst snd] in Hspec.
  destruct Hspec as [(-> & _ & Hdup)|(-> & _ & _)]; [|exact Hu].
  apply secondary_unique_insert; [exact Hu | by apply Hdup].
Qed.

(** Without the index, after the upserts of a batch a document of the
    collection is either one the batch did not touch or one a document of the
    batch wrote, with that document's key. *)
Lemma upserts_unindexed now soi b : forall ds r i d,
  Forall has_key_fields b ->
  (foldl (fun acc doc =>
            updateOne false (_id doc) (<["updated_at" := now]> (fields doc)) soi acc)
         (ds, r) b).1 !! i = Some d ->
  (ds !! i = Some d /\ forall doc, doc ∈ b -> _id doc <> i) \/
  (exists doc, doc ∈ b /\ _id doc = i /\ unique_key d = unique_key (fields doc)).
Proof.
  induction b as [|doc b IH]; intros ds r i d Hkeys Hi.
  - left. split; [exact Hi | intros ? Hin; by apply elem_of_nil in Hin].
  - apply Forall_cons in Hkeys as [Hkey Hkeys]. cbn [foldl] in Hi.
    pose proof (updateOne_spec false (_id doc) (<["updated_at" := now]> (fields doc))
                  soi ds r) as Hspec.
    destruct (updateOne false (_id doc) _ soi (ds, r)) as [ds' r'].
    cbn [fst snd] in Hspec. destruct Hspec as [(-> & _ & _)|(_ & _ & ?)]; [|done].
    apply (IH _ _ _ _ Hkeys) in Hi as [[Hi Hother]|(doc' & Hin & Hid & Hk)].
    + rewrite lookup_insert in Hi. destruct (decide (_id doc = i)) as [Heq|Hne].
      * right. exists doc. split; [apply list_elem_of_here|]. split; [exact Heq|].
        simplify_eq. unfold written.
        destruct (ds !! _id doc); rewrite unique_key_union, ?unique_key_stamp;
          try reflexivity; destruct Hkey as (? & ? & ?); by rewrite lookup_insert_ne.
      * left. split; [exact Hi|]. intros doc' Hin.
        apply elem_of_cons in Hin as [->|Hin]; [exact Hne | by apply Hother].
    + right. exists doc'. split; [by apply list_elem_of_further | by split].
Qed.

Lemma secondary_unique_subseteq (ds ds' : gmap N (gmap string bson)) :
  ds' ⊆ ds -> secondary_unique ds -> secondary_unique ds'.
Proof.
  intros Hsub Hu i j di dj Hi Hj Hk.
  eapply Hu; [eapply lookup_weaken; eauto | eapply lookup_weaken; eauto | exact Hk].
Qed.

Lemma deletes_subseteq b : forall ds : gmap N (gmap string bson),
  foldl (fun ds doc => deleteMany doc ds) ds b ⊆ ds.
Proof.
  induction b as [|doc b IH]; intros ds; simpl; [reflexivity|].
  etransitivity; [apply IH | apply map_filter_subseteq].
Qed.

Lemma updateOne_errors_le unique id set soi ds r :
  writeErrors r <= writeErrors (updateOne unique id set soi (ds, r)).2.
Proof.
  destruct (updateOne_spec unique id set soi ds r) as [(_ & -> & _)|(_ & -> & _)]; lia.
Qed.

Lemma upserts_errors_le unique (gset : document -> gmap string bson) soi b :
  forall ds r,
    writeErrors r
    <= writeErrors
         (foldl (fun acc doc => updateOne unique (_id doc) (gset doc) soi acc) (ds, r) b).2.
Proof.
  induction b as [|doc b IH]; intros ds r; [reflexivity|]. cbn [foldl].
  pose proof (updateOne_errors_le unique (_id doc) (gset doc) soi ds r).
  destruct (updateOne unique (_id doc) (gset doc) soi (ds, r)) as [ds' r'].
  etransitivity; [|apply IH]. exact H.
Qed.

(** When no write of a batch is refused, every document of the batch is in
    the collection as [written] left it and the other documents are as they
    were. *)
Lemma upserts_applied unique (gset : document -> gmap string bson) soi b :
  forall ds r,
    NoDup (map _id b) ->
    writeErrors
      (foldl (fun acc doc => updateOne unique (_id doc) (gset doc) soi acc) (ds, r) b).2
    = writeErrors r ->
    (forall doc, doc ∈ b ->
       (foldl (fun acc doc => updateOne unique (_id doc) (gset doc) soi acc) (ds, r) b).1
         !! _id doc
       = Some (written ds (_id doc) (gset doc) soi)) /\
    (forall i, (forall doc, doc ∈ b -> _id doc <> i) ->
       (foldl (fun acc doc => updateOne unique (_id doc) (gset doc) soi acc) (ds, r) b).1
         !! i
       = ds !! i).
Proof.
  induction b as [|doc b IH]; intros ds r Hnd Herr.
  - split; [intros ? Hin; by apply elem_of_nil in Hin | reflexivity].
  - cbn [map] in Hnd. apply NoDup_cons in Hnd as [Hfresh Hnd]. cbn [foldl] in *.
    pose proof (updateOne_spec unique (_id doc) (gset doc) soi ds r) as Hspec.
    pose proof (upserts_errors_le unique gset soi b
                  (updateOne unique (_id doc) (gset doc) soi (ds, r)).1
                  (updateOne unique (_id doc) (gset doc) soi (ds, r)).2) as Hle.
    destruct (updateOne unique (_id doc) (gset doc) soi (ds, r)) as [ds' r'].
    cbn [fst snd] in *. destruct Hspec as [(-> & Hr' & _)|(_ & Hr' & _)]; [|lia].
    destruct (IH (<[_id doc := written ds (_id doc) (gset doc) soi]> ds) r' Hnd
                ltac:(lia)) as [Hin Hout].
    assert (Hids : forall doc', doc' ∈ b -> _id doc' <> _id doc).
    { intros doc' Hin' Heq. apply Hfresh. rewrite <- Heq.
      apply list_elem_of_fmap. by exists doc'. }
    split.
    + intros doc' Hin'. apply elem_of_cons in Hin' as [->|Hin'].
      * rewrite Hout by exact Hids. apply lookup_insert_eq.
      * rewrite (Hin doc' Hin'). unfold written.
        rewrite lookup_insert_ne; [reflexivity|]. intros Heq. by apply (Hids doc').
    + intros i Hi. rewrite Hout.
      * apply lookup_insert_ne. apply Hi, list_elem_of_here.
      * intros doc' Hin'. by apply Hi, list_elem_of_further.
Qed.

Lemma holds_written ds doc :
  fields doc ∪ written ds (_id doc) (fields doc) ∅
  = written ds (_id doc) (fields doc) ∅.
Proof.
  unfold written. destruct (ds !! _id doc);
    by rewrite (assoc_L (∪)), (idemp_L (∪)).
Qed.



Lemma record_result_errors documents r flag s :
  documents <> [] ->
  errors (record_result documents r flag s) = 0 ->
  writeErrors r = 0 /\ errors s = 0.
Proof.
  unfold record_result. destruct (Nat.eqb_spec (writeErrors r) 0) as [Hz|Hnz]; simpl.
  - by intros _ ->.
  - intros Hne H. destruct documents; [done|]. simpl in H. lia.
Qed.





Lemma stamped_written now doc ds soi :
  <["updated_at" := now]> (fields doc)
    ∪ written ds (_id doc) (<["updated_at" := now]> (fields doc)) soi
  = written ds (_id doc) (<["updated_at" := now]> (fields doc)) soi.
Proof.
  unfold written. destruct (ds !! _id doc); by rewrite (assoc_L (∪)), (idemp_L (∪)).
Qed.




(** *** One call of the lesson syncer's [batchUpsert] *)


Lemma upserts_other_ids unique (gset : document -> gmap string bson) soi b i :
  (forall doc, doc ∈ b -> _id doc <> i) ->
  forall ds r,
    (foldl (fun acc doc => updateOne unique (_id doc) (gset doc) soi acc) (ds, r) b).1 !! i
    = ds !! i.
Proof.
  induction b as [|doc b IH]; intros Hids ds r; [reflexivity|]. cbn [foldl].
  pose proof (updateOne_spec unique (_id doc) (gset doc) soi ds r) as Hspec.
  destruct (updateOne unique (_id doc) (gset doc) soi (ds, r)) as [ds' r'].
  cbn [fst snd] in Hspec. rewrite IH by (intros doc' Hin; by apply Hids, list_elem_of_further).
  destruct Hspec as [(-> & _)|(-> & _)]; [|reflexivity].
  apply lookup_insert_ne, Hids, list_elem_of_here.
Qed.

(** The collection and the result of the upserts of a call, and what the
    call returns, written out. *)
Lemma lesson_batchUpsert_unfold clock faults doc0 b0 s d :
  let b := doc0 :: b0 in
  let now := BDate (clock (clock_reads d)) in
  let A := foldl (fun ds doc => deleteMany doc ds) (docs d)
             (match delete_throws (faults (clock_reads d)) with
              | None => b
              | Some applied => carried_out applied b
              end) in
  let res := foldl (fun acc doc =>
                      updateOne (unique_index d) (_id doc)
                        (<["updated_at" := now]> (fields doc)) {["created_at" := now]} acc)
                   (A, no_writes) b in
  lesson_batchUpsert clock faults b s d
  = (if Nat.eqb (writeErrors res.2) 0 && count_throws (faults (clock_reads d))
     then add_errors (length b) (record_result b res.2 true s)
     else record_result b res.2 true s,
     {| docs := res.1; unique_index := unique_index d;
        clock_reads := S (clock_reads d) |}).
Proof.
  cbv zeta. unfold lesson_batchUpsert. cbv zeta.
  by destruct (foldl _ _ (doc0 :: b0)).
Qed.

(** One call keeps the keys unique, because the collection enforces it, or
    because the deletes were carried out and the documents of the batch do
    not collide with one another. *)
Lemma lesson_batchUpsert_unique clock faults b s d :
  secondary_unique (docs d) ->
  unique_index d = true \/
    (delete_throws (faults (clock_reads d)) = None /\
     batch_distinct b /\ Forall has_key_fields b) ->
  secondary_unique (docs (lesson_batchUpsert clock faults b s d).2) /\
  unique_index (lesson_batchUpsert clock faults b s d).2 = unique_index d /\
  clock_reads d <= clock_reads (lesson_batchUpsert clock faults b s d).2.
Proof.
  intros Hu Hcase. destruct b as [|doc0 b0]; [by repeat split|].
  rewrite lesson_batchUpsert_unfold. cbn [snd docs unique_index clock_reads].
  split; [|split; [reflexivity | lia]].
  set (b := doc0 :: b0) in *. set (now := BDate (clock (clock_reads d))).
  set (A := foldl _ (docs d) _).
  assert (HA : secondary_unique A)
    by (eapply secondary_unique_subseteq; [apply deletes_subseteq | exact Hu]).
  destruct (unique_index d) eqn:Hidx.
  { apply (upserts_enforced (fun doc => <["updated_at" := now]> (fields doc))
             {["created_at" := now]} b A no_writes HA). }
  destruct Hcase as [?|(Hdel & Hdist & Hkeys)]; [done|].
  intros i j di dj Hi Hj Hk.
  pose proof (upserts_unindexed now {["created_at" := now]} b A no_writes) as Hw.
  destruct (Hw i di Hkeys Hi) as [[HAi Hni]|(doci & Hini & Hidi & Hki)];
    destruct (Hw j dj Hkeys Hj) as [[HAj Hnj]|(docj & Hinj & Hidj & Hkj)].
  - eapply HA; eauto.
  - exfalso. unfold A in HAi. rewrite Hdel in HAi.
    apply deletes_lookup in HAi as [_ Hno].
    apply (Hno docj Hinj). split; [rewrite Hidj; intros ->; by apply (Hni docj)|].
    congruence.
  - exfalso. unfold A in HAj. rewrite Hdel in HAj.
    apply deletes_lookup in HAj as [_ Hno].
    apply (Hno doci Hini). split; [rewrite Hidi; intros ->; by apply (Hnj doci)|].
    congruence.
  - rewrite <- Hidi, <- Hidj. apply Hdist; [exact Hini | exact Hinj | congruence].
Qed.

(** When the deletes are carried out, a call removes every document that
    carries the key of a document of the batch under an [_id] that is not in
    the batch. *)
Lemma lesson_batchUpsert_deletes clock faults documents s d doc i old :
  delete_throws (faults (clock_reads d)) = None ->
  doc ∈ documents ->
  docs d !! i = Some old ->
  unique_key old = unique_key (fields doc) ->
  (forall doc', doc' ∈ documents -> _id doc' <> i) ->
  docs (lesson_batchUpsert clock faults documents s d).2 !! i = None.
Proof.
  intros Hdel Hin Hold Hkey Hids.
  destruct documents as [|doc0 b0]; [by apply elem_of_nil in Hin|].
  rewrite lesson_batchUpsert_unfold. cbn [snd docs]. rewrite Hdel.
  rewrite upserts_other_ids by exact Hids.
  destruct (foldl (fun ds doc => deleteMany doc ds) (docs d) (doc0 :: b0) !! i)
    as [x|] eqn:Hx; [|reflexivity].
  apply deletes_lookup in Hx as [Hx Hno]. exfalso. apply (Hno doc Hin).
  split; [intros ->; by apply (Hids doc Hin)|]. congruence.
Qed.

Lemma lesson_batchUpsert_errors clock faults b s d :
  b <> [] ->
  errors (lesson_batchUpsert clock faults b s d).1 = errors s ->
  count_throws (faults (clock_reads d)) = false /\
  exists ds result,
    foldl (fun acc doc =>
             updateOne (unique_index d) (_id doc)
               (<["updated_at" := BDate (clock (clock_reads d))]> (fields doc))
               {["created_at" := BDate (clock (clock_reads d))]} acc)
          (foldl (fun ds doc => deleteMany doc ds) (docs d)
             (match delete_throws (faults (clock_reads d)) with
              | None => b
              | Some applied => carried_out applied b
              end), no_writes) b = (ds, result) /\
    writeErrors result = 0 /\
    lesson_batchUpsert clock faults b s d
    = (record_result b result true s,
       {| docs := ds; unique_index := unique_index d; clock_reads := S (clock_reads d) |}).
Proof.
  intros Hne. destruct b as [|doc0 b0]; [done|].
  rewrite lesson_batchUpsert_unfold. cbn [fst].
  destruct (foldl _ (_, no_writes) (doc0 :: b0)) as [ds result]. cbn [fst snd].
  unfold record_result.
  destruct (Nat.eqb_spec (writeErrors result) 0) as [Hz|Hnz];
    destruct (count_throws (faults (clock_reads d))); cbn [andb errors add_errors length];
    intros Herr; try lia.
  split; [reflexivity|]. exists ds, result.
  split; [reflexivity|]. split; [exact Hz|]. by rewrite Hz.
Qed.

(** A call that counts no error leaves every document of a batch with
    distinct identifiers in the collection, stamped with the reading of the
    clock the call made. *)
Lemma lesson_batchUpsert_writes clock faults documents s d doc :
  NoDup (map _id documents) ->
  doc ∈ documents ->
  errors (lesson_batchUpsert clock faults documents s d).1 = errors s ->
  exists f,
    docs (lesson_batchUpsert clock faults documents s d).2 !! _id doc = Some f /\
    <["updated_at" := BDate (clock (clock_reads d))]> (fields doc) ∪ f = f.
Proof.
  intros Hnd Hin Herr.
  destruct (lesson_batchUpsert_errors clock faults documents s d) as
    (_ & ds & result & Hfold & Hres & ->); [by intros -> ; apply elem_of_nil in Hin|exact Herr|].
  cbn [snd docs].
  set (A := foldl (fun ds doc => deleteMany doc ds) (docs d) _) in Hfold.
  pose proof (upserts_applied (unique_index d)
                (fun doc => <["updated_at" := BDate (clock (clock_reads d))]> (fields doc))
                {["created_at" := BDate (clock (clock_reads d))]} documents A no_writes Hnd)
    as Happ.
  cbv beta in Happ. rewrite Hfold in Happ. cbn [fst snd] in Happ.
  destruct (Happ Hres) as [Hwritten _]. eexists. split; [by apply Hwritten|].
  apply stamped_written.
Qed.

Lemma lesson_document_has_keys item ctx d :
  Lesson.transformItem item ctx = Document d -> has_key_fields d.
Proof.
  unfold Lesson.transformItem.
  destruct (toObjectId (Lesson.ref_id item)) as [oid| |]; try discriminate.
  cbn [mbind run_bind bind].
  destruct (Lesson.ref_or_null "book" _) as [book| |]; try discriminate.
  cbn [mbind run_bind bind].
  destruct (Lesson.ref_or_null "chapter" _) as [chapter| |]; try discriminate.
  cbn [mbind run_bind bind]. intros H. inversion H; subst. clear H.
  repeat split; eexists; vm_compute; reflexivity.
Qed.

Lemma lesson_documents_have_keys clock faults ctx (rows : list Lesson.row) d :
  d ∈ omap (document_of (Syncer0 := Lesson.syncer clock faults) ctx) rows ->
  has_key_fields d.
Proof.
  intros Hin. apply list_elem_of_omap in Hin as (item & _ & Hdoc).
  unfold document_of in Hdoc. cbn in Hdoc.
  destruct (lacks_ref_id (Lesson.ref_id item)); [discriminate|].
  destruct (Lesson.transformItem item ctx) eqn:Ht; try discriminate.
  inversion Hdoc; subst. by eapply lesson_document_has_keys.
Qed.

(** C1, as the code has it. A run of the lesson syncer on a collection with
    at most one document per (order, chapter, type) leaves at most one per
    key when the collection enforces the unique index, or when no bulk write
    of deletes of the run throws and no batch of the run holds two documents
    with the same key and different [_id]. In each call of [batchUpsert]
    (the calls of a run are made on the consecutive batches of its
    documents): when the deletes do not throw, every document of the
    collection that carries the key of a document of the batch under an
    [_id] that is not in the batch is gone after the call; and when the call
    counts no error, every document of a batch with distinct identifiers is
    in the collection after it, with the fields the batch gives it. *)
Theorem lesson_sync_keeps_keys_unique (clock : nat -> Z) (faults : nat -> fault)
    (ctx : Lesson.context) (rows : list Lesson.row) (db0 : mongo) :
  let all := omap (document_of (Syncer0 := Lesson.syncer clock faults) ctx) rows in
  let run := sync (Syncer0 := Lesson.syncer clock faults) ctx rows db0 in
  (secondary_unique (docs db0) ->
   unique_index db0 = true \/
     ((forall k, clock_reads db0 <= k -> delete_throws (faults k) = None) /\
      Forall batch_distinct (chunks BATCH_SIZE all)) ->
   secondary_unique (docs (db run))) /\
  sent run = chunks BATCH_SIZE all /\
  (forall documents stats db doc,
     doc ∈ documents ->
     let after := lesson_batchUpsert clock faults documents stats db in
     (delete_throws (faults (clock_reads db)) = None ->
      forall i old,
        docs db !! i = Some old ->
        unique_key old = unique_key (fields doc) ->
        (forall doc', doc' ∈ documents -> _id doc' <> i) ->
        docs after.2 !! i = None) /\
     (NoDup (map _id documents) ->
      errors after.1 = errors stats ->
      exists f,
        docs after.2 !! _id doc = Some f /\
        <["updated_at" := BDate (clock (clock_reads db))]> (fields doc) ∪ f = f)).
Proof.
  intros all run. split; [|split].
  - intros Hu Hcase.
    pose proof (sync_inv (Syncer0 := Lesson.syncer clock faults) ctx rows
      (fun _ _ d => secondary_unique (docs d) /\ unique_index d = unique_index db0 /\
                    clock_reads db0 <= clock_reads d))
      as Hinv.
    cbv beta in Hinv.
    destruct Hinv with (db0 := db0) as [(H & _) _]; [| | | |exact H]; try done.
    intros done b rest s d Hall Hb (Hud & Hidx & Hreads).
    cbn [batchUpsert Lesson.syncer].
    destruct (lesson_batchUpsert_unique clock faults b s d Hud) as (H1 & H2 & H3).
    + destruct Hcase as [Htrue|[Hdel Hdist]]; [left; congruence|right].
      split; [by apply Hdel|]. split.
      * rewrite Forall_forall in Hdist. by apply Hdist.
      * apply Forall_forall. intros x Hx.
        apply (lesson_documents_have_keys clock faults ctx rows). rewrite Hall.
        apply elem_of_app. right. apply elem_of_app. by left.
    + split; [exact H1|]. split; [congruence | lia].
  - by destruct (sync_inv (Syncer0 := Lesson.syncer clock faults) ctx rows
                   (fun _ _ _ => True) ltac:(done) ltac:(done) ltac:(done) db0 I).
  - intros documents stats db doc Hin after. split.
    + intros Hdel i old Hold Hkey Hids.
      by apply (lesson_batchUpsert_deletes clock faults documents stats db doc i old).
    + intros Hnd Herr. by apply lesson_batchUpsert_writes.
Qed.

Lemma secondary_unique_empty : secondary_unique (∅ : gmap N (gmap string bson)).
Proof. intros i j di dj Hi. by rewrite lookup_empty in Hi. Qed.

Lemma batch_distinct_singleton doc : batch_distinct [doc].
Proof.
  intros d1 d2 H1 H2 _. apply list_elem_of_singleton in H1, H2. by subst.
Qed.

Lemma lesson_sync_keeps_keys_unique_witness :
  is_Some (docs collection_with_replaced_lesson !! replaced_id) /\
  secondary_unique (docs (db (replacing_run no_faults))) /\
  docs (db (replacing_run no_faults)) !! replaced_id = None /\
  is_Some (docs (db (replacing_run no_faults)) !! lesson_1_id).
Proof.
  pose proof (lesson_sync_keeps_keys_unique sample_clock no_faults sample_lesson_context
                [replaced_lesson] (empty_collection false)) as (Hfirst & _ & _).
  pose proof (lesson_sync_keeps_keys_unique sample_clock no_faults sample_lesson_context
                [sample_lesson "aaaaaaaaaaaaaaaaaaaaaaa1" "A" 1]
                collection_with_replaced_lesson) as (Hsafe & _ & Hcall).
  set (doc := sample_document (sample_lesson "aaaaaaaaaaaaaaaaaaaaaaa1" "A" 1)).
  assert (Hkey : unique_key <$> docs collection_with_replaced_lesson !! replaced_id
                 = Some (unique_key (fields doc))) by (vm_compute; reflexivity).
  apply fmap_Some in Hkey as (old & Hold & Hkey). symmetry in Hkey.
  assert (Hrun : replacing_run no_faults
                 = call_batchUpsert (Syncer0 := Lesson.syncer sample_clock no_faults)
                     {| batch := [doc]; stats := set_total 1 createStats;
                        db := collection_with_replaced_lesson; sent := [] |})
    by (vm_compute; reflexivity).
  destruct (Hcall [doc] (set_total 1 createStats) collection_with_replaced_lesson doc
              ltac:(apply list_elem_of_here)) as [Hdeleted Hwritten].
  split; [by eexists|]. split; [|split].
  - apply Hsafe.
    + apply Hfirst; [apply secondary_unique_empty|]. right.
      split; [reflexivity|]. repeat constructor. apply batch_distinct_singleton.
    + right. split; [reflexivity|]. repeat constructor. apply batch_distinct_singleton.
  - rewrite Hrun. unfold call_batchUpsert. cbn [batch stats db batchUpsert Lesson.syncer].
    destruct (lesson_batchUpsert sample_clock no_faults [doc] _ _) as [stats' db'] eqn:Hup.
    cbn [db]. cbn [snd] in Hdeleted. apply (Hdeleted eq_refl replaced_id old).
    + exact Hold.
    + exact Hkey.
    + intros doc' Hin. apply list_elem_of_singleton in Hin as ->. discriminate.
  - rewrite Hrun. unfold call_batchUpsert. cbn [batch stats db batchUpsert Lesson.syncer].
    destruct (lesson_batchUpsert sample_clock no_faults [doc] _ _) as [stats' db'] eqn:Hup.
    cbn [db]. cbn [fst snd] in Hwritten.
    destruct Hwritten as (f & Hf & _).
    + apply NoDup_singleton.
    + apply (f_equal (fun p => errors p.1)) in Hup. cbn [fst] in Hup. rewrite <- Hup.
      vm_compute. reflexivity.
    + by exists f.
Defined.

(** Two rows with the same order and chapter and different identifiers, in
    one batch, on a collection that is empty and does not enforce the index,
    nothing going wrong in the store: both documents are there after the
    run. *)
Lemma two_rows_one_key_both_survive :
  (exists d1 d2,
     docs (db colliding_run) !! lesson_1_id = Some d1 /\
     docs (db colliding_run) !! lesson_2_id = Some d2 /\
     unique_key d1 = unique_key d2) /\
  ~ secondary_unique (docs (db colliding_run)).
Proof.
  assert (Hex : exists d1 d2,
            docs (db colliding_run) !! lesson_1_id = Some d1 /\
            docs (db colliding_run) !! lesson_2_id = Some d2 /\
            unique_key d1 = unique_key d2).
  { assert (H1 : unique_key <$> docs (db colliding_run) !! lesson_1_id
                 = Some (BNum 1, BDBRef "chapter" 0xcccccccccccccccccccccccc,
                         BStr "EXAMPLE")) by (vm_compute; reflexivity).
    assert (H2 : unique_key <$> docs (db colliding_run) !! lesson_2_id
                 = Some (BNum 1, BDBRef "chapter" 0xcccccccccccccccccccccccc,
                         BStr "EXAMPLE")) by (vm_compute; reflexivity).
    apply fmap_Some in H1 as (d1 & H1 & Hk1). apply fmap_Some in H2 as (d2 & H2 & Hk2).
    exists d1, d2. split; [exact H1|]. split; [exact H2|].
    by rewrite <- Hk1, <- Hk2. }
  split; [exact Hex|].
  destruct Hex as (d1 & d2 & H1 & H2 & Hk). intros Hu.
  specialize (Hu _ _ _ _ H1 H2 Hk). discriminate Hu.
Qed.

(** *** Running the sync again: the base syncer *)

Section SecondRunBase.
Context {Item Ctx : Type} `{!Syncer Item Ctx}.
Hypothesis batchUpsert_base : forall b s d, batchUpsert b s d = base_batchUpsert b s d.
Variable context : Ctx.
Variable rows : list Item.
Hypothesis ids_distinct : NoDup (map _id (omap (document_of context) rows)).

Lemma prefix_ids_disjoint (done b rest : list document) doc doc' :
  omap (document_of context) rows = done ++ b ++ rest ->
  doc ∈ done -> doc' ∈ b -> _id doc' <> _id doc.
Proof.
  intros Hall Hd Hb Heq. pose proof ids_distinct as Hnd.
  rewrite Hall, map_app in Hnd. apply NoDup_app in Hnd as (_ & Hdisj & _).
  apply (Hdisj (_id doc)); [apply list_elem_of_fmap; by exists doc|].
  rewrite map_app. apply elem_of_app. left. apply list_elem_of_fmap. by exists doc'.
Qed.

Lemma batch_ids_distinct (done b rest : list document) :
  omap (document_of context) rows = done ++ b ++ rest -> NoDup (map _id b).
Proof.
  intros Hall. pose proof ids_distinct as Hnd.
  rewrite Hall, !map_app in Hnd. apply NoDup_app in Hnd as (_ & _ & Hnd).
  by apply NoDup_app in Hnd as (Hnd & _ & _).
Qed.

(** After a first run that reports no error, the collection holds every
    document of the run. *)
Lemma base_first_run db0 :
  errors (stats (sync context rows db0)) = 0 ->
  forall doc, doc ∈ omap (document_of context) rows ->
              holds (docs (db (sync context rows db0))) doc.
Proof.
  pose proof (sync_inv context rows
    (fun done s d => errors s = 0 -> forall doc, doc ∈ done -> holds (docs d) doc))
    as Hinv. cbv beta in Hinv.
  apply Hinv; clear Hinv.
  - intros done b rest s d Hall Hb IH. rewrite batchUpsert_base.
    unfold base_batchUpsert. destruct b as [|doc0 b0] eqn:Eb.
    { cbn [fst snd]. rewrite app_nil_r. exact IH. }
    rewrite <- Eb in *.
    destruct (foldl _ (docs d, no_writes) b) as [ds result] eqn:Hfold.
    cbn [fst snd docs]. intros Herr.
    apply record_result_errors in Herr as [Hres Hs]; [|by rewrite Eb].
    pose proof (upserts_applied (unique_index d) fields ∅ b (docs d) no_writes
                  (batch_ids_distinct done b rest Hall)) as Happ.
    rewrite Hfold in Happ. cbn [fst snd] in Happ.
    destruct (Happ Hres) as [Hin Hout]. intros doc Hdoc.
    apply elem_of_app in Hdoc as [Hdoc|Hdoc].
    + destruct (IH Hs doc Hdoc) as (f & Hf & Hsame). exists f. split; [|exact Hsame].
      rewrite Hout; [exact Hf|]. intros doc' Hin'.
      by apply (prefix_ids_disjoint done b rest doc doc').
    + exists (written (docs d) (_id doc) (fields doc) ∅).
      split; [by apply Hin | apply holds_written].
  - intros done s d IH. exact IH.
  - intros done s d IH Herr. simpl in Herr. lia.
  - intros _ doc Hin. by apply elem_of_nil in Hin.
Qed.


End SecondRunBase.


(** *** Running the sync again: the lesson syncer *)



Section SecondRunLesson.
Variable clock : nat -> Z.
Variable faults : nat -> fault.
Variable context : Lesson.context.
Variable rows : list Lesson.row.

Local Abbreviation all :=
  (omap (document_of (Syncer0 := Lesson.syncer clock faults) context) rows).
Local Abbreviation run := (sync (Syncer0 := Lesson.syncer clock faults) context rows).

Hypothesis ids_distinct : NoDup (map _id all).
Hypothesis keys_distinct : batch_distinct all.






End SecondRunLesson.




(** What the distinct keys are for: two lessons of the same order and
    chapter, synced twice without the index. The first run reports no error;
    in the second each delete removes the document of the other row, and both
    are inserted again. *)
Example colliding_rows_are_inserted_again :
  errors (stats colliding_run) = 0 /\
  inserted
    (stats (sync (Syncer0 := Lesson.syncer sample_clock no_faults) sample_lesson_context
              colliding_lessons (db colliding_run))) = 2.
Proof. split; vm_compute; reflexivity. Qed.

(** What the deletes of the first run are for: when they throw, the replaced
    lesson stays in the collection beside the one that replaces it, no error
    is counted, and the second run removes it. *)
Example failed_delete_leaves_both :
  errors (stats (replacing_run deletes_fail)) = 0 /\
  is_Some (docs (db (replacing_run deletes_fail)) !! replaced_id) /\
  is_Some (docs (db (replacing_run deletes_fail)) !! lesson_1_id) /\
  docs (db (sync (Syncer0 := Lesson.syncer sample_clock no_faults) sample_lesson_context
              [sample_lesson "aaaaaaaaaaaaaaaaaaaaaaa1" "A" 1]
              (db (replacing_run deletes_fail)))) !! replaced_id = None.
Proof.
  split; [vm_compute; reflexivity|].
  split; [apply (bool_decide_unpack _); vm_compute; exact I|].
  split; [apply (bool_decide_unpack _); vm_compute; exact I|].
  vm_compute. reflexivity.
Qed.

End ReverseSyncFacts.

(** ** The repairer: what it leaves and what it keeps *)
Module EscapeCheckFacts.
Import JS Repairer RepairerFacts EscapeCheck.

Lemma invalid_escape_plain c :
  is_valid_escape c = false -> c <> dquote /\ c <> backslash.
Proof. intros Hv. split; intros ->; vm_compute in Hv; discriminate Hv. Qed.

Lemma repaired_escapes_valid b s out :
  repaired b s out -> escapes_valid (position_of b) out = true.
Proof.
  induction 1 as [b | c rest out Hc _ IH | rest out _ IH | c rest out Hv _ IH
                 | c rest out Hv _ IH | | rest out _ IH | c rest out Hc Hb _ IH];
    cbn [escapes_valid position_of] in *.
  - by destruct b.
  - by apply Ascii.eqb_neq in Hc as ->.
  - by rewrite Ascii.eqb_refl.
  - destruct (invalid_escape_plain c Hv) as [Hq Hb].
    rewrite Ascii.eqb_refl. cbn [escapes_valid].
    apply Ascii.eqb_neq in Hq as ->. by apply Ascii.eqb_neq in Hb as ->.
  - rewrite Ascii.eqb_refl. cbn [escapes_valid]. by rewrite Hv.
  - reflexivity.
  - change (Ascii.eqb dquote backslash) with false. by rewrite Ascii.eqb_refl.
  - apply Ascii.eqb_neq in Hc as ->. by apply Ascii.eqb_neq in Hb as ->.
Qed.

Lemma escapes_valid_repaired s :
  (escapes_valid Outside s = true -> repaired false s s) /\
  (escapes_valid Inside s = true -> repaired true s s) /\
  (escapes_valid Escaped s = true -> repaired true (backslash :: s) (backslash :: s)).
Proof.
  induction s as [|c s (IHo & IHi & IHe)].
  - repeat split; intros _; constructor.
  - cbn [escapes_valid]. repeat split.
    + destruct (Ascii.eqb_spec c dquote) as [->|Hq]; intros H.
      * by apply rep_enter_string, IHi.
      * by apply rep_outside_copy; [|apply IHo].
    + destruct (Ascii.eqb_spec c backslash) as [->|Hb]; [exact IHe|].
      destruct (Ascii.eqb_spec c dquote) as [->|Hq]; intros H.
      * by apply rep_exit_string, IHo.
      * by apply rep_inside_copy; [| |apply IHi].
    + intros [Hv H]%andb_prop. by apply rep_valid_escape; [|apply IHi].
Qed.

Lemma repaired_run s out :
  repaired false s out -> fixInvalidEscapeSequences s = Ret out.
Proof.
  intros H. unfold fixInvalidEscapeSequences.
  apply (scan_repaired false s out H s 0 _ []); [apply drop_0 | lia].
Qed.

(** X1: whatever the input, the text the repairer returns has no invalid
    escape left: read as the repairer reads it (a double quote opens or
    closes a literal, an escape takes two characters), every backslash inside
    a string literal is followed by one of the nine characters of a valid
    JSON escape, or is the last character of the text. Repairing the result
    again changes nothing. *)
Theorem repaired_text_has_valid_escapes (jsonStr : str) :
  exists out,
    fixInvalidEscapeSequences jsonStr = Ret out /\
    escapes_valid Outside out = true /\
    fixInvalidEscapeSequences out = Ret out.
Proof.
  destruct (fixInvalidEscapeSequences_returns jsonStr) as (out & Hrun & Hrep).
  pose proof (repaired_escapes_valid false _ _ Hrep) as Hvalid.
  exists out. split; [exact Hrun|]. split; [exact Hvalid|].
  by apply repaired_run, escapes_valid_repaired.
Qed.

(** X2: a text whose string literals hold only valid escapes is returned
    character for character. *)
Theorem valid_text_is_returned_unchanged (jsonStr : str) :
  escapes_valid Outside jsonStr = true ->
  fixInvalidEscapeSequences jsonStr = Ret jsonStr.
Proof. intros Hvalid. by apply repaired_run, escapes_valid_repaired. Qed.

Lemma valid_text_is_returned_unchanged_witness :
  fixInvalidEscapeSequences Extractor.wedge_block_fixed = Ret Extractor.wedge_block_fixed.
Proof.
  apply (valid_text_is_returned_unchanged Extractor.wedge_block_fixed).
  vm_compute. reflexivity.
Defined.

End EscapeCheckFacts.

(** ** Identifiers: from [generateMongoId] to [toObjectId] *)
Module ObjectIdFacts.
Import JS MongoId ReverseSync MongoIdFacts.
Open Scope N_scope.

Lemma hex_value_bound c d : hex_value c = Some d -> d < 16.
Proof.
  unfold hex_value. intros H.
  repeat (let E := fresh in destruct (_ && _) eqn:E in H;
          [apply andb_prop in E as [?%N.leb_le ?%N.leb_le]; injection H as <-; lia|]).
  discriminate H.
Qed.

Lemma parse_hex_acc s : forall acc v,
  parse_hex s 0 = Some v ->
  parse_hex s acc = Some (acc * 16 ^ N.of_nat (length s) + v) /\ v < 16 ^ N.of_nat (length s).
Proof.
  induction s as [|c s IH]; intros acc v H.
  - injection H as <-. cbn. split; [f_equal; lia | lia].
  - cbn [parse_hex] in *. destruct (hex_value c) as [d|] eqn:Hd; [|discriminate H].
    pose proof (hex_value_bound c d Hd) as Hb.
    destruct (parse_hex s 0) as [w|] eqn:Hw.
    + destruct (IH (16 * 0 + d) w eq_refl) as [H1 Hlt]. rewrite H1 in H. injection H as <-.
      destruct (IH (16 * acc + d) w eq_refl) as [-> _].
      cbn [length]. rewrite Nat2N.inj_succ, N.pow_succ_r'. split; [f_equal; lia | nia].
    + exfalso. clear IH. revert H Hw. generalize (16 * 0 + d). generalize 0.
      induction s as [|c' s IH']; intros a b H Hw; [discriminate Hw|].
      cbn [parse_hex] in *. destruct (hex_value c'); [|discriminate H]. eauto.
Qed.

Lemma parse_hex_concat a b va vb :
  parse_hex a 0 = Some va -> parse_hex b 0 = Some vb ->
  parse_hex (a ++ b) 0 = Some (va * 16 ^ N.of_nat (length b) + vb).
Proof.
  intros Ha Hb. rewrite parse_hex_app, Ha. cbn. by apply parse_hex_acc.
Qed.

Lemma random_part_value draw :
  exists r, parse_hex (random_part draw) 0 = Some r /\ length (random_part draw) = 10%nat.
Proof.
  unfold random_part. cbn [concat map seq].
  destruct (padded_hex _ 2 (byte_bound (draw 0%nat)) ltac:(lia)) as (L0 & _ & V0).
  destruct (padded_hex _ 2 (byte_bound (draw 1%nat)) ltac:(lia)) as (L1 & _ & V1).
  destruct (padded_hex _ 2 (byte_bound (draw 2%nat)) ltac:(lia)) as (L2 & _ & V2).
  destruct (padded_hex _ 2 (byte_bound (draw 3%nat)) ltac:(lia)) as (L3 & _ & V3).
  destruct (padded_hex _ 2 (byte_bound (draw 4%nat)) ltac:(lia)) as (L4 & _ & V4).
  rewrite app_nil_r. eexists. split.
  - apply parse_hex_concat; [exact V0|]. apply parse_hex_concat; [exact V1|].
    apply parse_hex_concat; [exact V2|]. apply parse_hex_concat; [exact V3|exact V4].
  - rewrite !length_app, L0, L1, L2, L3, L4. reflexivity.
Qed.

Lemma count_part_value counter :
  let counter' := (counter + 1) mod counter_modulus in
  length (count_part counter') = 6%nat /\
  parse_hex (count_part counter') 0 = Some counter'.
Proof.
  intros counter'.
  assert (Hc : counter' < 16 ^ N.of_nat 6).
  { subst counter'. pose proof (N.mod_lt (counter + 1) counter_modulus ltac:(done)).
    change (16 ^ N.of_nat 6) with 16777216. unfold counter_modulus in *. lia. }
  destruct (padded_hex _ 6 Hc ltac:(lia)) as (Hcl & _ & Hcv). by split.
Qed.

Lemma length_string_of_list_ascii (l : str) :
  String.length (string_of_list_ascii l) = length l.
Proof. induction l as [|c l IH]; [reflexivity | cbn; by rewrite IH]. Qed.

(** X3: an identifier made by [generateMongoId] while the clock's seconds
    fit 32 bits is accepted by [toObjectId] of the reverse sync, and the
    ObjectId it denotes has those seconds in its four leading bytes and the
    incremented counter in its three trailing bytes. *)
Theorem generated_id_is_an_ObjectId (now_ms : Z) (draw : nat -> Byte.byte) (counter : N) :
  (0 <= now_ms / 1000 < 2 ^ 32)%Z ->
  exists oid,
    toObjectId (Some (string_of_list_ascii (generateMongoId now_ms draw counter).1))
      = Ret oid /\
    oid / 2 ^ 64 = Z.to_N (now_ms / 1000) /\
    oid mod 2 ^ 24 = (counter + 1) mod 0xffffff.
Proof.
  intros Hts.
  assert (Ht : Z.to_N (now_ms / 1000) < 16 ^ N.of_nat 8).
  { change (16 ^ N.of_nat 8) with 4294967296.
    change (2 ^ 32)%Z with 4294967296%Z in Hts. lia. }
  destruct (padded_hex _ 8 Ht ltac:(lia)) as (Htl & _ & Htv).
  assert (Hts_eq : timestamp_part now_ms
                   = padStart 8 "0" (toString16 (Z.to_N (now_ms / 1000)))).
  { unfold timestamp_part, toString16Z.
    destruct (Z.ltb_spec (now_ms / 1000) 0); [lia | reflexivity]. }
  destruct (random_part_value draw) as (r & Hr & Hrl).
  destruct (count_part_value counter) as [Hcl Hcv].
  set (counter' := (counter + 1) mod counter_modulus) in *.
  assert (Hid : (generateMongoId now_ms draw counter).1
                = timestamp_part now_ms ++ random_part draw ++ count_part counter')
    by reflexivity.
  pose proof (parse_hex_concat _ _ _ _ Hr Hcv) as Hrc.
  rewrite <- Hts_eq in Htv, Htl.
  pose proof (parse_hex_concat _ _ _ _ Htv Hrc) as Hall.
  destruct (parse_hex_acc _ 0 _ Hr) as [_ Hrb].
  destruct (parse_hex_acc _ 0 _ Hcv) as [_ Hcb].
  rewrite Hrl in Hrb. rewrite Hcl in Hcb, Hrc, Hall.
  rewrite length_app, Hrl, Hcl in Hall.
  change (N.of_nat (10 + 6)) with 16 in Hall. change (N.of_nat 6) with 6 in *.
  change (N.of_nat 10) with 10 in *.
  change (16 ^ 16) with 18446744073709551616 in Hall.
  change (16 ^ 6) with 16777216 in *. change (16 ^ 10) with 1099511627776 in *.
  eexists. split; [|split].
  - unfold toObjectId. rewrite length_string_of_list_ascii, Hid, !length_app, Htl, Hrl, Hcl.
    cbn [Nat.eqb Nat.add]. unfold chars.
    rewrite list_ascii_of_string_of_list_ascii, Hall. reflexivity.
  - change (2 ^ 64) with 18446744073709551616. symmetry.
    apply (N.div_unique _ _ _ (r * 16777216 + counter')); lia.
  - change (2 ^ 24) with 16777216. change ((counter + 1) mod 16777215) with counter'.
    clearbody counter'. symmetry.
    apply (N.mod_unique _ _ (Z.to_N (now_ms / 1000) * 1099511627776 + r)); [exact Hcb | lia].
Qed.


Lemma generated_id_is_an_ObjectId_witness :
  exists oid,
    toObjectId (Some (string_of_list_ascii
                        (generateMongoId 1700000000123 (fun _ => Byte.x3c) 41).1))
      = Ret oid /\
    oid / 2 ^ 64 = Z.to_N (1700000000123 / 1000) /\
    oid mod 2 ^ 24 = (41 + 1) mod 0xffffff.
Proof.
  apply (generated_id_is_an_ObjectId 1700000000123 (fun _ => Byte.x3c) 41).
  vm_compute. split; [intros H; discriminate H | reflexivity].
Defined.

End ObjectIdFacts.

(** ** Fetching the source rows page by page *)
Module PaginationFacts.
Import JS Pagination.

Lemma PAGE_SIZE_pos : 0 < PAGE_SIZE.
Proof. unfold PAGE_SIZE. apply Nat.lt_0_succ. Qed.

Lemma fetch_loop_table {Item} (range : nat -> nat -> response Item) (table : list Item) :
  (forall from to, range from to = range_of table from to) ->
  forall fuel page,
    length table / PAGE_SIZE < page + fuel ->
    page * PAGE_SIZE <= length table ->
    fetch_loop range fuel page (take (page * PAGE_SIZE) table)
    = Ret (table, length table / PAGE_SIZE + 1).
Proof.
  intros Hrange. pose proof PAGE_SIZE_pos as Hpos.
  pose proof (Nat.div_mod_eq (length table) PAGE_SIZE) as Hdiv.
  pose proof (Nat.mod_upper_bound (length table) PAGE_SIZE ltac:(lia)) as Hmod.
  induction fuel as [|fuel IH]; intros page Hfuel Hpage; [exfalso; nia|].
  cbn [fetch_loop]. rewrite Hrange. unfold range_of.
  replace (page * PAGE_SIZE + PAGE_SIZE - 1 + 1 - page * PAGE_SIZE) with PAGE_SIZE by lia.
  destruct (take PAGE_SIZE (drop (page * PAGE_SIZE) table)) as [|row rows] eqn:Hdata.
  - assert (Hlen : length (take PAGE_SIZE (drop (page * PAGE_SIZE) table)) = 0)
      by (by rewrite Hdata).
    rewrite length_take, length_drop in Hlen.
    rewrite take_ge by lia. do 2 f_equal. nia.
  - rewrite <- Hdata.
    destruct (Nat.eqb_spec (length (take PAGE_SIZE (drop (page * PAGE_SIZE) table)))
                PAGE_SIZE) as [Hfull|Hshort];
      rewrite length_take, length_drop in *.
    + replace (take (page * PAGE_SIZE) table
               ++ take PAGE_SIZE (drop (page * PAGE_SIZE) table))
        with (take ((page + 1) * PAGE_SIZE) table).
      2:{ replace ((page + 1) * PAGE_SIZE) with (page * PAGE_SIZE + PAGE_SIZE) by lia.
          by rewrite <- take_take_drop. }
      apply IH; lia.
    + rewrite (take_ge (drop _ _)) by (rewrite length_drop; lia).
      rewrite take_drop. do 2 f_equal. nia.
Qed.

(** X4: when the service serves the pages of an unchanging table, the fetch
    returns (given fuel for its turns) every row of the table, in order, and
    makes one request more than the table has full pages: a table of exactly
    [k * PAGE_SIZE] rows costs [k + 1] requests, the last one for an empty
    page. *)
Theorem fetch_returns_every_row {Item} (range : nat -> nat -> response Item)
    (table : list Item) (fuel : nat) :
  (forall from to, range from to = range_of table from to) ->
  length table / PAGE_SIZE < fuel ->
  fetchSupabaseData range fuel = Ret (table, length table / PAGE_SIZE + 1).
Proof.
  intros Hrange Hfuel. unfold fetchSupabaseData.
  apply (fetch_loop_table range table Hrange fuel 0); [lia | apply Nat.le_0_l].
Qed.

Lemma fetch_returns_every_row_witness :
  fetchSupabaseData (range_of (seq 0 2000)) 3 = Ret (seq 0 2000, 3).
Proof.
  apply (fetch_returns_every_row (range_of (seq 0 2000)) (seq 0 2000) 3).
  - reflexivity.
  - vm_compute. lia.
Defined.

Lemma fetch_loop_error {Item} (range : nat -> nat -> response Item) (k : nat) :
  (forall j, j < k -> exists rows,
     range (j * PAGE_SIZE) (j * PAGE_SIZE + PAGE_SIZE - 1) = Data (Some rows) /\
     length rows = PAGE_SIZE) ->
  range (k * PAGE_SIZE) (k * PAGE_SIZE + PAGE_SIZE - 1) = Error ->
  forall fuel page allData,
    page <= k -> k < page + fuel ->
    fetch_loop range fuel page allData = Throw.
Proof.
  intros Hfull Herr. induction fuel as [|fuel IH]; intros page allData Hle Hfuel; [lia|].
  cbn [fetch_loop]. destruct (decide (page = k)) as [->|Hne].
  - by rewrite Herr.
  - destruct (Hfull page ltac:(lia)) as (rows & -> & Hlen).
    destruct rows as [|row rows]; [discriminate Hlen|].
    rewrite Hlen, Nat.eqb_refl. apply IH; lia.
Qed.

(** X5: when the request for a page fails after [k] full pages, the fetch
    throws: the rows of the pages already fetched are not returned. *)
Theorem fetch_fails_as_a_whole {Item} (range : nat -> nat -> response Item)
    (k fuel : nat) :
  (forall j, j < k -> exists rows,
     range (j * PAGE_SIZE) (j * PAGE_SIZE + PAGE_SIZE - 1) = Data (Some rows) /\
     length rows = PAGE_SIZE) ->
  range (k * PAGE_SIZE) (k * PAGE_SIZE + PAGE_SIZE - 1) = Error ->
  k < fuel ->
  fetchSupabaseData range fuel = Throw.
Proof.
  intros Hfull Herr Hfuel. apply (fetch_loop_error range k Hfull Herr); lia.
Qed.

Lemma fetch_fails_as_a_whole_witness :
  fetchSupabaseData failing_second_page 2 = Throw.
Proof.
  apply (fetch_fails_as_a_whole failing_second_page 1 2).
  - intros j Hj. assert (j = 0) as -> by lia.
    exists (seq 0 PAGE_SIZE). split; [reflexivity | apply length_seq].
  - reflexivity.
  - lia.
Defined.

End PaginationFacts.

(** ** The counters of a run *)
Module SyncCountersFacts.
Import JS ReverseSync ReverseSyncFacts SyncCounters.

Lemma updateOne_counts unique id set soi ds r :
  let r' := (updateOne unique id set soi (ds, r)).2 in
  upsertedCount r' + modifiedCount r' + writeErrors r'
  <= upsertedCount r + modifiedCount r + writeErrors r + 1.
Proof.
  unfold updateOne. destruct (ds !! id); repeat case_bool_decide;
    destruct unique; simpl; lia.
Qed.

Lemma upserts_counts unique (gset : document -> gmap string bson) soi b : forall ds r,
  let r' := (foldl (fun acc doc => updateOne unique (_id doc) (gset doc) soi acc)
                   (ds, r) b).2 in
  upsertedCount r' + modifiedCount r' + writeErrors r'
  <= upsertedCount r + modifiedCount r + writeErrors r + length b.
Proof.
  induction b as [|doc b IH]; intros ds r; [simpl; lia|]. cbn [foldl length].
  pose proof (updateOne_counts unique (_id doc) (gset doc) soi ds r) as H1.
  destruct (updateOne unique (_id doc) (gset doc) soi (ds, r)) as [ds' r'].
  cbn [snd] in H1. specialize (IH ds' r'). cbn zeta in *. lia.
Qed.

Lemma record_result_counts b r flag s :
  upsertedCount r + modifiedCount r + writeErrors r <= length b ->
  counts_batch b s (record_result b r flag s).
Proof.
  intros H. unfold counts_batch, record_result.
  destruct (Nat.eqb_spec (writeErrors r) 0); simpl; lia.
Qed.

Lemma base_batchUpsert_counts b s d : counts_batch b s (base_batchUpsert b s d).1.
Proof.
  unfold base_batchUpsert. destruct b as [|doc0 b0] eqn:Eb.
  { unfold counts_batch. simpl. lia. }
  rewrite <- Eb.
  pose proof (upserts_counts (unique_index d) fields ∅ b (docs d) no_writes) as H.
  destruct (foldl _ (docs d, no_writes) b) as [ds result]. cbn [fst snd] in *.
  apply record_result_counts. simpl in H. lia.
Qed.

Lemma lesson_batchUpsert_counts clock faults b s d :
  count_throws (faults (clock_reads d)) = false ->
  counts_batch b s (lesson_batchUpsert clock faults b s d).1.
Proof.
  intros Hcount. destruct b as [|doc0 b0] eqn:Eb.
  { unfold counts_batch. simpl. lia. }
  rewrite lesson_batchUpsert_unfold. rewrite <- Eb. cbn [fst].
  rewrite Hcount, andb_false_r.
  set (A := foldl (fun ds doc => deleteMany doc ds) (docs d) _).
  pose proof (upserts_counts (unique_index d)
                (fun doc => <["updated_at" := BDate (clock (clock_reads d))]> (fields doc))
                {["created_at" := BDate (clock (clock_reads d))]} b A no_writes) as H.
  destruct (foldl _ (A, no_writes) b) as [ds result]. cbn [fst snd] in *.
  apply record_result_counts. simpl in H. lia.
Qed.

Section Accounting.
Context {Item Ctx : Type} `{!Syncer Item Ctx}.
Variable context : Ctx.
Hypothesis batchUpsert_counts : forall b s d, counts_batch b s (batchUpsert b s d).1.

Local Abbreviation counted := (SyncCounters.counted context).

Lemma flush_counted n pre st :
  counted n pre st -> counted n pre (set_batch [] (call_batchUpsert st)).
Proof.
  intros (Ht & Hs & He & Hi & Hd). unfold call_batchUpsert.
  pose proof (batchUpsert_counts (batch st) (stats st) (db st)) as (Ht' & Hs' & He' & Hi').
  destruct (batchUpsert (batch st) (stats st) (db st)) as [stats' db']. cbn [fst] in *.
  unfold counted. cbn [set_batch stats sent batch].
  rewrite concat_app, length_app. cbn [concat]. rewrite !app_nil_r.
  repeat split; [congruence | congruence | lia | lia | exact Hd].
Qed.

Lemma maybe_flush_counted n pre st :
  counted n pre st ->
  counted n pre (if BATCH_SIZE <=? length (batch st)
                 then set_batch [] (call_batchUpsert st) else st).
Proof. intros H. destruct (_ <=? _); [by apply flush_counted | exact H]. Qed.

Lemma counted_snoc n pre item st (sk th : bool) (doc : option document) :
  is_skipped context item = sk ->
  is_thrown context item = th ->
  document_of context item = doc ->
  total (stats st) = n ->
  skipped (stats st)
  = length (List.filter (is_skipped context) pre) + (if sk then 1 else 0) ->
  length (List.filter (is_thrown context) pre) + (if th then 1 else 0)
  <= errors (stats st) ->
  inserted (stats st) + updated (stats st) + errors (stats st)
  <= length (List.filter (is_thrown context) pre)
     + (if th then 1 else 0) + length (concat (sent st)) ->
  concat (sent st) ++ batch st = omap (document_of context) pre ++ option_list doc ->
  counted n (pre ++ [item]) st.
Proof.
  intros Hsk Hth Hdoc Ht Hs He Hi Hd. unfold counted.
  rewrite !List.filter_app, !length_app, omap_app. cbn [List.filter omap list_omap].
  rewrite Hsk, Hth, Hdoc.
  destruct sk, th, doc; cbn [length option_list] in *;
    repeat split; first [exact Ht | exact Hd | lia].
Qed.

Lemma sync_item_counted n pre st item :
  counted n pre st -> counted n (pre ++ [item]) (sync_item context st item).
Proof.
  intros (Ht & Hs & He & Hi & Hd). unfold sync_item.
  destruct (lacks_ref_id (ref_id item)) eqn:Hl.
  { apply (counted_snoc n pre item _ true false None);
      [unfold is_skipped; by rewrite Hl | unfold is_thrown; by rewrite Hl
      | unfold document_of; by rewrite Hl | ..];
      cbn [map_stats stats incr_skipped skipped total errors inserted updated sent batch
           option_list];
      rewrite ?app_nil_r; first [exact Ht | exact Hd | lia]. }
  destruct (transformItem item context) as [d| |] eqn:Htr.
  - apply maybe_flush_counted.
    apply (counted_snoc n pre item _ false false (Some d));
      [unfold is_skipped; by rewrite Hl, Htr | unfold is_thrown; by rewrite Hl, Htr
      | unfold document_of; by rewrite Hl, Htr | ..];
      cbn [set_batch stats sent batch option_list];
      rewrite ?app_assoc, ?Hd; first [exact Ht | reflexivity | lia].
  - apply maybe_flush_counted.
    apply (counted_snoc n pre item _ true false None);
      [unfold is_skipped; by rewrite Hl, Htr | unfold is_thrown; by rewrite Hl, Htr
      | unfold document_of; by rewrite Hl, Htr | ..];
      cbn [map_stats stats incr_skipped skipped total errors inserted updated sent batch
           option_list];
      rewrite ?app_nil_r; first [exact Ht | exact Hd | lia].
  - apply (counted_snoc n pre item _ false true None);
      [unfold is_skipped; by rewrite Hl, Htr | unfold is_thrown; by rewrite Hl, Htr
      | unfold document_of; by rewrite Hl, Htr | ..];
      cbn [map_stats stats add_errors skipped total errors inserted updated sent batch
           option_list];
      rewrite ?app_nil_r; first [exact Ht | exact Hd | lia].
Qed.

Lemma foldl_counted n rows : forall pre st,
  counted n pre st -> counted n (pre ++ rows) (foldl (sync_item context) st rows).
Proof.
  induction rows as [|item rows IH]; intros pre st H; [by rewrite app_nil_r|].
  cbn [foldl]. replace (pre ++ item :: rows) with ((pre ++ [item]) ++ rows)
    by (by rewrite <- app_assoc).
  apply IH, sync_item_counted, H.
Qed.

Lemma rows_partition (rows : list Item) :
  length rows
  = length (List.filter (is_skipped context) rows)
    + length (List.filter (is_thrown context) rows)
    + length (omap (document_of context) rows).
Proof.
  induction rows as [|item rows IH]; [reflexivity|].
  cbn [List.filter omap list_omap length]. unfold is_skipped, is_thrown, document_of in *.
  destruct (lacks_ref_id (ref_id item)); cbn [orb andb negb length]; [lia|].
  destruct (transformItem item context); cbn [length]; lia.
Qed.

Lemma sync_counted rows db0 :
  let s := stats (sync context rows db0) in
  total s = length rows /\
  skipped s = length (List.filter (is_skipped context) rows) /\
  length (List.filter (is_thrown context) rows) <= errors s /\
  inserted s + updated s + skipped s + errors s <= total s.
Proof.
  pose proof (rows_partition rows) as Hpart.
  pose proof (foldl_counted (length rows) rows [] (sync_start rows db0)) as Hc.
  cbn [app] in Hc. specialize (Hc ltac:(by repeat split)).
  assert (Hsync : sync context rows db0
                  = match rows with
                    | [] => sync_start rows db0
                    | _ =>
                      match batch (foldl (sync_item context) (sync_start rows db0) rows) with
                      | [] => foldl (sync_item context) (sync_start rows db0) rows
                      | _ => call_batchUpsert
                               (foldl (sync_item context) (sync_start rows db0) rows)
                      end
                    end) by reflexivity.
  rewrite Hsync. clear Hsync. destruct rows as [|item rows']; [simpl; lia|].
  cbv match. remember (item :: rows') as rows eqn:Hrows. clear Hrows.
  remember (foldl (sync_item context) (sync_start rows db0) rows) as st eqn:Hst.
  clear Hst. destruct Hc as (Ht & Hs & He & Hi & Hd).
  assert (Hlen : length (concat (sent st)) + length (batch st)
                 = length (omap (document_of context) rows))
    by (by rewrite <- Hd, length_app).
  destruct (batch st) as [|d b] eqn:Hb; cbn zeta.
  - simpl in Hlen. lia.
  - unfold call_batchUpsert. rewrite Hb.
    pose proof (batchUpsert_counts (d :: b) (stats st) (db st)) as (Ht' & Hs' & He' & Hi').
    destruct (batchUpsert (d :: b) (stats st) (db st)) as [stats' db'].
    cbn [fst stats] in *. lia.
Qed.

End Accounting.

(** X6: in a run of either syncer every fetched row is accounted for: [total]
    is the number of rows, [skipped] the number of rows without [ref_id] or
    with a falsy transform, [errors] at least the number of rows whose
    transform throws, and the four counters [inserted], [updated], [skipped],
    [errors] never add up to more than [total] (a document that is matched
    and left unchanged is in none of them). For the lesson syncer this holds
    of the runs in which [countDocuments] does not throw. *)
Theorem sync_accounts_for_every_row :
  (forall (ctx : LessonItem.context) (rows : list LessonItem.row) (db0 : mongo),
     let s := stats (sync ctx rows db0) in
     total s = length rows /\
     skipped s = length (List.filter (is_skipped ctx) rows) /\
     length (List.filter (is_thrown ctx) rows) <= errors s /\
     inserted s + updated s + skipped s + errors s <= total s) /\
  (forall (clock : nat -> Z) (faults : nat -> fault) (ctx : Lesson.context)
          (rows : list Lesson.row) (db0 : mongo),
     (forall k, count_throws (faults k) = false) ->
     let s := stats (sync (Syncer0 := Lesson.syncer clock faults) ctx rows db0) in
     total s = length rows /\
     skipped s
     = length (List.filter (is_skipped (Syncer0 := Lesson.syncer clock faults) ctx) rows) /\
     length (List.filter (is_thrown (Syncer0 := Lesson.syncer clock faults) ctx) rows)
     <= errors s /\
     inserted s + updated s + skipped s + errors s <= total s).
Proof.
  split.
  - intros ctx rows db0. apply sync_counted. intros b s d. apply base_batchUpsert_counts.
  - intros clock faults ctx rows db0 Hcount.
    apply (sync_counted (Syncer0 := Lesson.syncer clock faults)).
    intros b s d. by apply lesson_batchUpsert_counts.
Qed.

(** When [countDocuments] throws after the upserts, the documents of the
    batch are counted twice: as inserted and as errors. *)
Example failed_count_counts_twice :
  stats (sync (Syncer0 := Lesson.syncer sample_clock counts_fail) sample_lesson_context
           [sample_lesson "aaaaaaaaaaaaaaaaaaaaaaa1" "A" 1] (empty_collection false))
  = {| total := 1; inserted := 1; updated := 0; skipped := 0; errors := 1; matched := 0 |}.
Proof. vm_compute. reflexivity. Qed.

End SyncCountersFacts.

(** ** What a run leaves in the collection *)
Module StoreFacts.
Import JS ReverseSync ReverseSyncFacts.

(** X7: a run of the lesson item syncer that reports no error, over rows
    with distinct identifiers, leaves every transformed document in the
    collection: under its [_id], with each of its fields at the value the
    transform gave it. *)
Theorem error_free_run_stores_every_document (ctx : LessonItem.context)
    (rows : list LessonItem.row) (db0 : mongo) :
  NoDup (map _id (omap (document_of ctx) rows)) ->
  errors (stats (sync ctx rows db0)) = 0 ->
  Forall (holds (docs (db (sync ctx rows db0)))) (omap (document_of ctx) rows).
Proof.
  intros Hnd Herr. apply Forall_forall. intros doc Hin.
  exact (base_first_run (fun _ _ _ => eq_refl) ctx rows Hnd db0 Herr doc Hin).
Qed.

Lemma error_free_run_stores_every_document_witness :
  Forall (holds (docs (db (sync sample_item_context
                             [sample_item (Some "dddddddddddddddddddddddd") "lesson-1"]
                             (empty_collection false)))))
         (omap (document_of sample_item_context)
               [sample_item (Some "dddddddddddddddddddddddd") "lesson-1"]).
Proof.
  apply (error_free_run_stores_every_document sample_item_context
           [sample_item (Some "dddddddddddddddddddddddd") "lesson-1"]
           (empty_collection false)).
  - apply (bool_decide_unpack _). vm_compute. exact I.
  - vm_compute. reflexivity.
Defined.

End StoreFacts.

(** ** The connection around a reverse sync *)
Module ConnectionFacts.
Import JS IO ReverseSync Connection.


End ConnectionFacts.

(** ** Waiting for LlamaParse *)
Module LlamaParseFacts.
Import JS LlamaParse.

Section Polling.
Variable status_at : nat -> response.
Variable result_response : response.
Variable JSON_stringify : jsval -> jsval.

Local Abbreviation poll := (LlamaParse.poll status_at result_response JSON_stringify).
Local Abbreviation decided := (LlamaParse.decided result_response JSON_stringify).

Lemma getResult_not_timeout :
  getResult result_response JSON_stringify <> Failed TimedOut.
Proof.
  unfold getResult. destruct result_response as [|s|result]; try discriminate.
  destruct (getProp result "markdown"), (getProp result "text"); discriminate.
Qed.

Lemma decided_not_timeout r o : decided r = Some o -> o <> Failed TimedOut.
Proof.
  unfold LlamaParse.decided. destruct r as [|s|statusData].
  - intros [= <-]. discriminate.
  - intros [= <-]. discriminate.
  - destruct (getProp statusData "status") as [status| |],
      (getProp statusData "error") as [error| |]; try (intros [= <-]; discriminate).
    destruct (is_text "SUCCESS" status); [intros [= <-]; apply getResult_not_timeout|].
    destruct (is_text "ERROR" status); [intros [= <-]|]; discriminate.
Qed.

Lemma poll_spec remaining : forall attempt,
  (poll remaining attempt = (Failed TimedOut, attempt + remaining) /\
   forall k, attempt <= k < attempt + remaining -> decided (status_at k) = None) \/
  (exists k o, attempt <= k < attempt + remaining /\
               (forall j, attempt <= j < k -> decided (status_at j) = None) /\
               decided (status_at k) = Some o /\
               poll remaining attempt = (o, S k)).
Proof.
  induction remaining as [|r IH]; intros attempt; cbn [LlamaParse.poll].
  - left. split; [by rewrite Nat.add_0_r | lia].
  - destruct (decided (status_at attempt)) as [o|] eqn:Hd.
    + right. exists attempt, o. repeat split; [lia | lia | lia | exact Hd].
    + destruct (IH (S attempt)) as [[Hp Hall]|(k & o & Hk & Hbefore & Hd' & Hp)].
      * left. split; [rewrite Hp; f_equal; lia|].
        intros k Hk. destruct (decide (k = attempt)) as [->|]; [exact Hd | apply Hall; lia].
      * right. exists k, o. repeat split; [lia | lia | | exact Hd' | exact Hp].
        intros j Hj. destruct (decide (j = attempt)) as [->|]; [exact Hd | apply Hbefore; lia].
Qed.

End Polling.

(** X9: [pollForCompletion] asks for the status at most [maxAttempts] times.
    It stops at the first answer that is not a pending status, with the
    outcome that answer decides (the result on SUCCESS, a failure on ERROR,
    on an answer that is not ok or cannot be read), and times out exactly
    when the first [maxAttempts] answers are all pending: a job that would
    be done at the next request is given up. *)
Theorem poll_stops_at_first_decisive_answer (status_at : nat -> response)
    (result_response : response) (JSON_stringify : jsval -> jsval) (maxAttempts : nat) :
  let run := pollForCompletion status_at result_response JSON_stringify maxAttempts in
  let decided := decided result_response JSON_stringify in
  run.2 <= maxAttempts /\
  (run.1 = Failed TimedOut <->
   forall k, k < maxAttempts -> decided (status_at k) = None) /\
  (forall k o, k < maxAttempts ->
     (forall j, j < k -> decided (status_at j) = None) ->
     decided (status_at k) = Some o ->
     run = (o, S k)).
Proof.
  intros run decided. subst run. unfold pollForCompletion.
  destruct (poll_spec status_at result_response JSON_stringify maxAttempts 0)
    as [[Hp Hall]|(k & o & Hk & Hbefore & Hd & Hp)]; rewrite Hp; cbn [fst snd].
  - split; [lia|]. split.
    + split; [intros _ k Hk; apply Hall; lia | reflexivity].
    + intros k o Hk _ Hd. rewrite Hall in Hd by lia. discriminate Hd.
  - split; [lia|]. split.
    + split.
      * intros ->. by apply decided_not_timeout in Hd.
      * intros Hall. subst decided. rewrite Hall in Hd by lia. discriminate Hd.
    + intros k' o' Hk' Hbefore' Hd'.
      destruct (Nat.lt_trichotomy k k') as [Hlt|[->|Hgt]].
      * rewrite Hbefore' in Hd by exact Hlt. discriminate Hd.
      * subst decided. congruence.
      * subst decided. rewrite Hbefore in Hd' by lia. discriminate Hd'.
Qed.

Example poll_third_answer :
  pollForCompletion done_at_third markdown_result (fun _ => JUndefined) 120
  = (Resolved (JStr (chars "1. What is 2+2?")), 3).
Proof. vm_compute. reflexivity. Qed.

End LlamaParseFacts.

(** ** Combining the LaTeX of the scanned items *)
Module LatexSourcesFacts.
Import JS LatexSources.

Lemma itemMap_list_to_map (items : list scanned_item) :
  forall m : gmap string (option str),
  foldl (fun m item => <[item_id item := latex_doc item]> m) m items
  = list_to_map (rev (map (fun item => (item_id item, latex_doc item)) items)) ∪ m.
Proof.
  induction items as [|item items IH]; intros m; cbn [foldl map rev].
  - change (list_to_map []) with (∅ : gmap string (option str)).
    by rewrite (left_id_L ∅ (∪)).
  - rewrite IH, list_to_map_app. cbn [list_to_map foldr uncurry].
    rewrite <- (assoc_L (∪)). f_equal.
    by rewrite insert_empty, <- insert_union_singleton_l.
Qed.

Lemma itemMap_permutation (items items' : list scanned_item) :
  NoDup (map item_id items) -> items ≡ₚ items' -> itemMap items = itemMap items'.
Proof.
  intros Hnd Hperm. unfold itemMap. rewrite !itemMap_list_to_map. f_equal.
  apply list_to_map_proper.
  - change (NoDup (map fst (rev (map (fun item => (item_id item, latex_doc item)) items)))).
    rewrite List.map_rev, List.map_map.
    apply (proj1 (NoDup_Permutation_proper _ _ (Permutation_rev _))). exact Hnd.
  - rewrite <- !Permutation_rev. by apply Permutation_map.
Qed.

(** X10: the combined text depends on the order of [itemIds] only: when the
    rows fetched have distinct ids, any order in which the database returns
    them gives the same text. *)
Theorem combined_content_follows_itemIds (items items' : list scanned_item)
    (itemIds : list string) :
  NoDup (map item_id items) ->
  items ≡ₚ items' ->
  combineLatexContent (Some items) itemIds = combineLatexContent (Some items') itemIds.
Proof.
  intros Hnd Hperm. unfold combineLatexContent.
  by rewrite (itemMap_permutation items items' Hnd Hperm).
Qed.

Lemma combined_content_follows_itemIds_witness :
  combineLatexContent (Some [page_one; page_two]) ["p1"; "p2"]%string
  = combineLatexContent (Some [page_two; page_one]) ["p1"; "p2"]%string.
Proof.
  apply (combined_content_follows_itemIds [page_one; page_two] [page_two; page_one]).
  - apply (bool_decide_unpack _). vm_compute. exact I.
  - apply perm_swap.
Defined.

End LatexSourcesFacts.

(** ** The chunks sent to Gemini and the cleaning of its answers *)
Module GeminiFacts.
Import JS Extractor Gemini.

(** A chunk is not empty, and it fits the limit unless it is one of the
    parts as a whole. *)
Local Abbreviation good all :=
  (fun c : str => c <> [] /\ (too_long c = false \/ c ∈ all)).

Lemma pack_spec (all : list str) : forall documentParts chunks currentChunk,
  (forall p, p ∈ documentParts -> p ∈ all) ->
  Forall (good all) chunks ->
  currentChunk = [] \/ good all currentChunk ->
  let res := pack documentParts chunks currentChunk in
  Forall (good all) res.1 /\ (res.2 = [] \/ good all res.2) /\
  concat res.1 ++ res.2 = concat chunks ++ currentChunk ++ concat documentParts.
Proof.
  induction documentParts as [|part rest IH]; intros chunks cur Hall Hchunks Hcur.
  - cbn. by rewrite app_nil_r.
  - cbn [pack concat].
    assert (Hrest : forall p, p ∈ rest -> p ∈ all)
      by (intros p Hp; by apply Hall, list_elem_of_further).
    assert (Hpart : part = [] \/ good all part).
    { destruct part as [|c part]; [by left|]. right.
      split; [discriminate|]. right. apply Hall, list_elem_of_here. }
    destruct (too_long (cur ++ part)) eqn:Hlong; cbn [andb].
    + destruct cur as [|c cur]; cbn [length Nat.ltb Nat.leb].
      * destruct (IH chunks part Hrest Hchunks Hpart) as (H1 & H2 & H3).
        cbn [app] in *. by rewrite H3.
      * assert (Hgood : good all (c :: cur)) by (destruct Hcur as [?|?]; done).
        destruct (IH (chunks ++ [c :: cur]) part Hrest) as (H1 & H2 & H3);
          [apply Forall_app; split; [exact Hchunks | by constructor] | exact Hpart|].
        split; [exact H1|]. split; [exact H2|]. rewrite H3, concat_app. cbn [concat].
        by rewrite app_nil_r, <- !app_assoc.
    + destruct (IH chunks (cur ++ part) Hrest Hchunks) as (H1 & H2 & H3).
      { destruct (cur ++ part) as [|c s] eqn:Hs; [by left|]. right.
        split; [discriminate|]. by left. }
      split; [exact H1|]. split; [exact H2|]. rewrite H3. destruct (0 <? length cur);
        by rewrite <- !app_assoc.
Qed.

(** X11: the chunks sent to Gemini. A content within the limit is sent as
    one chunk. A longer one is cut at the document headers: the chunks are,
    in order, the parts between the headers put together again (nothing
    between two headers is lost or repeated); none is empty; and a chunk is
    longer than the limit only when it is one single part. *)
Theorem chunks_cover_the_content (split_documents : str -> list str) (content : str) :
  let chunks := content_chunks split_documents content in
  (too_long content = false -> chunks = [content]) /\
  (too_long content = true ->
     concat chunks = concat (split_documents content) /\
     Forall (fun c => c <> [] /\
                      (too_long c = false \/ c ∈ split_documents content)) chunks).
Proof.
  intros chunks. subst chunks. unfold content_chunks.
  destruct (too_long content); (split; [try done|]); [|done]. intros _.
  pose proof (pack_spec (split_documents content) (split_documents content) [] []
                ltac:(done) ltac:(constructor) ltac:(by left)) as (H1 & H2 & H3).
  destruct (pack (split_documents content) [] []) as [chunks cur]. cbn [fst snd] in *.
  cbn [concat app] in H3. destruct cur as [|c cur]; cbn [length Nat.ltb Nat.leb].
  - rewrite app_nil_r in H3. by split.
  - split.
    + by rewrite concat_app, <- H3; cbn [concat]; rewrite app_nil_r.
    + apply Forall_app. split; [exact H1|]. constructor; [|constructor].
      by destruct H2.
Qed.

Lemma trimStart_spaces ws s :
  Forall (fun c => is_space c = true) ws -> trimStart (ws ++ s) = trimStart s.
Proof. induction 1 as [|c ws Hc _ IH]; [reflexivity|]. cbn. by rewrite Hc. Qed.

Lemma trim_padded ws1 ws2 a b s :
  Forall (fun c => is_space c = true) ws1 ->
  Forall (fun c => is_space c = true) ws2 ->
  is_space a = false -> is_space b = false ->
  trim (ws1 ++ (a :: s ++ [b]) ++ ws2) = a :: s ++ [b].
Proof.
  intros H1 H2 Ha Hb. unfold trim. rewrite trimStart_spaces by exact H1.
  cbn [trimStart app]. rewrite Ha.
  change (a :: (s ++ [b]) ++ ws2) with ((a :: s ++ [b]) ++ ws2).
  rewrite rev_app_distr, trimStart_spaces by (by apply Forall_rev).
  change (a :: s ++ [b]) with ((a :: s) ++ [b]).
  rewrite rev_app_distr. cbn [rev app trimStart]. rewrite Hb.
  change (b :: rev s ++ [a]) with ([b] ++ (rev s ++ [a])).
  rewrite rev_app_distr, rev_app_distr, rev_involutive. reflexivity.
Qed.

Lemma starts_with_app p s : starts_with p (p ++ s) = true.
Proof. induction p as [|c p IH]; [reflexivity|]. cbn. by rewrite Ascii.eqb_refl. Qed.

(** X12: an answer that wraps its JSON in a fenced block marked json, with
    white space around the block, is cleaned to the text between the fences,
    trimmed. *)
Theorem fenced_answer_is_unwrapped (ws1 ws2 body : str) :
  Forall (fun c => is_space c = true) ws1 ->
  Forall (fun c => is_space c = true) ws2 ->
  strip_fences (ws1 ++ json_fence ++ body ++ fence ++ ws2) = trim body.
Proof.
  intros H1 H2. unfold strip_fences.
  replace (ws1 ++ json_fence ++ body ++ fence ++ ws2)
    with (ws1 ++ ("`"%char :: (chars "``json" ++ body ++ chars "``") ++ ["`"%char]) ++ ws2)
    by (unfold json_fence, fence; cbn [chars list_ascii_of_string app];
        by rewrite <- !app_assoc).
  rewrite (trim_padded ws1 ws2 "`"%char "`"%char _ H1 H2 eq_refl eq_refl).
  replace ("`"%char :: (chars "``json" ++ body ++ chars "``") ++ ["`"%char])
    with (json_fence ++ body ++ fence)
    by (unfold json_fence, fence; cbn [chars list_ascii_of_string app];
        by rewrite <- !app_assoc).
  rewrite starts_with_app.
  change 7 with (length json_fence). rewrite drop_app_length.
  unfold ends_with. rewrite rev_app_distr, starts_with_app.
  rewrite length_app. change (length fence) with 3.
  replace (length body + 3 - 3) with (length body) by lia.
  by rewrite take_app_length.
Qed.

Lemma fenced_answer_is_unwrapped_witness :
  strip_fences (chars " " ++ json_fence
                ++ ([ascii_of_nat 10] ++ Extractor.scenario_block ++ [ascii_of_nat 10])
                ++ fence ++ [ascii_of_nat 10])
  = trim ([ascii_of_nat 10] ++ Extractor.scenario_block ++ [ascii_of_nat 10]).
Proof.
  apply (fenced_answer_is_unwrapped (chars " ") [ascii_of_nat 10]).
  - repeat constructor.
  - repeat constructor.
Defined.

End GeminiFacts.

(** ** The lessons and lesson items that [create] writes *)
Module LessonCreationFacts.
Import JS IO LessonCreation.

Section Ids.
Variable clock : nat -> Z.
Variable draws : nat -> nat -> Byte.byte.
Variable accepts_lesson : list lesson_row -> lesson_row -> bool.
Variable accepts_items : list item_row -> list item_row -> bool.
Variable columns : lesson_source.

Local Abbreviation id_after := (LessonCreation.id_after clock draws).
Local Abbreviation advances := (LessonCreation.advances clock draws).

Lemma mod_add_congr (a b x M : N) :
  (a mod M = b mod M -> (a + x) mod M = (b + x) mod M)%N.
Proof.
  intros H. by rewrite <- (N.Div0.add_mod_idemp_l a), H, N.Div0.add_mod_idemp_l.
Qed.

Lemma map_seq_shift {A} n : forall (f : nat -> A) a,
  map f (seq a n) = map (fun i => f (a + i)) (seq 0 n).
Proof.
  induction n as [|n IH]; intros f a; [reflexivity|]. cbn [seq map].
  rewrite Nat.add_0_r. f_equal. rewrite (IH f (S a)), (IH (fun i => f (a + i)) 1).
  apply map_ext. intros i. f_equal. lia.
Qed.

Lemma advances_refl w : advances 0 w w.
Proof.
  exists 0, []. rewrite Nat.add_0_r, N.add_0_r, app_nil_r. repeat split; constructor.
Qed.

Lemma advances_mono b b' w w' : b <= b' -> advances b w w' -> advances b' w w'.
Proof. intros Hle (j & new & Hj & H). exists j, new. split; [lia | exact H]. Qed.

Lemma id_after_shift w w' j i :
  id_calls w' = id_calls w + j ->
  (counter w' mod MongoId.counter_modulus
     = (counter w + N.of_nat j) mod MongoId.counter_modulus)%N ->
  id_after w' i = id_after w (j + i).
Proof.
  intros Hc Hm. unfold LessonCreation.id_after. rewrite Hc, Nat.add_assoc.
  do 3 f_equal.
  replace (counter w' + N.of_nat i + 1)%N with (counter w' + (N.of_nat i + 1))%N by lia.
  replace (counter w + N.of_nat (j + i) + 1)%N
    with (counter w + N.of_nat j + (N.of_nat i + 1))%N by lia.
  by apply mod_add_congr.
Qed.

Lemma advances_trans b1 b2 w w' w'' :
  advances b1 w w' -> advances b2 w' w'' -> advances (b1 + b2) w w''.
Proof.
  intros (j & new & Hj & Hc & Hm & Ht & Hs) (j' & new' & Hj' & Hc' & Hm' & Ht' & Hs').
  exists (j + j'), (new ++ new'). split; [lia|]. split; [lia|]. split.
  { rewrite Hm'. replace (counter w + N.of_nat (j + j'))%N
      with (counter w + N.of_nat j + N.of_nat j')%N by lia.
    by apply mod_add_congr. }
  split; [by rewrite Ht', Ht, app_assoc|].
  rewrite map_app, seq_app, map_app. apply sublist_app; [exact Hs|].
  replace (map (id_after w) (seq (0 + j) j'))
    with (map (LessonCreation.id_after clock draws w') (seq 0 j')); [exact Hs'|].
  cbn [Nat.add]. rewrite (map_seq_shift j' _ j). apply map_ext.
  intros i. by apply id_after_shift.
Qed.

Local Abbreviation generateMongoId := (LessonCreation.generateMongoId clock draws).
Local Abbreviation lessonItemRecords := (LessonCreation.lessonItemRecords clock draws).
Local Abbreviation createSingleLesson :=
  (LessonCreation.createSingleLesson clock draws accepts_lesson accepts_items columns).
Local Abbreviation chunk_loop :=
  (LessonCreation.chunk_loop clock draws accepts_lesson accepts_items columns).
Local Abbreviation create :=
  (LessonCreation.create clock draws accepts_lesson accepts_items columns).

Lemma generateMongoId_step w :
  exists w',
    generateMongoId w = (Ret (id_after w 0), w') /\
    lessons w' = lessons w /\ lesson_items w' = lesson_items w /\
    id_calls w' = S (id_calls w) /\
    counter w' = ((counter w + 1) mod MongoId.counter_modulus)%N.
Proof.
  exists {| lessons := lessons w; lesson_items := lesson_items w;
            counter := (counter w + 1) mod MongoId.counter_modulus;
            id_calls := S (id_calls w) |}.
  split; [|by repeat split].
  unfold LessonCreation.generateMongoId, LessonCreation.id_after,
    MongoId.generateMongoId.
  rewrite Nat.add_0_r. change (N.of_nat 0) with 0%N. rewrite N.add_0_r. reflexivity.
Qed.

Lemma lessonItemRecords_spec lessonItems : forall lessonId index w,
  exists records w',
    lessonItemRecords lessonId index lessonItems w = (Ret records, w') /\
    lessons w' = lessons w /\ lesson_items w' = lesson_items w /\
    id_calls w' = id_calls w + length lessonItems /\
    (counter w' mod MongoId.counter_modulus
     = (counter w + N.of_nat (length lessonItems)) mod MongoId.counter_modulus)%N /\
    map ref_id records = map (id_after w) (seq 0 (length lessonItems)) /\
    map (fun r => (lesson_id r, position r, question_solution_item_json r)) records
    = imap (fun p it => (lessonId, index + p, it)) lessonItems.
Proof.
  induction lessonItems as [|it rest IH]; intros lessonId index w.
  - exists [], w. rewrite Nat.add_0_r, N.add_0_r. by repeat split.
  - cbn [LessonCreation.lessonItemRecords].
    destruct (generateMongoId_step w) as (w1 & Hgen & Hl1 & Ht1 & Hc1 & Hn1).
    destruct (IH lessonId (S index) w1) as (records & w2 & Hrec & Hl2 & Ht2 & Hc2 & Hn2 & Hr & Hp).
    eexists (_ :: records), w2. split.
    { unfold mbind, io_mbind, io_bind at 1. rewrite Hgen.
      unfold io_bind at 1. rewrite Hrec. reflexivity. }
    split; [congruence|]. split; [congruence|]. split; [cbn [length]; lia|]. split.
    { rewrite Hn2, Hn1. cbn [length]. rewrite N.Div0.add_mod_idemp_l. f_equal. lia. }
    split.
    + cbn [map length seq ref_id]. f_equal. rewrite Hr.
      rewrite (map_seq_shift _ _ 1). apply map_ext. intros i.
      apply id_after_shift; [lia|]. rewrite Hn1. by rewrite N.Div0.mod_mod.
    + cbn [map imap lesson_id position question_solution_item_json].
      rewrite Nat.add_0_r. f_equal. rewrite Hp. apply imap_ext. intros p x _.
      cbn. do 2 f_equal. lia.
Qed.

Lemma createSingleLesson_advances lessonName lessonItems w :
  advances (length lessonItems) w (createSingleLesson lessonName lessonItems w).2.
Proof.
  cbv [LessonCreation.createSingleLesson mbind io_mbind io_bind mret io_mret io_ret
       insert_lesson insert_items].
  destruct (tocQuestionItems lessonItems) as [toc| |];
    try (apply (advances_mono 0); [lia | apply advances_refl]).
  destruct (accepts_lesson _ _);
    [|apply (advances_mono 0); [lia | apply advances_refl]].
  set (w1 := {| lessons := _; lesson_items := lesson_items w; counter := counter w;
                id_calls := id_calls w |}).
  destruct (lessonItemRecords_spec lessonItems (length (lessons w)) 0 w1)
    as (records & w2 & -> & Hl & Ht & Hc & Hn & Hr & Hp).
  assert (Hids : map ref_id records
                 = map (id_after w) (seq 0 (length lessonItems))) by exact Hr.
  assert (Hempty : advances (length lessonItems) w w2).
  { exists (length lessonItems), []. rewrite app_nil_r.
    repeat split; [lia | exact Hc | exact Hn | exact Ht | apply sublist_nil_l]. }
  destruct records as [|r records]; [exact Hempty|].
  destruct (accepts_items _ _); [|exact Hempty]. cbn [snd].
  exists (length lessonItems), (r :: records). cbn [lesson_items id_calls counter].
  repeat split; [lia | exact Hc | exact Hn | by rewrite Ht | by rewrite Hids].
Qed.

Lemma chunk_loop_advances name count mergedItems fuel : forall i ids w,
  advances (length mergedItems - i) w (chunk_loop fuel name count mergedItems i ids w).2.
Proof.
  induction fuel as [|fuel IH]; intros i ids w; cbn [LessonCreation.chunk_loop].
  { apply (advances_mono 0); [lia | apply advances_refl]. }
  destruct (Nat.ltb_spec i (length mergedItems)) as [Hlt|Hge];
    [|apply (advances_mono 0); [lia | apply advances_refl]].
  pose proof (createSingleLesson_advances
                (lessonNameWithRange name i count (length mergedItems))
                (take count (drop i mergedItems)) w) as Hone.
  cbv [mbind io_mbind io_bind].
  destruct (createSingleLesson _ _ w) as [[lessonId| |] w1]; cbn [snd] in *.
  - apply (advances_mono (length (take count (drop i mergedItems))
                          + (length mergedItems - (i + count)))).
    { rewrite length_take, length_drop. lia. }
    eapply advances_trans; [exact Hone | apply IH].
  - eapply advances_mono; [|exact Hone]. rewrite length_take, length_drop. lia.
  - eapply advances_mono; [|exact Hone]. rewrite length_take, length_drop. lia.
Qed.

Lemma create_advances name lesson_item_count mergedItems w :
  advances (length mergedItems) w (create name lesson_item_count mergedItems w).2.
Proof.
  assert (Hone : advances (length mergedItems) w
                   ((lessonId ← createSingleLesson name mergedItems;
                     mret (OneLesson lessonId)) w).2).
  { pose proof (createSingleLesson_advances name mergedItems w) as H.
    cbv [mbind io_mbind io_bind mret io_mret io_ret].
    by destruct (createSingleLesson _ _ w) as [[lessonId| |] w1]. }
  unfold LessonCreation.create. destruct lesson_item_count as [count|]; [|exact Hone].
  destruct (0 <? count)%Z; [|exact Hone].
  pose proof (chunk_loop_advances name (Z.to_nat count) mergedItems
                (S (length mergedItems)) 0 [] w) as H.
  rewrite Nat.sub_0_r in H. cbv [mbind io_mbind io_bind mret io_mret io_ret].
  by destruct (chunk_loop _ _ _ _ _ _ w) as [[ids| |] w1].
Qed.

Lemma mod_window_inj (c a b M : N) :
  (a < M -> b < M -> (c + a) mod M = (c + b) mod M -> a = b)%N.
Proof.
  intros Ha Hb H.
  pose proof (N.div_mod (c + a) M ltac:(lia)) as Hda.
  pose proof (N.div_mod (c + b) M ltac:(lia)) as Hdb.
  pose proof (N.mod_lt (c + a) M ltac:(lia)) as Hma.
  rewrite H in Hda. 
  assert ((c + a) / M = (c + b) / M)%N; [nia | lia].
Qed.

Lemma id_after_inj w (a b : nat) :
  (N.of_nat a < MongoId.counter_modulus)%N ->
  (N.of_nat b < MongoId.counter_modulus)%N ->
  id_after w a = id_after w b -> a = b.
Proof.
  intros Ha Hb H. unfold LessonCreation.id_after in H.
  destruct (ObjectIdFacts.count_part_value (counter w + N.of_nat a)) as [Hla Hva].
  destruct (ObjectIdFacts.count_part_value (counter w + N.of_nat b)) as [Hlb Hvb].
  cbn zeta in *. rewrite !app_assoc in H.
  apply app_inj_2 in H as [_ H]; [|congruence].
  rewrite H in Hva. rewrite Hva in Hvb. injection Hvb as Hvb.
  replace (counter w + N.of_nat a + 1)%N with (counter w + 1 + N.of_nat a)%N in Hvb by lia.
  replace (counter w + N.of_nat b + 1)%N with (counter w + 1 + N.of_nat b)%N in Hvb by lia.
  apply mod_window_inj in Hvb; [lia | exact Ha | exact Hb].
Qed.

End Ids.

(** X14: the rows that one call of [create] adds to [lesson_items] carry
    pairwise distinct [ref_id]s, whatever the clock and the random draws are,
    whether the call returns or throws on the way, and across the lessons a
    chunked call makes, as long as it is given no more than [0xffffff]
    items. *)
Theorem created_items_have_distinct_ref_ids (clock : nat -> Z)
    (draws : nat -> nat -> Byte.byte)
    (accepts_lesson : list lesson_row -> lesson_row -> bool)
    (accepts_items : list item_row -> list item_row -> bool)
    (columns : lesson_source) (name : str) (lesson_item_count : option Z)
    (mergedItems : list item) (w : world) :
  (N.of_nat (length mergedItems) <= MongoId.counter_modulus)%N ->
  exists new,
    lesson_items (create clock draws accepts_lesson accepts_items columns
                    name lesson_item_count mergedItems w).2
    = lesson_items w ++ new /\
    NoDup (map ref_id new).
Proof.
  intros Hn.
  destruct (create_advances clock draws accepts_lesson accepts_items columns
              name lesson_item_count mergedItems w)
    as (j & new & Hj & _ & _ & Hnew & Hsub).
  exists new. split; [exact Hnew|]. eapply sublist_NoDup; [|exact Hsub].
  apply NoDup_fmap_2_strong; [|apply NoDup_seq].
  intros a b Ha%elem_of_seq Hb%elem_of_seq. apply id_after_inj; lia.
Qed.


Lemma chunk_count_0 count : 0 < count -> chunk_count 0 count = 0.
Proof. intros H. unfold chunk_count. apply Nat.div_small. lia. Qed.

Lemma chunk_count_S left count :
  0 < count -> 0 < left ->
  chunk_count left count = S (chunk_count (left - count) count).
Proof.
  intros Hc Hl. unfold chunk_count.
  replace (left + count - 1) with ((left - 1) + 1 * count) by lia.
  rewrite Nat.div_add by lia. rewrite Nat.add_1_r. f_equal.
  destruct (Nat.le_gt_cases count left) as [Hle|Hgt].
  - f_equal. lia.
  - replace (left - count + count - 1) with (count - 1) by lia.
    rewrite !Nat.div_small; lia.
Qed.

Lemma map_run_returns {A B} (f : nat -> A -> run B) (l : list A) : forall index,
  (forall i x, x ∈ l -> exists y, f i x = Ret y) ->
  exists ys, map_run f index l = Ret ys /\ length ys = length l.
Proof.
  induction l as [|x l IH]; intros index Hf; [by exists []|].
  destruct (Hf index x ltac:(left)) as [y Hy].
  destruct (IH (S index)) as (ys & Hys & Hlen).
  { intros i x' Hin. apply Hf. by right. }
  exists (y :: ys). cbn [map_run]. rewrite Hy. cbn. rewrite Hys. cbn.
  split; [reflexivity | by rewrite Hlen].
Qed.

Lemma tocQuestionItems_returns (lessonItems : list item) :
  Forall (fun it => Forall (fun c => is_string c = true) (choices it)) lessonItems ->
  exists toc, tocQuestionItems lessonItems = Ret toc /\ length toc = length lessonItems.
Proof.
  intros Hs. apply map_run_returns. intros i it Hin.
  rewrite Forall_forall in Hs. specialize (Hs it Hin). unfold toc_item_of.
  destruct (choices it) as [|c cs] eqn:Hch; [by eexists|].
  destruct (map_run_returns (toc_choice_of (decimal_of (i + 1))) (c :: cs) 0)
    as (ys & -> & _); [|by eexists].
  intros k x Hx. rewrite Forall_forall in Hs. specialize (Hs x Hx).
  destruct x; try discriminate Hs. by eexists.
Qed.

Lemma placed_items_at (lessonId : nat) (items : list item) :
  forall (f : nat -> nat) (rows : list item_row),
    map placed rows = imap (fun p it => (lessonId, f p, it)) items ->
    map question_solution_item_json rows = items.
Proof.
  induction items as [|it items IH]; intros f rows H.
  - by destruct rows.
  - destruct rows as [|r rows]; [discriminate H|]. cbn [map imap] in *.
    injection H as _ _ Hj H. f_equal; [exact Hj|].
    by apply (IH (fun p => f (S p))).
Qed.

Lemma placed_items (rows : list item_row) (lessonId : nat) (items : list item) :
  map placed rows = imap (fun p it => (lessonId, p, it)) items ->
  map question_solution_item_json rows = items.
Proof. apply (placed_items_at lessonId items (fun p => p)). Qed.

Section Accepting.
Variable clock : nat -> Z.
Variable draws : nat -> nat -> Byte.byte.
Variable columns : lesson_source.

Local Abbreviation createSingleLesson :=
  (LessonCreation.createSingleLesson clock draws accepting accepting columns).
Local Abbreviation chunk_loop :=
  (LessonCreation.chunk_loop clock draws accepting accepting columns).
Local Abbreviation create :=
  (LessonCreation.create clock draws accepting accepting columns).

Lemma createSingleLesson_accepted lessonName lessonItems w :
  Forall (fun it => Forall (fun c => is_string c = true) (choices it)) lessonItems ->
  exists row rows w',
    createSingleLesson lessonName lessonItems w = (Ret (length (lessons w)), w') /\
    lessons w' = lessons w ++ [row] /\ lesson_name row = lessonName /\
    lesson_columns row = columns /\
    tocQuestionItems lessonItems = Ret (toc_question_items row) /\
    lesson_items w' = lesson_items w ++ rows /\
    map placed rows = imap (fun p it => (length (lessons w), p, it)) lessonItems.
Proof.
  intros Hs. destruct (tocQuestionItems_returns lessonItems Hs) as (toc & Htoc & _).
  cbv [LessonCreation.createSingleLesson mbind io_mbind io_bind mret io_mret io_ret
       insert_lesson insert_items accepting].
  rewrite Htoc.
  set (row := {| lesson_name := lessonName; lesson_columns := columns;
                 toc_question_items := toc |}).
  set (w1 := {| lessons := lessons w ++ [row]; lesson_items := lesson_items w;
                counter := counter w; id_calls := id_calls w |}).
  destruct (lessonItemRecords_spec clock draws lessonItems (length (lessons w)) 0 w1)
    as (records & w2 & -> & Hl & Ht & _ & _ & _ & Hp).
  exists row, records. destruct records as [|r records].
  - exists w2. repeat split; [exact Hl | by rewrite Ht, app_nil_r | exact Hp].
  - eexists. repeat split; cbn [lessons lesson_items];
      [exact Hl | by rewrite Ht | exact Hp].
Qed.

Lemma chunk_loop_accepted name count mergedItems :
  0 < count ->
  Forall (fun it => Forall (fun c => is_string c = true) (choices it)) mergedItems ->
  forall fuel i ids w,
    length mergedItems - i < fuel ->
    let r := chunk_count (length mergedItems - i) count in
    exists newLessons newRows w',
      chunk_loop fuel name count mergedItems i ids w
      = (Ret (ids ++ seq (length (lessons w)) r), w') /\
      lessons w' = lessons w ++ newLessons /\
      lesson_items w' = lesson_items w ++ newRows /\
      map lesson_name newLessons
      = map (fun k => lessonNameWithRange name (i + k * count) count (length mergedItems))
            (seq 0 r) /\
      map placed newRows
      = concat (map (fun k => imap (fun p it => (length (lessons w) + k, p, it))
                                   (take count (drop (i + k * count) mergedItems)))
                    (seq 0 r)) /\
      map question_solution_item_json newRows = drop i mergedItems.
Proof.
  intros Hc Hs. induction fuel as [|fuel IH]; intros i ids w Hfuel r; [lia|].
  cbn [LessonCreation.chunk_loop].
  destruct (Nat.ltb_spec i (length mergedItems)) as [Hlt|Hge].
  - assert (Hchunk : Forall (fun it => Forall (fun c => is_string c = true) (choices it))
                       (take count (drop i mergedItems))).
    { apply Forall_take, Forall_drop, Hs. }
    destruct (createSingleLesson_accepted
                (lessonNameWithRange name i count (length mergedItems))
                (take count (drop i mergedItems)) w Hchunk)
      as (row & rows & w1 & Hrun & Hl1 & Hname & _ & _ & Ht1 & Hp1).
    cbv [mbind io_mbind io_bind]. rewrite Hrun.
    destruct (IH (i + count) (ids ++ [length (lessons w)]) w1 ltac:(lia))
      as (newLessons & newRows & w2 & Hloop & Hl2 & Ht2 & Hn2 & Hp2 & Hj2).
    exists (row :: newLessons), (rows ++ newRows), w2. subst r.
    rewrite (chunk_count_S (length mergedItems - i) count Hc ltac:(lia)).
    replace (length mergedItems - i - count) with (length mergedItems - (i + count)) by lia.
    set (r' := chunk_count (length mergedItems - (i + count)) count) in *.
    assert (Hlw1 : length (lessons w1) = S (length (lessons w)))
      by (rewrite Hl1, length_app; simpl; lia).
    split; [|split; [|split; [|split; [|split]]]].
    6:{ rewrite map_app, Hj2, (placed_items _ _ _ Hp1).
        by rewrite <- drop_drop, take_drop. }
    + rewrite Hloop, <- app_assoc, Hlw1. reflexivity.
    + by rewrite Hl2, Hl1, <- app_assoc.
    + by rewrite Ht2, Ht1, <- app_assoc.
    + cbn [map seq]. rewrite Hn2, Hname. f_equal; [by rewrite Nat.add_0_r|].
      rewrite (map_seq_shift r' _ 1). apply map_ext. intros k. f_equal. lia.
    + cbn [map seq concat]. rewrite map_app, Hp1, Hp2, !Nat.add_0_r. f_equal.
      rewrite (map_seq_shift r' _ 1). f_equal. apply map_ext. intros k.
      rewrite Hlw1. replace (i + count + k * count) with (i + (1 + k) * count) by lia.
      apply imap_ext. intros p it _. cbn. do 2 f_equal. lia.
  - exists [], [], w. subst r. replace (length mergedItems - i) with 0 by lia.
    rewrite chunk_count_0 by exact Hc. cbv [mret io_mret io_ret]. cbn [seq map concat].
    rewrite !app_nil_r, drop_ge by lia. done.
Qed.

(** X13: what [create] writes when the database accepts every insert and
    every choice is a string. With a positive [lesson_item_count] it makes
    one lesson for each run of [lesson_item_count] consecutive items, the
    last one possibly shorter (no lesson at all when there is no item), named
    after the ranks of its first and last item; the rows of each lesson are
    its items in order, at positions counted from 0 in each lesson; together
    they are the merged items, each once, in order. Without a count it makes
    exactly one lesson, also when there is no item. *)
Theorem create_cuts_the_items_into_lessons (name : str) (count : Z)
    (mergedItems : list item) (w : world) :
  Forall (fun it => Forall (fun c => is_string c = true) (choices it)) mergedItems ->
  (0 < count)%Z ->
  let c := Z.to_nat count in
  let m := chunk_count (length mergedItems) c in
  (exists newLessons newRows w',
     create name (Some count) mergedItems w
     = (Ret (Lessons (seq (length (lessons w)) m)), w') /\
     lessons w' = lessons w ++ newLessons /\
     lesson_items w' = lesson_items w ++ newRows /\
     map lesson_name newLessons
     = map (fun k => lessonNameWithRange name (k * c) c (length mergedItems)) (seq 0 m) /\
     map placed newRows
     = concat (map (fun k => imap (fun p it => (length (lessons w) + k, p, it))
                                  (take c (drop (k * c) mergedItems)))
                   (seq 0 m)) /\
     map question_solution_item_json newRows = mergedItems) /\
  (exists row newRows w',
     create name None mergedItems w = (Ret (OneLesson (length (lessons w))), w') /\
     lessons w' = lessons w ++ [row] /\ lesson_name row = name /\
     lesson_items w' = lesson_items w ++ newRows /\
     map placed newRows = imap (fun p it => (length (lessons w), p, it)) mergedItems).
Proof.
  intros Hs Hcount c m. split.
  - destruct (chunk_loop_accepted name c mergedItems ltac:(lia) Hs
                (S (length mergedItems)) 0 [] w ltac:(lia))
      as (newLessons & newRows & w' & Hloop & Hl & Ht & Hn & Hp & Hj).
    rewrite Nat.sub_0_r in *. exists newLessons, newRows, w'.
    unfold LessonCreation.create. apply Z.ltb_lt in Hcount as ->.
    cbv [mbind io_mbind io_bind mret io_mret io_ret]. fold c. rewrite Hloop.
    by repeat split.
  - destruct (createSingleLesson_accepted name mergedItems w Hs)
      as (row & rows & w' & Hrun & Hl & Hname & _ & _ & Ht & Hp).
    exists row, rows, w'. unfold LessonCreation.create.
    cbv [mbind io_mbind io_bind mret io_mret io_ret]. rewrite Hrun. by repeat split.
Qed.

End Accepting.

Lemma create_cuts_the_items_into_lessons_witness :
  (create sample_clock sample_draws accepting accepting sample_columns
     (chars "Algebra") (Some 2%Z) three_items empty_world).1
  = Ret (Lessons [0; 1]).
Proof.
  destruct (create_cuts_the_items_into_lessons sample_clock sample_draws sample_columns
              (chars "Algebra") 2 three_items empty_world)
    as [(newLessons & newRows & w' & Hrun & _) _].
  - repeat constructor.
  - reflexivity.
  - rewrite Hrun. reflexivity.
Defined.

Example algebra_lessons :
  map lesson_name
    (lessons (create sample_clock sample_draws accepting accepting sample_columns
                (chars "Algebra") (Some 2%Z) three_items empty_world).2)
  = [chars "Algebra 1-2"; chars "Algebra 3-3"].
Proof. vm_compute. reflexivity. Qed.

Lemma created_items_have_distinct_ref_ids_witness :
  exists new,
    lesson_items (create sample_clock sample_draws accepting accepting sample_columns
                    (chars "Algebra") (Some 2%Z) three_items empty_world).2
    = lesson_items empty_world ++ new /\
    NoDup (map ref_id new).
Proof.
  apply (created_items_have_distinct_ref_ids sample_clock sample_draws accepting accepting
           sample_columns (chars "Algebra") (Some 2%Z) three_items empty_world).
  vm_compute. intros H. discriminate H.
Defined.

End LessonCreationFacts.

(** ** The labels of the choices in [toc_output_json] *)
Module ChoiceLabelFacts.
Import JS Extractor LessonCreation ExtractorFacts.

Lemma trim_length s : length (trim s) <= length s.
Proof.
  unfold trim. rewrite length_rev.
  etransitivity; [apply trimStart_length|]. rewrite length_rev. apply trimStart_length.
Qed.







Lemma trimStart_idemp s : trimStart (trimStart s) = trimStart s.
Proof.
  induction s as [|c s IH]; [reflexivity|]. cbn [trimStart].
  destruct (is_space c) eqn:Hc; [exact IH|]. cbn [trimStart]. by rewrite Hc.
Qed.

Lemma trim_trimStart s : trim (trimStart s) = trim s.
Proof. unfold trim. by rewrite trimStart_idemp. Qed.

(** X16: a choice in the form the markdown fallback of the extractor
    writes, a letter between parentheses, a space and the text, gets that
    letter (in lower case) as its label, and its cleaned text is the text,
    trimmed, provided the text does not itself begin with something the
    last three expressions take for a label: the replacements are applied
    one after the other, so that such a beginning would be removed too. *)
Theorem parenthesised_label_is_removed (letter : ascii) (text : str)
    (fallbackIndex : nat) :
  is_letter letter = true ->
  (forall p, p ∈ drop 2 label_patterns -> match_label p (trimStart text) = None) ->
  extractChoiceLabel (chars "(" ++ [letter] ++ chars ") " ++ text) fallbackIndex
  = Letter (toLowerChar letter) /\
  cleanChoiceText (chars "(" ++ [letter] ++ chars ") " ++ text) = trim text.
Proof.
  intros Hl Hnone.
  assert (H2 : match_label (chars "(", chars ")")
                 (chars "(" ++ [letter] ++ chars ") " ++ text)
               = Some (letter, " "%char :: text)).
  { unfold match_label, strip_prefix. cbn. by rewrite Hl. }
  assert (H1 : match_label (chars "$(", chars ")$")
                 (chars "(" ++ [letter] ++ chars ") " ++ text) = None) by reflexivity.
  split.
  - unfold extractChoiceLabel, label_patterns. cbn [first_label]. by rewrite H1, H2.
  - unfold cleanChoiceText, label_patterns. cbn [foldl]. unfold strip_label at 5.
    rewrite H1. unfold strip_label at 4. rewrite H2.
    change (trimStart (" "%char :: text)) with (trimStart text).
    unfold strip_label.
    rewrite (Hnone (chars "$", chars "$")) by (cbn; set_solver).
    rewrite (Hnone ([], chars ".")) by (cbn; set_solver).
    rewrite (Hnone ([], chars ")")) by (cbn; set_solver).
    apply trim_trimStart.
Qed.

Lemma parenthesised_label_is_removed_witness :
  cleanChoiceText (chars "(" ++ ["B"%char] ++ chars ") " ++ chars "Paris ")
  = trim (chars "Paris ").
Proof.
  destruct (parenthesised_label_is_removed "B"%char (chars "Paris ") 1) as [_ H].
  - reflexivity.
  - intros p Hp. cbn in Hp.
    repeat (apply elem_of_cons in Hp as [->|Hp]; [reflexivity|]).
    by apply elem_of_nil in Hp.
  - exact H.
Defined.

(** A text that begins like a label loses that beginning as well. *)
Example second_label_is_removed_too :
  cleanChoiceText (chars "(a) b) c") = chars "c".
Proof. vm_compute. reflexivity. Qed.

End ChoiceLabelFacts.

(** ** The dialog and the route agree on what can be imported *)
Module ImportQuestionsFacts.
Import JS Repairer ImportQuestions.

(** X17: whatever text the dialog accepts, the object it hands to [onImport]
    passes the checks of the import route: the route calls the service with
    it, and its [questions] array has the number of elements the dialog
    displayed. An array is wrapped by the dialog into such an object. *)
Theorem accepted_text_passes_the_route (JSON_parse : str -> option jsval)
    (text : str) (parsedCount : nat) :
  validateJson JSON_parse text = Ret (Valid parsedCount) ->
  exists payload qs,
    handleSubmit JSON_parse (Valid parsedCount) text = Ret (Some payload) /\
    import_route JSON_parse payload = Ret (CallsService payload) /\
    getProp payload "questions" = Ret (JArr qs) /\
    length qs = parsedCount.
Proof.
  unfold validateJson, handleSubmit. destruct (trim text); [discriminate|].
  destruct (parse_with_repair JSON_parse text) as [parsed| |]; try discriminate.
  destruct parsed as [| |b|n|s|items|fields]; cbn; try discriminate.
  - intros [= <-]. eexists _, items. by repeat split.
  - destruct (default JUndefined (assoc "questions" fields)) as [| |b|n|s|qs|fs] eqn:Hq;
      try discriminate.
    intros [= <-]. exists (JObj fields), qs. unfold import_route. cbn. rewrite Hq.
    by repeat split.
Qed.

Lemma accepted_text_passes_the_route_witness :
  exists payload qs,
    handleSubmit array_parse (Valid 1) array_text = Ret (Some payload) /\
    import_route array_parse payload = Ret (CallsService payload) /\
    getProp payload "questions" = Ret (JArr qs) /\
    length qs = 1.
Proof.
  apply (accepted_text_passes_the_route array_parse array_text 1).
  vm_compute. reflexivity.
Defined.

(** The text of the JSON value null makes both of them throw. *)
Example null_text_throws :
  validateJson array_parse (chars "null") = Throw /\
  import_route array_parse (JStr (chars "null")) = Throw.
Proof. split; vm_compute; reflexivity. Qed.

End ImportQuestionsFacts.

(** ** The name of the folder of a lesson *)
Module FoldersFacts.
Import JS Folders.

Lemma trimStart_suffix s : exists ws, s = ws ++ trimStart s.
Proof.
  induction s as [|c s [ws IH]]; [by exists []|]. cbn [trimStart].
  destruct (is_space c); [|by exists []]. exists (c :: ws). cbn. by f_equal.
Qed.

Lemma elem_of_rev {A} (x : A) (l : list A) : x ∈ rev l <-> x ∈ l.
Proof. by rewrite !list_elem_of_In, <- in_rev. Qed.

Lemma trimStart_elem c s : c ∈ trimStart s -> c ∈ s.
Proof.
  intros H. destruct (trimStart_suffix s) as [ws Hs].
  assert (Hin : c ∈ ws ++ trimStart s) by (apply elem_of_app; by right).
  by rewrite <- Hs in Hin.
Qed.

Lemma trim_elem c s : c ∈ trim s -> c ∈ s.
Proof.
  unfold trim. intros H. apply (proj1 (elem_of_rev _ _)), trimStart_elem in H.
  apply (proj1 (elem_of_rev _ _)) in H. by apply trimStart_elem.
Qed.

(** X18: the folder name made from the name of a lesson holds none of the
    nine characters of [forbidden], in particular no slash and no backslash,
    and is not longer than the name. *)
Theorem sanitized_name_has_no_forbidden_character (name : str) :
  Forall (fun c => c ∉ forbidden) (sanitizedLessonName name) /\
  length (sanitizedLessonName name) <= length name.
Proof.
  unfold sanitizedLessonName. split.
  - apply Forall_forall. intros c Hc%trim_elem.
    apply list_elem_of_fmap in Hc as (c0 & -> & _).
    case_bool_decide as Hin; [|exact Hin]. vm_compute. intros H.
    repeat (apply elem_of_cons in H as [H|H]; [discriminate H|]).
    by apply elem_of_nil in H.
  - etransitivity; [apply ChoiceLabelFacts.trim_length|]. by rewrite length_map.
Qed.

End FoldersFacts.

(** ** The retries of [initialize] *)
Module AuthStoreFacts.
Import JS AuthStore.

Section Store.
Context {User Token : Type}.
Variable answers : nat -> answer User.

Local Abbreviation initialize := (AuthStore.initialize (Token := Token) answers).

Lemma initialize_retries fuel : forall retryCount requests delays st,
  isInitializing st = false ->
  0 < retryCount \/ isInitialized st = false ->
  3 - retryCount < fuel ->
  retryCount <= 3 ->
  exists st' requests' more,
    initialize fuel retryCount requests delays st
    = Ret (st', requests', delays ++ more) /\
    isInitialized st' = true /\ isInitializing st' = false /\
    requests <= requests' <= requests + (4 - retryCount) /\
    more `prefix_of` map delay (seq retryCount (3 - retryCount)) /\
    (token st' = token st \/
     token st' = None /\ user st' = None /\
     exists k status, requests <= k < requests' /\ answers k = Rejects status /\
                      isAuthError status = true) /\
    ((forall k status, requests <= k < requests' -> answers k = Rejects status ->
                       isAuthError status = false) ->
     token st' = token st).
Proof.
  induction fuel as [|fuel IH]; intros retryCount requests delays st Hing Hfresh Hfuel Hle;
    [lia|].
  cbn [AuthStore.initialize]. rewrite Hing.
  replace (isInitialized st && Nat.eqb retryCount 0) with false.
  2:{ destruct Hfresh as [Hpos| ->]; [|reflexivity].
      destruct (Nat.eqb_spec retryCount 0); [lia | by rewrite andb_false_r]. }
  destruct (token st) as [t|] eqn:Htok.
  2:{ eexists _, requests, []. rewrite app_nil_r. split; [reflexivity|].
      cbn [isInitialized isInitializing token]. repeat split; try lia; try done.
      - apply prefix_nil.
      - by left. }
  destruct (answers requests) as [data|status] eqn:Hans.
  { eexists _, (S requests), []. rewrite app_nil_r. split; [reflexivity|].
    cbn [isInitialized isInitializing token]. repeat split; try lia; try done.
    - apply prefix_nil.
    - by left. }
  destruct (isAuthError status) eqn:Hauth.
  { eexists _, (S requests), []. rewrite app_nil_r. split; [reflexivity|].
    cbn [isInitialized isInitializing token user]. repeat split; try lia; try done.
    - apply prefix_nil.
    - right. repeat split. exists requests, status. repeat split; [lia | lia | done | done].
    - intros Hnone. specialize (Hnone requests status ltac:(lia) Hans). congruence. }
  destruct (Nat.ltb_spec retryCount 3) as [Hlt|Hge].
  - destruct (IH (retryCount + 1) (S requests) (delays ++ [delay retryCount])
                {| user := user st; token := token st; isInitialized := isInitialized st;
                   isInitializing := false; initializationAttempts := retryCount + 1 |}
                eq_refl ltac:(left; lia) ltac:(lia) ltac:(lia))
      as (st' & requests' & more & Hrun & Hi & Hg & Hreq & Hpre & Htok' & Hkeep).
    rewrite Htok in Hrun. rewrite Hrun. cbn [token] in *.
    exists st', requests', (delay retryCount :: more). split; [by rewrite <- app_assoc|].
    split; [exact Hi|]. split; [exact Hg|]. split; [lia|]. split.
    { replace (3 - retryCount) with (S (3 - (retryCount + 1))) by lia. cbn [seq map].
      replace (S retryCount) with (retryCount + 1) by lia. by apply prefix_cons. }
    split.
    + destruct Htok' as [->|(Hn & Hu & k & s & Hk & Ha & Hs)]; [by left|].
      right. repeat split; [exact Hn | exact Hu|]. exists k, s. repeat split; try done; lia.
    + intros Hnone. rewrite <- Htok. rewrite Htok. rewrite <- Htok. apply Hkeep.
      intros k s Hk. apply Hnone. lia.
  - eexists _, (S requests), []. rewrite app_nil_r. split; [reflexivity|].
    cbn [isInitialized isInitializing token]. repeat split; try lia; try done.
    + apply prefix_nil.
    + by left.
Qed.

End Store.

(** X19: [initialize] on a store that is not initialized, followed by the
    retries its timers make. The chain ends with the store initialized,
    after at most four requests and at most three waits, of 1000, 2000 and
    4000 ms (the cap of 5000 is never reached). The token is either left as
    it was or, with the user, cleared, and it is cleared only when a request
    was rejected with a 401 or a 403: when the service cannot be reached,
    the token is kept. *)
Theorem initialize_keeps_the_token_unless_refused {User Token : Type}
    (answers : nat -> answer User) (st : state User Token) (fuel : nat) :
  isInitializing st = false ->
  isInitialized st = false ->
  3 < fuel ->
  exists st' requests delays,
    initialize answers fuel 0 0 [] st = Ret (st', requests, delays) /\
    isInitialized st' = true /\ isInitializing st' = false /\
    requests <= 4 /\
    delays `prefix_of` [1000; 2000; 4000] /\
    (token st' = token st \/ token st' = None /\ user st' = None /\ refused answers requests) /\
    ((forall k status, k < requests -> answers k = Rejects status ->
                       isAuthError status = false) ->
     token st' = token st).
Proof.
  intros Hing Hinit Hfuel.
  destruct (initialize_retries (Token := Token) answers fuel 0 0 [] st Hing
              ltac:(by right) ltac:(lia) ltac:(lia))
    as (st' & requests & more & Hrun & Hi & Hg & Hreq & Hpre & Htok & Hkeep).
  exists st', requests, more. cbn [app] in Hrun. split; [exact Hrun|].
  split; [exact Hi|]. split; [exact Hg|]. split; [lia|]. split; [exact Hpre|]. split.
  - destruct Htok as [->|(Hn & Hu & k & s & Hk & Ha & Hs)]; [by left|].
    right. repeat split; [exact Hn | exact Hu|]. exists k, s. repeat split; try done; lia.
  - intros Hnone. apply Hkeep. intros k s Hk. apply Hnone. lia.
Qed.

Lemma initialize_keeps_the_token_unless_refused_witness :
  exists st' requests delays,
    initialize unreachable 4 0 0 [] returning_user = Ret (st', requests, delays) /\
    isInitialized st' = true /\ isInitializing st' = false /\
    requests <= 4 /\
    delays `prefix_of` [1000; 2000; 4000] /\
    (token st' = token returning_user \/
     token st' = None /\ user st' = None /\ refused unreachable requests) /\
    ((forall k status, k < requests -> unreachable k = Rejects status ->
                       isAuthError status = false) ->
     token st' = token returning_user).
Proof.
  apply (initialize_keeps_the_token_unless_refused unreachable returning_user 4).
  - reflexivity.
  - reflexivity.
  - lia.
Defined.

Example unreachable_service_keeps_the_token :
  initialize unreachable 4 0 0 [] returning_user
  = Ret ({| user := Some 7; token := Some "t"%string; isInitialized := true;
            isInitializing := false; initializationAttempts := 0 |},
         4, [1000; 2000; 4000]).
Proof. vm_compute. reflexivity. Qed.

End AuthStoreFacts.

(** ** The page and the zoom of the viewer *)
Module PdfViewerFacts.
Import PdfViewer.

Lemma pages_or_one_pos n : (1 <= pages_or_one n)%Z.
Proof. destruct n as [[|n]|]; simpl; lia. Qed.

Lemma handle_in_range v e : in_range v -> in_range (handle v e).
Proof.
  intros [Hp Hs]. pose proof (pages_or_one_pos (numPages v)).
  destruct e as [n| | | | | |]; unfold in_range;
    cbn [handle numPages pageNumber scale initial].
  - pose proof (pages_or_one_pos (Some n)). lia.
  - lia.
  - lia.
  - lia.
  - lia.
  - lia.
  - change (pages_or_one None) with 1%Z. lia.
Qed.

(** X20: whatever happens in the viewer (documents loading or failing to, pages
    back and forth, zooming, closing), the page number stays between 1 and
    the number of pages of the document (1 when none is loaded or the
    document has none), and the scale between 0.5 and 3. *)
Theorem viewer_stays_in_range (events : list event) :
  in_range (foldl handle initial events).
Proof.
  assert (H : forall v, in_range v -> in_range (foldl handle v events)).
  { induction events as [|e events IH]; intros v Hv; [exact Hv|].
    cbn [foldl]. by apply IH, handle_in_range. }
  apply H. unfold in_range, initial. simpl. lia.
Qed.

End PdfViewerFacts.
